(** * bern_img_utils: binary-mask scoring and geometric refinement

    A shallow embedding of [src/masks.py] and the statements that settle
    the properties claimed for it.

    Data model.  A mask is a two-dimensional numpy array of dtype uint8:
    a list of rows, every cell an integer in [0, 256).  The two storage
    encodings of a binary mask are 0/1 (what [astype(np.uint8)] makes of a
    boolean array, and what [mask_from_RGB_file] produces) and 0/255 (what
    OpenCV produces).  Python and numpy floating-point values are modelled
    by exact rationals, with the two special values that numpy division can
    produce; the product and the comparison of [mask_onto_mask] are those
    of IEEE 754 binary64 floats, with their rounding.  A Python exception
    is an explicit [Raise].

    Library code.  numpy, scikit-learn and OpenCV are not part of the
    repository; the functions of them that [masks.py] calls are embedded
    from their documented behaviour (each definition says which call it
    stands for).  [cv2.findContours] is the border following of Suzuki and
    Abe as OpenCV 3.2+ runs it, on the image surrounded by a one-pixel
    frame of zeros.  Three library functions stay parameters of the
    functions that call them: [cv2.minEnclosingCircle], the set of cells
    that [cv2.circle] fills, and the gray level that [cv2.cvtColor] gives
    a pixel.  The files that [cv2.imread] reads are a finite map from
    paths to pictures. *)

From Stdlib Require Import ZArith QArith Qround Qpower Lia Lqa.
From stdpp Require Import base list list_numbers gmap strings.

Open Scope Z_scope.

(** ** Python values *)

Inductive exn :=
  | Exception (msg : string)
  | IndexError
  | ZeroDivisionError.

Inductive result (A : Type) :=
  | Return (a : A)
  | Raise (e : exn).
Arguments Return {A} a.
Arguments Raise {A} e.

(** Sequencing: an exception ends the computation. *)
#[global] Instance result_bind : MBind result := λ A B k r,
  match r with
  | Return a => k a
  | Raise e => Raise e
  end.

(** A float: a finite value, or what numpy's division by zero yields. *)
Inductive float64 :=
  | Fin (q : Q)
  | Inf
  | NaN.

(** [a / b] on Python numbers: raises on a zero divisor. *)
Definition py_div (a b : Q) : result Q :=
  if Qeq_bool b 0 then Raise ZeroDivisionError else Return (Qred (a / b)).

(** [a / b] where an operand is a numpy scalar: no exception; a zero
    divisor gives nan (0/0) or inf, with a RuntimeWarning. *)
Definition np_div (a b : Q) : float64 :=
  if Qeq_bool b 0 then (if Qeq_bool a 0 then NaN else Inf)
  else Fin (Qred (a / b)).

(** [int(q)]: truncation towards zero. *)
Definition py_int (q : Q) : Z := Z.quot (Qnum q) (Z.pos (Qden q)).

Definition Zq (n : Z) : Q := inject_Z n.

(** ** numpy on uint8 arrays *)

Module Np.

Abbreviation image := (list (list Z)).

Definition is_uint8 (a : image) : Prop :=
  Forall (Forall (λ v, 0 ≤ v < 256)) a.

(** [shape a h w]: [a] is an h-by-w array. *)
Definition shape (a : image) (h w : nat) : Prop :=
  length a = h ∧ Forall (λ row, length row = w) a.

(** The two storage encodings of a binary mask. *)
Definition enc01 (a : image) : Prop := Forall (Forall (λ v, v = 0 ∨ v = 1)) a.
Definition enc0255 (a : image) : Prop := Forall (Forall (λ v, v = 0 ∨ v = 255)) a.

Definition uint8 (v : Z) : Z := v mod 256.

(** [a.astype(np.uint8)] (also [np.copy(a)]: arrays are values here). *)
Definition astype_uint8 (a : image) : image := map (map uint8) a.

(** [np.bitwise_not] on uint8: the one's complement of the eight bits. *)
Definition bitwise_not (a : image) : image :=
  map (map (λ v, uint8 (Z.lnot v))) a.

Definition bitwise_and (a b : image) : image :=
  zip_with (zip_with Z.land) a b.

Definition bitwise_or (a b : image) : image :=
  zip_with (zip_with Z.lor) a b.

Definition flatten (a : image) : list Z := concat a.

Definition nonzero (v : Z) : bool := negb (v =? 0).

Definition count_nonzero (a : image) : Z :=
  Z.of_nat (length (filter (λ v, nonzero v = true) (flatten a))).

(** [a.size]: the number of cells. *)
Definition pixels (a : image) : Z := Z.of_nat (length (flatten a)).

Definition zeros_like (a : image) : image := map (map (λ _, 0)) a.

(** The cell in row [y] and column [x], if the array has it. *)
Definition cell (a : image) (y x : Z) : option Z :=
  if bool_decide (0 ≤ y ∧ 0 ≤ x)
  then a !! Z.to_nat y ≫= (.!! Z.to_nat x)
  else None.

(** [a[y, x]], and 0 outside the array. *)
Definition get (a : image) (y x : Z) : Z := default 0 (cell a y x).

(** A new array of the same shape, each cell computed from its position
    (x, y) and its old value. *)
Definition mapi (F : Z * Z → Z → Z) (a : image) : image :=
  imap (λ y row, imap (λ x v, F (Z.of_nat x, Z.of_nat y) v) row) a.

End Np.

(** ** scikit-learn metrics *)

Module Sk.

Definition count_where {A} (P : A → bool) (l : list A) : Z :=
  Z.of_nat (length (filter (λ x, P x = true) l)).

(** The distinct labels that occur, in the order of first occurrence
    (scikit-learn sorts them; every use below is a sum over all labels). *)
Definition unique_labels (y_true y_pred : list Z) : list Z :=
  remove_dups (y_true ++ y_pred).

Definition sumZ (l : list Z) : Z := foldr Z.add 0 l.

(** [_prf_divide]: a zero denominator gives 0 (and a warning). *)
Definition prf_divide (num den : Z) : Q :=
  if den =? 0 then 0%Q else Qred (Zq num / Zq den).

(** [precision_recall_fscore_support(y_true, y_pred, average="micro")]:
    the counts of true positives, predicted and true occurrences are
    summed over all labels before dividing. *)
Definition precision_recall_fscore_support_micro (y_true y_pred : list Z)
  : Q * Q * Q :=
  let labels := unique_labels y_true y_pred in
  let pairs := zip y_true y_pred in
  let tp_sum := sumZ (map (λ l,
      count_where (λ p : Z * Z, (p.1 =? l) && (p.2 =? l)) pairs) labels) in
  let pred_sum := sumZ (map (λ l, count_where (λ v, v =? l) y_pred) labels) in
  let true_sum := sumZ (map (λ l, count_where (λ v, v =? l) y_true) labels) in
  let precision := prf_divide tp_sum pred_sum in
  let recall := prf_divide tp_sum true_sum in
  let f_score :=
    if Qeq_bool (precision + recall) 0 then 0%Q
    else Qred (2 * precision * recall / (precision + recall)) in
  (precision, recall, f_score).

(** [accuracy_score]: the share of positions where the labels agree. *)
Definition accuracy_score (y_true y_pred : list Z) : float64 :=
  let pairs := zip y_true y_pred in
  np_div (Zq (count_where (λ p : Z * Z, p.1 =? p.2) pairs))
         (Zq (Z.of_nat (length pairs))).

(** [cohen_kappa_score(y1, y2)]: with the confusion matrix [c] over the
    labels, 1 - (sum of c off the diagonal) / (sum of the expected
    matrix off the diagonal), the expected matrix being the outer
    product of the marginals divided by the number of samples. *)
Definition cohen_kappa_score (y1 y2 : list Z) : float64 :=
  let labels := unique_labels y1 y2 in
  let pairs := zip y1 y2 in
  let n := Z.of_nat (length pairs) in
  let c i j := count_where (λ p : Z * Z, (p.1 =? i) && (p.2 =? j)) pairs in
  let off (f : Z → Z → Z) :=
    sumZ (map (λ i, sumZ (map (λ j, if i =? j then 0 else f i j) labels))
              labels) in
  let sum0 j := sumZ (map (λ i, c i j) labels) in
  let sum1 i := sumZ (map (λ j, c i j) labels) in
  let disagree := off c in
  let expected := np_div (Zq (off (λ i j, sum0 i * sum1 j))) (Zq n) in
  match expected with
  | Fin e =>
      match np_div (Zq disagree) e with
      | Fin k => Fin (Qred (1 - k))
      | _ => NaN
      end
  | _ => NaN
  end.

End Sk.

(** ** The scorer *)

(** The confusion counts of [mask_evaluation] (its local variables). *)
Record counts := {
  cP : Z;   (* real positives *)
  cN : Z;   (* real negatives *)
  cfn : Z;
  ctp : Z;
  cfp : Z;
  ctn : Z
}.

(** Lines 28-45 of [mask_evaluation], without the raise of line 34. *)
Definition confusion (mask likelihood : Np.image) : counts :=
  let likelihood := Np.astype_uint8 likelihood in
  let P := Np.count_nonzero likelihood in
  let invert_likelihood := Np.bitwise_not likelihood in
  let N := Np.count_nonzero invert_likelihood in
  let fn := Np.count_nonzero
              (Np.bitwise_and (Np.bitwise_not mask) likelihood) in
  let tp := Np.count_nonzero (Np.bitwise_and mask likelihood) in
  let fp := Np.count_nonzero
              (Np.bitwise_and mask (Np.bitwise_not likelihood)) in
  let tn := N - fp in
  {| cP := P; cN := N; cfn := fn; ctp := tp; cfp := fp; ctn := tn |}.

Definition neq0 (q : Q) : bool := negb (Qeq_bool q 0).

Definition mask_evaluation (mask likelihood : Np.image)
  : result (gmap string float64) :=
  let stats : gmap string float64 := ∅ in
  let c := confusion mask likelihood in
  if (cN c =? 0) || (cP c =? 0) then Raise (Exception "Incorrect likelihood")
  else
    FN ← py_div (Zq (cfn c)) (Zq (cP c)) ;
    let stats := <["FN" := Fin FN]> stats in
    TP ← py_div (Zq (ctp c)) (Zq (cP c)) ;
    let stats := <["TP" := Fin TP]> stats in
    FP ← py_div (Zq (cfp c)) (Zq (cN c)) ;
    let stats := <["FP" := Fin FP]> stats in
    Recall ← (if neq0 TP || neq0 FN then py_div TP (TP + FN)
              else Return 0%Q) ;
    let stats := <["Recall" := Fin Recall]> stats in
    Precision ← (if neq0 TP || neq0 FP then py_div TP (TP + FP)
                 else Return 0%Q) ;
    let stats := <["Precision" := Fin Precision]> stats in
    if neq0 Precision || neq0 Recall then
      F1 ← py_div (2 * Precision * Recall) (Precision + Recall) ;
      let stats := <["F1" := Fin F1]> stats in
      accuracy ← py_div (Zq (ctp c + ctn c)) (Zq (cP c + cN c)) ;
      let stats := <["accuracy" := Fin accuracy]> stats in
      let stats := <["cohen_kappa" :=
        Sk.cohen_kappa_score (Np.flatten (Np.astype_uint8 likelihood))
                             (Np.flatten mask)]> stats in
      Return stats
    else Return stats.

Definition mask_sklearn_evaluation (mask likelihood : Np.image)
  : gmap string float64 :=
  let y_true := Np.flatten likelihood in
  let y_pred := Np.flatten mask in
  let metrics := Sk.precision_recall_fscore_support_micro y_true y_pred in
  let Precision := metrics.1.1 in
  let Recall := metrics.1.2 in
  let stats : gmap string float64 :=
    <["accuracy" := Sk.accuracy_score y_true y_pred]>
    (<["cohen_kappa" := Sk.cohen_kappa_score y_true y_pred]>
    (<["Fbeta" := Fin metrics.2]>
    (<["Recall" := Fin Recall]>
    (<["Precision" := Fin Precision]> ∅)))) in
  <["F1" := np_div (2 * Precision * Recall) (Precision + Recall)]> stats.

(** ** Coincidence of two masks *)

Definition masks_coincidence (mask1 mask2 : Np.image) : float64 :=
  let mask1 := Np.astype_uint8 mask1 in
  let mask2 := Np.astype_uint8 mask2 in
  let res := Np.bitwise_and mask1 mask2 in
  let equals := Np.count_nonzero res in
  let n_pix1 := Np.count_nonzero mask1 in
  let n_pix2 := Np.count_nonzero mask2 in
  let max_pix := Z.min n_pix1 n_pix2 in
  np_div (Zq equals) (Zq max_pix).

(** ** OpenCV *)

Module Cv.
Import Np.

(** A point is (x, y): column first, as OpenCV writes it. *)
Abbreviation point := (Z * Z)%type.
Abbreviation contour := (list (Z * Z)).

Definition point_eqb (p q : point) : bool := (p.1 =? q.1) && (p.2 =? q.2).

Definition at_ (f : image) (p : point) : Z := get f p.2 p.1.

Definition put (f : image) (p : point) (v : Z) : image :=
  alter (<[Z.to_nat p.1 := v]>) (Z.to_nat p.2) f.

(** The cells of an array, row by row. *)
Definition coords (a : image) : list point :=
  concat (imap (λ y row, (λ x, (x, Z.of_nat y)) <$> seqZ 0 (Z.of_nat (length row))) a).

(** [cv2.threshold(src, thresh, maxval, cv2.THRESH_BINARY_INV)[1]] *)
Definition threshold_binary_inv (src : image) (thresh maxval : Z) : image :=
  map (map (λ v, if thresh <? v then 0 else maxval)) src.

(** *** Flood fill

    [cv2.floodFill(image, mask, seed, newVal)] with an all-zero mask and
    the default flags (4-connectivity, loDiff = upDiff = 0) repaints the
    4-connected component of the seed among the cells that hold the
    seed's value. *)

Definition neighbours4 (p : point) : list point :=
  [(p.1, p.2 - 1); (p.1, p.2 + 1); (p.1 - 1, p.2); (p.1 + 1, p.2)].

(** One round of growth: the cells of value [v] next to the region join it. *)
Definition grow (a : image) (v : Z) (R : gset point) : gset point :=
  R ∪ list_to_set
        (filter (λ p, at_ a p = v ∧ Exists (λ q, q ∈ R) (neighbours4 p))
                (coords a)).

Definition region (a : image) (seed : point) : gset point :=
  if bool_decide (seed ∈ coords a)
  then Nat.iter (length (coords a)) (grow a (at_ a seed)) {[seed]}
  else ∅.

Definition paint (a : image) (R : gset point) (v : Z) : image :=
  mapi (λ p old, if bool_decide (p ∈ R) then v else old) a.

Definition floodFill (a : image) (seed : point) (newVal : Z) : image :=
  paint a (region a seed) newVal.

(** *** Border following

    [cv2.findContours]: the raster scan and border following of
    Suzuki and Abe (1985), as in OpenCV's [icvFetchContour].  The chain
    codes are 0 = east, then counter-clockwise on the screen: 1 = north
    east, 2 = north, ..., 7 = south east (y grows downwards). *)

Definition deltas (s : Z) : Z * Z :=
  match s mod 8 with
  | 0 => (1, 0)
  | 1 => (1, -1)
  | 2 => (0, -1)
  | 3 => (-1, -1)
  | 4 => (-1, 0)
  | 5 => (-1, 1)
  | 6 => (0, 1)
  | _ => (1, 1)
  end.

Definition step_to (p : point) (s : Z) : point :=
  (p.1 + (deltas s).1, p.2 + (deltas s).2).

(** The first non-zero neighbour of [p] after direction [s], clockwise;
    [n] directions are tried. *)
Fixpoint search_cw (f : image) (p : point) (s : Z) (n : nat) : option Z :=
  match n with
  | O => None
  | S n' =>
      let s' := (s - 1) mod 8 in
      if nonzero (at_ f (step_to p s')) then Some s'
      else search_cw f p s' n'
  end.

(** The first non-zero neighbour of [p] after direction [s],
    counter-clockwise; the code found is not reduced modulo 8. *)
Fixpoint search_ccw (f : image) (p : point) (s : Z) (n : nat) : Z :=
  match n with
  | O => s
  | S n' =>
      let s' := s + 1 in
      if nonzero (at_ f (step_to p s')) then s'
      else search_ccw f p s' n'
  end.

(** The loop of the border following.  [i3] is the current cell, [s]
    the direction it was entered from; each visited cell is recorded
    with the flag "the direction changes here". *)
Fixpoint follow (fuel : nat) (f : image) (nbd : Z) (i0 i1 i3 : point)
    (s prev_s : Z) (acc : list (point * bool)) : image * list (point * bool) :=
  match fuel with
  | O => (f, acc)
  | S fuel' =>
      let s_end := s in
      let s4 := search_ccw f i3 s 8 in
      let i4 := step_to i3 s4 in
      let s := s4 mod 8 in
      let f :=
        (* the cell to the east was examined and is zero: a right edge *)
        if (1 <=? s) && (s - 1 <? s_end) then put f i3 (- nbd)
        else if at_ f i3 =? 1 then put f i3 nbd
        else f in
      let acc := (i3, negb (s =? prev_s)) :: acc in
      if point_eqb i4 i0 && point_eqb i3 i1 then (f, acc)
      else follow fuel' f nbd i0 i1 i4 ((s + 4) mod 8) s acc
  end.

(** Follow the border that starts at [i0]. *)
Definition fetch (f : image) (nbd : Z) (i0 : point) (is_hole : bool)
  : image * list (point * bool) :=
  let s_end := if is_hole then 0 else 4 in
  match search_cw f i0 s_end 7 with
  | None => (put f i0 (- nbd), [(i0, true)])
  | Some s =>
      let '(f, acc) :=
        follow (8 * length (flatten f) + 8) f nbd i0 (step_to i0 s) i0 s
               (Z.lxor s 4) [] in
      (f, rev acc)
  end.

Record border := {
  b_id : Z;
  b_hole : bool;
  b_parent : Z;
  b_trace : list (point * bool)
}.

(** The labelled picture, the last border number, and the borders
    found, the latest first. *)
Record scanner := {
  sc_img : image;
  sc_nbd : Z;
  sc_found : list border
}.

(** The frame has number 1 and is a hole border. *)
Definition lookup_border (found : list border) (id : Z) : option border :=
  snd <$> list_find (λ b, b_id b = id) found.

Definition border_hole (found : list border) (id : Z) : bool :=
  from_option b_hole true (lookup_border found id).

Definition border_parent (found : list border) (id : Z) : Z :=
  from_option b_parent 1 (lookup_border found id).

(** The parent of a new border, from the border met last. *)
Definition parent_of (found : list border) (is_hole : bool) (lnbd : Z) : Z :=
  if Bool.eqb (border_hole found lnbd) is_hole
  then border_parent found lnbd
  else lnbd.

(** One cell of the raster scan. *)
Definition visit (st : scanner) (lnbd : Z) (p : point) : scanner * Z :=
  let f := sc_img st in
  let v := at_ f p in
  if v =? 0 then (st, lnbd)
  else
    let start :=
      if (v =? 1) && (at_ f (p.1 - 1, p.2) =? 0) then Some (false, lnbd)
      else if (1 <=? v) && (at_ f (p.1 + 1, p.2) =? 0)
           then Some (true, if 1 <? v then v else lnbd)
      else None in
    let st' :=
      match start with
      | Some (is_hole, lnbd') =>
          let nbd := sc_nbd st + 1 in
          let ft := fetch f nbd p is_hole in
          {| sc_img := ft.1;
             sc_nbd := nbd;
             sc_found :=
               {| b_id := nbd;
                  b_hole := is_hole;
                  b_parent := parent_of (sc_found st) is_hole lnbd';
                  b_trace := ft.2 |} :: sc_found st |}
      | None => st
      end in
    let v' := at_ (sc_img st') p in
    (st', if v' =? 1 then lnbd else Z.abs v').

Definition scan_row (st : scanner) (y : Z) (w : nat) : scanner :=
  (foldl (λ sl x, visit sl.1 sl.2 (x, y)) (st, 1) (seqZ 0 (Z.of_nat w))).1.

Definition rows (a : image) : list (Z * nat) :=
  imap (λ y row, (Z.of_nat y, length row)) a.

Definition scan (a : image) : scanner :=
  foldl (λ st yr, scan_row st yr.1 yr.2)
        {| sc_img := map (map (λ v, if nonzero v then 1 else 0)) a;
           sc_nbd := 1;
           sc_found := [] |}
        (rows a).

Inductive retrieval := RETR_EXTERNAL | RETR_LIST | RETR_TREE.
Inductive approximation := CHAIN_APPROX_NONE | CHAIN_APPROX_SIMPLE.

Definition is_external (b : border) : bool :=
  negb (b_hole b) && (b_parent b =? 1).

(** The borders below [parent], each followed by its own subtree; among
    brothers the one found last comes first. *)
Fixpoint preorder (fuel : nat) (found : list border) (parent : Z)
  : list border :=
  match fuel with
  | O => []
  | S n =>
      flat_map (λ b, b :: preorder n found (b_id b))
               (filter (λ b, b_parent b = parent) found)
  end.

Definition points_of (method : approximation) (b : border) : contour :=
  match method with
  | CHAIN_APPROX_NONE => fst <$> b_trace b
  | CHAIN_APPROX_SIMPLE => fst <$> filter (λ pf, pf.2 = true) (b_trace b)
  end.

(** The contours of [cv2.findContours(image, mode, method)]. *)
Definition findContours (a : image) (mode : retrieval)
    (method : approximation) : list contour :=
  let found := sc_found (scan a) in
  let chosen :=
    match mode with
    | RETR_EXTERNAL => filter (λ b, is_external b = true) found
    | RETR_LIST => found
    | RETR_TREE => preorder (S (length found)) found 1
    end in
  points_of method <$> chosen.

(** *** Contour measures *)

(** Each point with the one before it; the first follows the last. *)
Definition edges (c : contour) : list (point * point) :=
  match c with
  | [] => []
  | p :: _ => zip (List.last c p :: removelast c) c
  end.

Definition dxy (e : point * point) : Z :=
  e.1.1 * e.2.2 - e.2.1 * e.1.2.

Definition a00 (c : contour) : Z := Sk.sumZ (dxy <$> edges c).
Definition a10 (c : contour) : Z :=
  Sk.sumZ ((λ e, dxy e * (e.1.1 + e.2.1)) <$> edges c).
Definition a01 (c : contour) : Z :=
  Sk.sumZ ((λ e, dxy e * (e.1.2 + e.2.2)) <$> edges c).

(** [cv2.contourArea(c)]: half the absolute value of Green's sum. *)
Definition contourArea (c : contour) : Q := Qred (Z.abs (a00 c) # 2).

(** [cv2.moments(c)]: m00, m10 and m01 by Green's formula, with the sign
    that makes m00 positive; all zero for a contour of no area. *)
Record Moments := { m00 : Q; m10 : Q; m01 : Q }.

Definition moments (c : contour) : Moments :=
  if a00 c =? 0 then {| m00 := 0; m10 := 0; m01 := 0 |}
  else
    let sgn := Z.sgn (a00 c) in
    {| m00 := Qred (sgn * a00 c # 2);
       m10 := Qred (sgn * a10 c # 6);
       m01 := Qred (sgn * a01 c # 6) |}.

(** *** Filled polygons

    [cv2.fillPoly(img, [c], color)] and
    [cv2.drawContours(img, [c], 0, color, -1)] paint the edges of the
    polygon and the cells inside it (odd number of crossings). The edges
    of a contour found by [findContours] are horizontal, vertical or
    diagonal, so the cells of an edge are its lattice points. *)

Definition on_segment (p : point) (e : point * point) : bool :=
  let '(a, b) := e in
  ((b.1 - a.1) * (p.2 - a.2) - (b.2 - a.2) * (p.1 - a.1) =? 0)
  && (Z.min a.1 b.1 <=? p.1) && (p.1 <=? Z.max a.1 b.1)
  && (Z.min a.2 b.2 <=? p.2) && (p.2 <=? Z.max a.2 b.2).

(** The edge crosses the horizontal half-line that leaves [p] eastwards. *)
Definition crosses (p : point) (e : point * point) : bool :=
  let '(a, b) := e in
  let d := (a.1 - p.1) * (b.2 - a.2) + (p.2 - a.2) * (b.1 - a.1) in
  if (a.2 <=? p.2) && (p.2 <? b.2) then 0 <? d
  else if (b.2 <=? p.2) && (p.2 <? a.2) then d <? 0
  else false.

Definition covers (c : contour) (p : point) : bool :=
  existsb (on_segment p) (edges c)
  || Nat.odd (length (filter (λ e, crosses p e = true) (edges c))).

Definition fill (a : image) (c : contour) (color : Z) : image :=
  mapi (λ p old, if covers c p then color else old) a.

End Cv.

(** ** The geometry engine *)

Definition mask_fill_holes (mask : Np.image) : Np.image :=
  let mask := Np.bitwise_not mask in
  let im_th := Cv.threshold_binary_inv mask 1 255 in
  let im_floodfill := Cv.floodFill im_th (0, 0) 255 in
  let im_floodfill_inv := Np.bitwise_not im_floodfill in
  Np.bitwise_or im_th im_floodfill_inv.

Section BoundingCircle.

(** [cv2.minEnclosingCircle]: the centre and the radius, as floats. *)
Variable minEnclosingCircle : Cv.contour → (Q * Q) * Q.

Definition mask_bounding_circle (mask : Np.image)
  : result ((Z * Z) * Z) :=
  let th := Cv.threshold_binary_inv mask 1 255 in
  let contours := Cv.findContours th Cv.RETR_LIST Cv.CHAIN_APPROX_NONE in
  cnt ← match contours with
         | [] => Raise IndexError
         | cnt :: _ => Return cnt
         end;
  let '((x, y), radius) := minEnclosingCircle cnt in
  let center := (py_int x, py_int y) in
  let radius := py_int radius in
  Return (center, radius).

End BoundingCircle.

(** The body of the loop of [mask_delete_contour_in]. *)
Definition delete_contour (mask : Np.image) (region : Q)
    (contour : Cv.contour) : result Np.image :=
  let area := Cv.contourArea contour in
  if Qlt_le_dec 100 area then
    let M := Cv.moments contour in
    qx ← py_div (Cv.m10 M) (Cv.m00 M);
    let cx := py_int qx in
    qy ← py_div (Cv.m01 M) (Cv.m00 M);
    let cy := py_int qy in
    if Qlt_le_dec (Zq cy) region
    then Return (Cv.fill mask contour 0)
    else Return mask
  else Return mask.

Fixpoint delete_contours (mask : Np.image) (region : Q)
    (contours : list Cv.contour) : result Np.image :=
  match contours with
  | [] => Return mask
  | contour :: rest =>
      mask ← delete_contour mask region contour;
      delete_contours mask region rest
  end.

Definition mask_delete_contour_in (mask : Np.image) (region : Q)
  : result Np.image :=
  let mask := Np.astype_uint8 mask in
  let contours := Cv.findContours mask Cv.RETR_TREE Cv.CHAIN_APPROX_SIMPLE in
  delete_contours mask region contours.

(** [max(contours, key=cv2.contourArea)]: the first contour of greatest
    area. *)
Definition max_by_area (c0 : Cv.contour) (cs : list Cv.contour) : Cv.contour :=
  foldl (λ best c,
           if Qlt_le_dec (Cv.contourArea best) (Cv.contourArea c)
           then c else best) c0 cs.

(** [f_m_binary]: the mask as uint8 with every non-zero cell set to 255. *)
Definition f_m_binary (mask : Np.image) : Np.image :=
  map (map (λ v, if Np.nonzero v then 255 else v)) (Np.astype_uint8 mask).

Definition mask_biggest_connected_component (mask : Np.image) : Np.image :=
  let contours :=
    Cv.findContours (f_m_binary mask) Cv.RETR_EXTERNAL Cv.CHAIN_APPROX_NONE in
  match contours with
  | [] => mask
  | c0 :: cs =>
      let biggest_cnt := max_by_area c0 cs in
      let mask := Np.zeros_like (f_m_binary mask) in
      Cv.fill mask biggest_cnt 1
  end.

(** ** Arrays as objects

    Python names hold references; the functions above are the values
    computed.  For the one claim about what a call leaves untouched,
    [mask_fill_holes] is also given statement by statement on a store of
    arrays. *)

Module Heap.

(** The store of arrays: Python names hold references into it. *)
Abbreviation heap := (gmap nat Np.image).

(** A new array object. *)
Definition alloc (a : Np.image) (h : heap) : heap * nat :=
  let l := fresh (dom h) in (<[l := a]> h, l).

Definition deref (h : heap) (l : nat) : Np.image := default [] (h !! l).

End Heap.

(** [mask_fill_holes] statement by statement, on references. Every numpy
    and OpenCV call allocates its result, except [cv2.floodFill], which
    writes into the picture and into the operation mask it is given. *)
Definition mask_fill_holes_obj (mask : nat) (h : Heap.heap) : Heap.heap * nat :=
  let '(h, copy) := Heap.alloc (Heap.deref h mask) h in
  let '(h, mask) := Heap.alloc (Np.bitwise_not (Heap.deref h copy)) h in
  let '(h, im_th) :=
    Heap.alloc (Cv.threshold_binary_inv (Heap.deref h mask) 1 255) h in
  let '(h, im_floodfill) := Heap.alloc (Heap.deref h im_th) h in
  let rows := length (Heap.deref h im_th) in
  let cols := length (default [] (head (Heap.deref h im_th))) in
  let '(h, mask) :=
    Heap.alloc (replicate (rows + 2) (replicate (cols + 2) 0)) h in
  let R := Cv.region (Heap.deref h im_floodfill) (0, 0) in
  let h :=
    <[im_floodfill := Cv.paint (Heap.deref h im_floodfill) R 255]>
      (<[mask := Np.mapi (λ p old,
                   if bool_decide ((p.1 - 1, p.2 - 1) ∈ R) then 1 else old)
                 (Heap.deref h mask)]> h) in
  let '(h, im_floodfill_inv) :=
    Heap.alloc (Np.bitwise_not (Heap.deref h im_floodfill)) h in
  Heap.alloc (Np.bitwise_or (Heap.deref h im_th)
                            (Heap.deref h im_floodfill_inv)) h.

(** ** Boolean arrays

    [np.bool] is the alias of Python's [bool] that numpy kept up to
    version 1.23, the numpy of the OpenCV 3 that [masks.py] is written
    for. *)

Module Npb.

(** [a.astype(np.bool)] and [np.asarray(a, dtype=np.bool)]: a cell is True
    when it is non-zero. *)
Definition astype_bool (a : Np.image) : list (list bool) :=
  map (map Np.nonzero) a.

(** [np.bitwise_and] on two boolean arrays of one shape. *)
Definition bitwise_and (a b : list (list bool)) : list (list bool) :=
  zip_with (zip_with andb) a b.

Definition logical_not (a : list (list bool)) : list (list bool) :=
  map (map negb) a.

(** [np.count_nonzero] on a boolean array: the number of True cells. *)
Definition count_nonzero (a : list (list bool)) : Z :=
  Z.of_nat (length (filter (λ b, b = true) (concat a))).

(** [np.equal(a, b)] on two arrays of one shape. *)
Definition equal (a b : Np.image) : list (list bool) :=
  zip_with (zip_with Z.eqb) a b.

(** [a[sel] = v]: the cells of [a] picked by the boolean array [sel], of
    the shape of the first two axes of [a], are set to [v]. *)
Definition assign {A} (a : list (list A)) (sel : list (list bool)) (v : A)
  : list (list A) :=
  zip_with (zip_with (λ old (s : bool), if s then v else old)) a sel.

End Npb.

(** ** One mask onto the other *)

(** *** Python floats

    A Python float is an IEEE 754 binary64 number.  [n_pix * perc] converts
    the count to a float and multiplies two floats: the exact product is
    rounded to the nearest float, a tie going to the even mantissa. *)

Module F64.

(** A finite float: [mant * 2 ^ expo]. *)
Record double := Double { mant : Z; expo : Z }.

Definition is_double (d : double) : Prop :=
  Z.abs (mant d) < 2 ^ 53 ∧ -1074 ≤ expo d ≤ 971.

Definition value (d : double) : Q := Zq (mant d) * 2 ^ expo d.

(** The result of an operation: a finite float [m * 2 ^ e], an infinity,
    or not a number. *)
Inductive xfloat :=
  | XFin (m e : Z)
  | XInf (negative : bool)
  | XNaN.

(** The integer nearest to [M / 2 ^ s], for [s] > 0; of two nearest ones
    the even one. *)
Definition nearest_even (M s : Z) : Z :=
  let q := M / 2 ^ s in
  let r := M mod 2 ^ s in
  let half := 2 ^ (s - 1) in
  if r <? half then q
  else if half <? r then q + 1
  else if Z.even q then q else q + 1.

(** The float nearest to [M * 2 ^ e], for [M] > 0.  The last place of a
    number in [2 ^ k, 2 ^ (k + 1)) is [2 ^ (k - 52)], and not below the
    least subnormal [2 ^ -1074]; from [2 ^ 1024] on the result is
    infinite. *)
Definition round_pos (M e : Z) : xfloat :=
  let k := Z.log2 M + e in
  let e' := Z.max (k - 52) (-1074) in
  let s := e' - e in
  let m' := if s <=? 0 then M * 2 ^ (- s) else nearest_even M s in
  if (971 <? e') || ((e' =? 971) && (2 ^ 53 <=? m')) then XInf false
  else XFin m' e'.

Definition neg (x : xfloat) : xfloat :=
  match x with
  | XFin m e => XFin (- m) e
  | XInf s => XInf (negb s)
  | XNaN => XNaN
  end.

(** The float nearest to [M * 2 ^ e]. *)
Definition round (M e : Z) : xfloat :=
  if M =? 0 then XFin 0 0
  else if 0 <? M then round_pos M e
  else neg (round_pos (- M) e).

(** [float(n)] for a Python int [n]: an int below [2 ^ 53] is a float as
    it stands, a larger one is rounded.  From [2 ^ 1024] on Python raises
    OverflowError where this gives an infinity; the number of cells of an
    array, an [intp], is below [2 ^ 63]. *)
Definition of_int (n : Z) : xfloat :=
  if Z.abs n <? 2 ^ 53 then XFin n 0 else round n 0.

(** [x * d] for a finite float [d]: the exact product, rounded. *)
Definition mul (x : xfloat) (d : double) : xfloat :=
  match x with
  | XFin m e =>
      round (m * mant d * 2 ^ Z.max (e + expo d) 0) (Z.min (e + expo d) 0)
  | XInf s => if mant d =? 0 then XNaN else XInf (xorb s (mant d <? 0))
  | XNaN => XNaN
  end.

(** [n * d] for a Python int [n] and a finite float [d]: the int is
    converted to a float first. *)
Definition int_mul (n : Z) (d : double) : xfloat :=
  mul (of_int n) d.

(** [n > x] for a Python int [n] and a float [x]: the comparison of the
    exact values, False against not-a-number. *)
Definition int_gt (n : Z) (x : xfloat) : bool :=
  match x with
  | XInf negative => negative
  | XFin m e => if 0 <=? e then m * 2 ^ e <? n else m <? n * 2 ^ (- e)
  | XNaN => false
  end.

End F64.

(** [perc] is a finite float. *)
Definition mask_onto_mask (mask1 mask2 : Np.image) (perc : F64.double) : bool :=
  let res := Npb.bitwise_and (Npb.astype_bool mask1) (Npb.astype_bool mask2) in
  let equals := Npb.count_nonzero res in
  let n_pix1 := Np.count_nonzero mask1 in
  let n_pix2 := Np.count_nonzero mask2 in
  F64.int_gt equals (F64.int_mul n_pix1 perc)
  || F64.int_gt equals (F64.int_mul n_pix2 perc).

(** The default of the parameter [perc]: the float [0.9],
    0x1.ccccccccccccdp-1. *)
Definition perc_default : F64.double := F64.Double 8106479329266893 (-53).

(** ** Masks as black-and-white pictures *)

(** A pixel of a three-channel uint8 picture. *)
Abbreviation pixel := (Z * Z * Z)%type.

Definition mask_2RGB (mask : Np.image) : list (list pixel) :=
  let img_result := Np.astype_uint8 mask in
  let mask := Np.zeros_like img_result in
  let res := map (map (λ _ : Z, (0, 0, 0))) img_result in
  Npb.assign res (Npb.equal img_result mask) (255, 255, 255).

Section FromFile.

(** [cv2.cvtColor(img, cv2.COLOR_RGBA2GRAY)] on one pixel of the
    three-channel picture that [cv2.imread] returns: the luminance of the
    pixel. *)
Variable cvtColor_gray : pixel → Z.

(** The files: a path that exists holds the picture that [cv2.imread]
    decodes from it, or [None] when [cv2.imread] cannot read a picture
    from it and returns [None]; [cv2.cvtColor] then raises [cv2.error]
    (its message is OpenCV's and is not modelled).  The result [None] is
    Python's. *)
Definition mask_from_RGB_file
    (files : gmap string (option (list (list pixel)))) (file_mask : string)
  : result (option Np.image) :=
  match files !! file_mask with
  | None => Return None
  | Some None => Raise (Exception "cv2.error")
  | Some (Some img) =>
      let mask := Np.astype_uint8 (map (map cvtColor_gray) img) in
      let img_bool := Npb.astype_bool mask in
      let mask := Npb.assign mask (Npb.logical_not img_bool) 1 in
      let mask := Npb.assign mask img_bool 0 in
      Return (Some mask)
  end.

End FromFile.

(** ** Circular masks *)

Section CircularMask.

(** [disk center radius p]: the cell [p] belongs to the filled circle that
    [cv2.circle(img, center, radius, color, -1)] paints.  OpenCV's
    rasterisation of the circle is not modelled: every statement below
    holds for whatever cells it paints. *)
Variable disk : Z * Z → Z → Z * Z → bool.

(** [cv2.circle(img, center, radius, color, -1)]; a negative radius fails
    an assertion of OpenCV ([cv2.error]). *)
Definition cv_circle {A} (img : list (list A)) (center : Z * Z) (radius : Z)
    (color : A) : result (list (list A)) :=
  if radius <? 0 then Raise (Exception "cv2.error")
  else Return (imap (λ y row,
                 imap (λ x old,
                   if disk center radius (Z.of_nat x, Z.of_nat y)
                   then color else old) row) img).

(** [image & mask] on two three-channel arrays of one shape. *)
Definition and_pixels (image mask : list (list pixel)) : list (list pixel) :=
  zip_with (zip_with (λ p m : pixel,
    (Z.land p.1.1 m.1.1, Z.land p.1.2 m.1.2, Z.land p.2 m.2))) image mask.

Definition mask_build_circular (image : list (list pixel)) (circle : Z * Z * Z)
  : result (list (list pixel)) :=
  let center := (circle.1.1, circle.1.2) in
  let radius := circle.2 in
  let mask := map (map (λ _ : pixel, (0, 0, 0))) image in
  mask ← cv_circle mask center radius (255, 255, 255);
  let image_masked := and_pixels image mask in
  Return image_masked.

Definition mask_build_circular_boolean {A} (image : list (list A))
    (circle : Z * Z * Z) : result (list (list bool)) :=
  let center := (circle.1.1, circle.1.2) in
  let radius := circle.2 in
  let mask := map (map (λ _ : A, 0)) image in
  mask ← cv_circle mask center radius 255;
  Return (Npb.astype_bool mask).

End CircularMask.

(* ================================================================== *)
(** * Vocabulary of the statements *)

Import Np Cv.

(** A non-zero cell. *)
Definition lit (f : image) (p : point) : bool := nonzero (at_ f p).

(** The state of the border following: the current cell and the direction
    it was entered from. *)
Definition next_state (f : image) (x : point * Z) : point * Z :=
  let s4 := search_ccw f x.1 x.2 8 in
  (step_to x.1 s4, (s4 mod 8 + 4) mod 8).

(** The test that ends the loop of [follow]. *)
Definition exits (f : image) (i0 i1 : point) (x : point * Z) : bool :=
  point_eqb (step_to x.1 (search_ccw f x.1 x.2 8)) i0 && point_eqb x.1 i1.

Definition valid_state (f : image) (x : point * Z) : Prop :=
  lit f x.1 = true ∧ lit f (step_to x.1 x.2) = true ∧ 0 ≤ x.2 < 8.

(** A closed, decidable side condition, settled by evaluation. *)
Ltac by_compute :=
  unfold Np.shape, Np.is_uint8, Np.enc01, Np.enc0255;
  apply (bool_decide_unpack _); vm_compute; exact I.

Definition nz (v : Z) : Z := if v =? 0 then 0 else 1.

Definition cnt (l : list Z) : Z :=
  Z.of_nat (length (filter (λ v, nonzero v = true) l)).

Definition is_raise {A} (r : result A) : bool :=
  match r with Raise _ => true | Return _ => false end.

(** The report of a call that returned. *)
Definition report_of (r : result (gmap string float64)) : gmap string float64 :=
  match r with Return stats => stats | Raise _ => ∅ end.

(** A cell of a binary mask holds 0, or 1 or 255 for "selected". *)
Definition binary (a : image) : Prop :=
  Forall (Forall (λ v, v = 0 ∨ v = 1 ∨ v = 255)) a.

(** The number of cells selected in both masks. *)
Definition both_selected (a b : image) : Z :=
  cnt (zip_with (λ x y, if nonzero x && nonzero y then 1 else 0)
                (flatten a) (flatten b)).

(** The region after [k] rounds of growth. *)
Definition stage (a : image) (v : Z) (seed : point) (k : nat) : gset point :=
  Nat.iter k (grow a v) {[seed]}.

(** [conn4 a seed p]: [p] is reached from [seed] by steps to one of the four
    neighbours, through cells that hold the value of the seed. *)
Inductive conn4 (a : image) (seed : point) : point → Prop :=
  | conn4_seed : seed ∈ coords a → conn4 a seed seed
  | conn4_step p q :
      conn4 a seed p → q ∈ neighbours4 p → q ∈ coords a →
      at_ a q = at_ a seed → conn4 a seed q.

(** The binarisation at the head of [mask_fill_holes]: complement, then
    inverted threshold at 1.  A cell becomes 255 when it holds 254 or 255. *)
Definition th (v : Z) : Z := if 1 <? uint8 (Z.lnot v) then 0 else 255.

(** The rest of [mask_fill_holes]: what the flood from the corner does
    not reach becomes 255. *)
Definition keep_reached (a : image) : image :=
  mapi (λ p v, if bool_decide (p ∈ region a (0, 0)) then v else 255) a.

Definition two_valued (a : image) : Prop :=
  ∀ y x v, cell a y x = Some v → v = 0 ∨ v = 255.

(** A cell of the first or last row or column. *)
Definition on_border (m : Np.image) (q : Z * Z) : Prop :=
  q.1 = 0 ∨ q.2 = 0 ∨ q.2 = Z.of_nat (length m) - 1
  ∨ ∃ row, m !! Z.to_nat q.2 = Some row ∧ q.1 = Z.of_nat (length row) - 1.

(** [p] is 4-connected to a border cell through cells of one value. *)
Definition reaches_border (m : Np.image) (p : Z * Z) : Prop :=
  ∃ q, on_border m q ∧ conn4 m q p.

Definition bin (a : image) : image :=
  map (map (λ v, if nonzero v then 1 else 0)) a.

Definition pristine (a : image) : scanner :=
  {| sc_img := bin a; sc_nbd := 1; sc_found := [] |}.

Definition has_external (st : scanner) : Prop :=
  Exists (λ b, is_external b = true) (sc_found st).

Definition visit_all (y : Z) (sl : scanner * Z) (xs : list Z) : scanner * Z :=
  foldl (λ sl x, visit sl.1 sl.2 (x, y)) sl xs.

Definition all_zero (a : image) : Prop := Forall (Forall (λ v, v = 0)) a.

Definition starts_in (a : image) (b : border) : Prop :=
  ∃ p fl rest, b_trace b = (p, fl) :: rest ∧ p ∈ coords a.

(** The y coordinate [cy] of the loop: [int(M['m01'] / M['m00'])]. *)
Definition centroid_y (c : contour) : Z :=
  py_int (Qred (m01 (moments c) / m00 (moments c))).

(** The test of the loop: the contour is filled with zeros. *)
Definition pruned (region : Q) (c : contour) : bool :=
  if Qlt_le_dec 100 (contourArea c)
  then (if Qlt_le_dec (Zq (centroid_y c)) region then true else false)
  else false.

(** A square ring, one cell thick, from (2, 2) to (14, 14), and a single
    selected cell at (8, 8) inside it. *)
Definition ring_with_island : image :=
  mapi (λ p _,
      let '(x, y) := p in
      if ((x =? 2) || (x =? 14)) && (2 <=? y) && (y <=? 14) then 255
      else if ((y =? 2) || (y =? 14)) && (2 <=? x) && (x <=? 14) then 255
      else if (x =? 8) && (y =? 8) then 255
      else 0)
    (replicate 16 (replicate 16 0)).

(** The two masks are stored in one encoding. *)
Definition same_encoding (a b : image) : Prop :=
  enc01 a ∧ enc01 b ∨ enc0255 a ∧ enc0255 b.

(** [a / (a + b)] guarded as lines 51-59 of [mask_evaluation] guard it. *)
Definition share (a b : Q) : Q :=
  if neq0 a || neq0 b then Qred (a / (a + b)) else 0%Q.

(** The report of [mask_evaluation] from its counts. *)
Definition report (c : counts) (kappa : float64) : gmap string float64 :=
  let FN := Qred (Zq (cfn c) / Zq (cP c)) in
  let TP := Qred (Zq (ctp c) / Zq (cP c)) in
  let FP := Qred (Zq (cfp c) / Zq (cN c)) in
  let Recall := share TP FN in
  let Precision := share TP FP in
  let stats : gmap string float64 :=
    <["Precision" := Fin Precision]>
    (<["Recall" := Fin Recall]>
    (<["FP" := Fin FP]>
    (<["TP" := Fin TP]>
    (<["FN" := Fin FN]> ∅)))) in
  if neq0 Precision || neq0 Recall then
    <["cohen_kappa" := kappa]>
    (<["accuracy" := Fin (Qred (Zq (ctp c + ctn c) / Zq (cP c + cN c)))]>
    (<["F1" := Fin (Qred (2 * Precision * Recall / (Precision + Recall)))]>
     stats))
  else stats.

(** Infinity, the result of dividing a non-zero numpy number by zero. *)
Definition is_inf (f : float64) : bool :=
  match f with Inf => true | _ => false end.


(** Cell by cell, what the first mask selects the second selects too. *)
Definition inside (a b : image) : Prop :=
  Forall2 (Forall2 (λ x y : Z, x ≠ 0 → y ≠ 0)) a b.

Definition white : pixel := (255, 255, 255).
Definition black : pixel := (0, 0, 0).

(** The pixel that [mask_2RGB] paints for a cell. *)
Definition shade (v : Z) : pixel := if uint8 v =? 0 then white else black.

(** A new array of the shape of [a], each cell computed from its position
    (x, y) and the old cell. *)
Definition mapi2 {A B} (F : Z * Z → A → B) (a : list (list A))
  : list (list B) :=
  imap (λ y row, imap (λ x v, F (Z.of_nat x, Z.of_nat y) v) row) a.

(** [p & 255], channel by channel. *)
Definition low8 (p : pixel) : pixel :=
  (p.1.1 mod 256, p.1.2 mod 256, p.2 mod 256).

(** The luminance of a pixel as OpenCV's documentation gives it,
    rounded to the nearest integer. *)
Definition luminance (p : pixel) : Z :=
  (299 * p.1.1 + 587 * p.1.2 + 114 * p.2 + 500) / 1000.

(** The cells at Euclidean distance at most the radius from the centre. *)
Definition euclidean_disk (center : Z * Z) (radius : Z) (p : Z * Z) : bool :=
  (p.1 - center.1) ^ 2 + (p.2 - center.2) ^ 2 <=? radius ^ 2.

(** The two masks have one shape and select the same cells. *)
Definition same_selection (a b : image) : Prop :=
  Forall2 (Forall2 (λ x y, uint8 x = 0 ↔ uint8 y = 0)) a b.

(** A stand-in for [cv2.minEnclosingCircle] in the runs below: the circle
    of radius 0 at the first point of the contour. *)
Definition first_point_circle (c : contour) : (Q * Q) * Q :=
  match c with
  | p :: _ => ((Zq p.1, Zq p.2), 0%Q)
  | [] => ((0%Q, 0%Q), 0%Q)
  end.

(** The float [0.7], 0x1.6666666666666p-1. *)
Definition float_0_7 : F64.double := F64.Double 6305039478318694 (-53).

(* ================================================================== *)
(** * Properties *)


(** ** Counting cells *)

Section Counting.

Lemma cnt_nil : cnt [] = 0.
Proof. reflexivity. Qed.

Lemma cnt_cons v l : cnt (v :: l) = nz v + cnt l.
Proof.
  unfold cnt, nz. rewrite filter_cons. unfold nonzero at 1.
  destruct (Z.eqb_spec v 0) as [->|Hv]; case_decide as H; simpl in H;
    try done; simpl length; lia.
Qed.

Lemma cnt_bounds l : 0 ≤ cnt l ≤ Z.of_nat (length l).
Proof.
  induction l as [|v l IH]; [rewrite cnt_nil; simpl; lia|].
  rewrite cnt_cons. unfold nz. simpl length. destruct (v =? 0); lia.
Qed.

Lemma count_nonzero_cnt a : count_nonzero a = cnt (flatten a).
Proof. reflexivity. Qed.

Lemma cnt_zero_iff l : cnt l = 0 ↔ Forall (λ v, v = 0) l.
Proof.
  induction l as [|v l IH]; [by rewrite cnt_nil|].
  rewrite cnt_cons, Forall_cons. pose proof (cnt_bounds l) as Hb. unfold nz.
  destruct (Z.eqb_spec v 0) as [Hv|Hv]; split.
  - intros H. split; [done|]. apply IH. lia.
  - intros [_ H]. apply IH in H. lia.
  - intros H. lia.
  - intros [H _]. done.
Qed.

(** Two arrays of one shape flatten to lists of one length, and a
    cell-wise operation commutes with flattening. *)
Lemma shape_rows a b h w :
  shape a h w → shape b h w → Forall2 (λ r s, length r = length s) a b.
Proof.
  intros [Ha Hra] [Hb Hrb]. subst h.
  revert b Hb Hrb. induction a as [|r a IH]; intros [|s b] Hb Hrb;
    try discriminate; [constructor|].
  apply Forall_cons in Hra as [Hr Hra]. apply Forall_cons in Hrb as [Hs Hrb].
  constructor; [congruence|]. apply IH; auto.
Qed.

Lemma flatten_zip_with f a b :
  Forall2 (λ r s, length r = length s) a b →
  flatten (zip_with (zip_with f) a b) = zip_with f (flatten a) (flatten b).
Proof.
  unfold flatten. induction 1 as [|r s a b Hrs _ IH]; [done|].
  simpl. rewrite IH. clear IH.
  revert s Hrs. induction r as [|x r IHr]; intros [|y s] Hrs;
    try discriminate; simpl; [done|].
  f_equal. apply IHr. simpl in Hrs. lia.
Qed.

Lemma flatten_length a b :
  Forall2 (λ r s, length r = length s) a b →
  length (flatten a) = length (flatten b).
Proof.
  unfold flatten. induction 1 as [|r s a b Hrs _ IH]; [done|].
  simpl. rewrite !length_app. lia.
Qed.

Lemma flatten_map f a : flatten (map (map f) a) = map f (flatten a).
Proof.
  unfold flatten. induction a as [|r a IH]; [done|].
  simpl. by rewrite IH, map_app.
Qed.

Lemma flatten_Forall (P : Z → Prop) a :
  Forall (Forall P) a ↔ Forall P (flatten a).
Proof.
  unfold flatten. induction a as [|r a IH]; simpl.
  - split; constructor.
  - rewrite Forall_cons, Forall_app. tauto.
Qed.

(** The counting principle behind the confusion matrix: when, cell by
    cell, [f] and [g] split the non-zero cells of the second array, the
    two counts add up. *)
Lemma cnt_split (f g : Z → Z → Z) (V1 V2 : Z → Prop) l1 l2 :
  length l1 = length l2 →
  Forall V1 l1 → Forall V2 l2 →
  (∀ x y, V1 x → V2 y → nz (f x y) + nz (g x y) = nz y) →
  cnt (zip_with f l1 l2) + cnt (zip_with g l1 l2) = cnt l2.
Proof.
  intros Hlen H1 H2 Hfg. revert l2 Hlen H2.
  induction H1 as [|x l1 Hx _ IH]; intros [|y l2] Hlen H2;
    try discriminate; [done|].
  apply Forall_cons in H2 as [Hy H2]. simpl.
  rewrite !cnt_cons. simpl in Hlen.
  assert (IH' := IH l2 ltac:(lia) H2).
  specialize (Hfg x y Hx Hy). lia.
Qed.

Lemma cnt_map_split (f : Z → Z) (V : Z → Prop) l :
  Forall V l →
  (∀ x, V x → nz (f x) + nz x = 1) →
  cnt (map f l) + cnt l = Z.of_nat (length l).
Proof.
  intros HV Hf. induction HV as [|x l Hx _ IH]; [done|].
  simpl map. rewrite !cnt_cons. simpl length. specialize (Hf x Hx).
  rewrite Nat2Z.inj_succ. lia.
Qed.

Lemma cnt_pointwise (f : Z → Z) (V : Z → Prop) l :
  Forall V l → (∀ x, V x → nz (f x) = nz x) → cnt (map f l) = cnt l.
Proof.
  intros HV Hf. induction HV as [|x l Hx _ IH]; [done|].
  simpl map. rewrite !cnt_cons. rewrite Hf by done. lia.
Qed.

Lemma cnt_zip_le (f : Z → Z → Z) (V1 V2 : Z → Prop) l1 l2 :
  Forall V1 l1 → Forall V2 l2 →
  (∀ x y, V1 x → V2 y → nz (f x y) ≤ nz x) →
  cnt (zip_with f l1 l2) ≤ cnt l1.
Proof.
  intros H1. revert l2. induction H1 as [|x l1 Hx _ IH]; intros [|y l2] H2 Hf;
    simpl; rewrite ?cnt_cons, ?cnt_nil; try lia.
  - pose proof (cnt_bounds l1). unfold nz. destruct (x =? 0); lia.
  - apply Forall_cons in H2 as [Hy H2]. specialize (IH l2 H2 Hf).
    specialize (Hf x y Hx Hy). lia.
Qed.

Lemma astype_uint8_id a : is_uint8 a → astype_uint8 a = a.
Proof.
  unfold astype_uint8, is_uint8. induction 1 as [|r a Hr _ IH]; [done|].
  simpl. rewrite IH. f_equal.
  induction Hr as [|v r Hv _ IHr]; [done|].
  simpl. rewrite IHr. unfold uint8. by rewrite Z.mod_small.
Qed.

Lemma enc0255_uint8 a : enc0255 a → is_uint8 a.
Proof.
  unfold enc0255, is_uint8. intros H.
  eapply Forall_impl; [exact H|]. intros r Hr. simpl in Hr.
  eapply Forall_impl; [exact Hr|]. simpl. lia.
Qed.

Lemma enc01_uint8 a : enc01 a → is_uint8 a.
Proof.
  unfold enc01, is_uint8. intros H.
  eapply Forall_impl; [exact H|]. intros r Hr. simpl in Hr.
  eapply Forall_impl; [exact Hr|]. simpl. lia.
Qed.

End Counting.

(** ** The scorer *)

Section Scorer.

Lemma lnot_0255 x : x = 0 ∨ x = 255 → nz (uint8 (Z.lnot x)) + nz x = 1.
Proof. intros [->| ->]; reflexivity. Qed.

Lemma and_split_0255 x y :
  x = 0 ∨ x = 255 → y = 0 ∨ y = 255 →
  nz (Z.land x y) + nz (Z.land (uint8 (Z.lnot x)) y) = nz y.
Proof. intros [->| ->] [->| ->]; reflexivity. Qed.

Lemma and_split_01 x y :
  x = 0 ∨ x = 1 → y = 0 ∨ y = 1 →
  nz (Z.land x y) + nz (Z.land (uint8 (Z.lnot x)) y) = nz y.
Proof. intros [->| ->] [->| ->]; reflexivity. Qed.

Lemma flatten_and_not a b :
  Forall2 (λ r s, length r = length s) a b →
  flatten (bitwise_and (bitwise_not a) b)
  = zip_with (λ x y, Z.land (uint8 (Z.lnot x)) y) (flatten a) (flatten b).
Proof.
  intros Hab. unfold bitwise_and, bitwise_not.
  rewrite flatten_zip_with, flatten_map.
  - by rewrite zip_with_fmap_l.
  - clear -Hab. induction Hab; simpl; constructor; auto.
    by rewrite length_map.
Qed.

(** In the 0/255 encoding the counts of [mask_evaluation] are the
    confusion counts: P is the number of selected cells of the reference,
    N the number of the others, and the candidate splits each class. *)
Lemma confusion_0255 mask likelihood h w :
  shape mask h w → shape likelihood h w →
  enc0255 mask → enc0255 likelihood →
  let c := confusion mask likelihood in
  cP c = count_nonzero likelihood
  ∧ cN c = pixels likelihood - cP c
  ∧ ctp c + cfn c = cP c
  ∧ cfp c + ctn c = cN c.
Proof.
  intros Hm Hl Em El. unfold confusion. simpl.
  rewrite (astype_uint8_id likelihood) by by apply enc0255_uint8.
  pose proof (shape_rows _ _ _ _ Hm Hl) as Hml.
  apply flatten_Forall in Em, El.
  split; [done|]. split; [|split; [|lia]].
  - unfold bitwise_not. rewrite !count_nonzero_cnt, flatten_map.
    unfold pixels. pose proof (cnt_map_split _ _ _ El lnot_0255). lia.
  - rewrite !count_nonzero_cnt, flatten_and_not by done.
    unfold bitwise_and. rewrite flatten_zip_with by done.
    apply (cnt_split _ _ _ _ _ _ (flatten_length _ _ Hml) Em El).
    intros x y Hx Hy. by apply and_split_0255.
Qed.

(** In the 0/1 encoding the complement of every cell is non-zero
    (254 or 255), so N is the number of all cells. *)
Lemma confusion_01_N mask likelihood :
  enc01 likelihood → cN (confusion mask likelihood) = pixels likelihood.
Proof.
  intros El. unfold confusion. simpl.
  rewrite (astype_uint8_id likelihood) by by apply enc01_uint8.
  apply flatten_Forall in El.
  unfold bitwise_not, pixels. rewrite count_nonzero_cnt, flatten_map.
  induction El as [|x l Hx _ IH]; [done|].
  simpl map. rewrite cnt_cons, IH. simpl length.
  destruct Hx as [->| ->]; unfold nz; simpl; lia.
Qed.

(** The counts on a concrete 0/255 pair. *)
Lemma confusion_0255_witness :
  let mask := [[255; 255]; [0; 0]] in
  let likelihood := [[255; 0]; [255; 0]] in
  let c := confusion mask likelihood in
  cP c = count_nonzero likelihood
  ∧ cN c = pixels likelihood - cP c
  ∧ ctp c + cfn c = cP c
  ∧ cfp c + ctn c = cN c.
Proof.
  apply (confusion_0255 [[255; 255]; [0; 0]] [[255; 0]; [255; 0]] 2 2);
    by_compute.
Defined.

Lemma confusion_01_N_witness :
  cN (confusion [[1; 1]; [0; 0]] [[1; 0]; [1; 0]]) = pixels [[1; 0]; [1; 0]].
Proof. apply confusion_01_N. by_compute. Defined.

(** *** Arithmetic of the report *)

Lemma neq0_true q : neq0 q = true ↔ ¬ (q == 0)%Q.
Proof.
  unfold neq0. rewrite negb_true_iff, <- not_true_iff_false.
  by rewrite Qeq_bool_iff.
Qed.

Lemma neq0_false q : neq0 q = false ↔ (q == 0)%Q.
Proof. unfold neq0. by rewrite negb_false_iff, Qeq_bool_iff. Qed.

Lemma py_div_Return a b q :
  py_div a b = Return q → ¬ (b == 0)%Q ∧ q = Qred (a / b).
Proof.
  unfold py_div. destruct (Qeq_bool b 0) eqn:E; [discriminate|].
  intros [= <-]. split; [|done].
  rewrite <- Qeq_bool_iff. by rewrite E.
Qed.

Lemma py_div_nonzero a b :
  ¬ (b == 0)%Q → py_div a b = Return (Qred (a / b)).
Proof.
  intros Hb. unfold py_div. destruct (Qeq_bool b 0) eqn:E; [|done].
  apply Qeq_bool_iff in E. contradiction.
Qed.

Lemma Qred_div_nonneg a b : (0 <= a)%Q → (0 < b)%Q → (0 <= Qred (a / b))%Q.
Proof.
  intros Ha Hb. rewrite Qred_correct.
  apply Qle_shift_div_l; [done|]. by rewrite Qmult_0_l.
Qed.

Lemma Zq_pos n : 0 < n → (0 < Zq n)%Q.
Proof. intros H. unfold Zq. change 0%Q with (inject_Z 0). by rewrite <- Zlt_Qlt. Qed.

Lemma Zq_nonneg n : 0 ≤ n → (0 <= Zq n)%Q.
Proof. intros H. unfold Zq. change 0%Q with (inject_Z 0). by rewrite <- Zle_Qle. Qed.

Lemma Zq_nonzero n : n ≠ 0 → ¬ (Zq n == 0)%Q.
Proof.
  intros H E. unfold Zq, Qeq in E. simpl in E. lia.
Qed.

Lemma sum_nonzero a b :
  (0 <= a)%Q → (0 <= b)%Q → neq0 a || neq0 b = true → (0 < a + b)%Q.
Proof.
  intros Ha Hb H. apply orb_true_iff in H as [H|H]; apply neq0_true in H.
  - destruct (Qle_lt_or_eq _ _ Ha) as [?|E]; [lra|].
    exfalso. apply H. by rewrite <- E.
  - destruct (Qle_lt_or_eq _ _ Hb) as [?|E]; [lra|].
    exfalso. apply H. by rewrite <- E.
Qed.

Lemma Qpos_nonzero a : (0 < a)%Q → ¬ (a == 0)%Q.
Proof. intros H E. rewrite E in H. by apply Qlt_irrefl in H. Qed.

Lemma count_nonzero_nonneg a : 0 ≤ count_nonzero a.
Proof. unfold count_nonzero. lia. Qed.

(** [mask_evaluation] raises only at line 34: past the test, no division
    has a zero divisor. *)
Lemma mask_evaluation_raises mask likelihood :
  let c := confusion mask likelihood in
  is_raise (mask_evaluation mask likelihood) = true ↔ cN c = 0 ∨ cP c = 0.
Proof.
  intros c. unfold mask_evaluation. fold c.
  assert (0 ≤ cP c ∧ 0 ≤ cN c ∧ 0 ≤ cfn c ∧ 0 ≤ ctp c ∧ 0 ≤ cfp c)
    as (HP' & HN' & Hfn & Htp & Hfp)
    by (unfold c, confusion; simpl; repeat split; apply count_nonzero_nonneg).
  clearbody c.
  destruct (Z.eqb_spec (cN c) 0) as [HN|HN]; simpl; [tauto|].
  destruct (Z.eqb_spec (cP c) 0) as [HP|HP]; simpl; [tauto|].
  split; [|tauto]. intros H. exfalso.
  revert H.
  rewrite !py_div_nonzero by (apply Zq_nonzero; lia). simpl.
  set (FN := Qred (Zq (cfn c) / Zq (cP c))).
  set (TP := Qred (Zq (ctp c) / Zq (cP c))).
  set (FP := Qred (Zq (cfp c) / Zq (cN c))).
  assert (0 <= FN)%Q by (apply Qred_div_nonneg; [by apply Zq_nonneg|apply Zq_pos; lia]).
  assert (0 <= TP)%Q by (apply Qred_div_nonneg; [by apply Zq_nonneg|apply Zq_pos; lia]).
  assert (0 <= FP)%Q by (apply Qred_div_nonneg; [by apply Zq_nonneg|apply Zq_pos; lia]).
  assert (∃ r, (if neq0 TP || neq0 FN then py_div TP (TP + FN) else Return 0%Q)
               = Return r ∧ (0 <= r)%Q) as (r & -> & Hr).
  { destruct (neq0 TP || neq0 FN) eqn:E; [|by eexists].
    pose proof (sum_nonzero _ _ H0 H E) as Hs.
    rewrite py_div_nonzero by by apply Qpos_nonzero.
    eexists; split; [done|]. by apply Qred_div_nonneg. }
  simpl.
  assert (∃ p, (if neq0 TP || neq0 FP then py_div TP (TP + FP) else Return 0%Q)
               = Return p ∧ (0 <= p)%Q) as (p & -> & Hp).
  { destruct (neq0 TP || neq0 FP) eqn:E; [|by eexists].
    pose proof (sum_nonzero _ _ H0 H1 E) as Hs.
    rewrite py_div_nonzero by by apply Qpos_nonzero.
    eexists; split; [done|]. by apply Qred_div_nonneg. }
  simpl.
  destruct (neq0 p || neq0 r) eqn:E; [|done].
  rewrite py_div_nonzero by by apply Qpos_nonzero, sum_nonzero.
  simpl. done.
Qed.



(** Whenever [mask_evaluation] returns a report, the report holds
    Precision and Recall; if they are not both zero it also holds
    F1 = 2 * Precision * Recall / (Precision + Recall),
    accuracy = (tp + tn) / (P + N) over the counts of the call, and
    Cohen's kappa of the flattened reference and candidate; if both are
    zero the keys F1, accuracy and cohen_kappa are absent. *)
Theorem report_keys mask likelihood stats :
  mask_evaluation mask likelihood = Return stats →
  let c := confusion mask likelihood in
  ∃ p r : Q,
    stats !! "Precision" = Some (Fin p)
    ∧ stats !! "Recall" = Some (Fin r)
    ∧ (¬ ((p == 0)%Q ∧ (r == 0)%Q) →
        ∃ f1 acc : Q,
          stats !! "F1" = Some (Fin f1)
          ∧ (f1 == 2 * p * r / (p + r))%Q
          ∧ stats !! "accuracy" = Some (Fin acc)
          ∧ (acc == Zq (ctp c + ctn c) / Zq (cP c + cN c))%Q
          ∧ stats !! "cohen_kappa"
            = Some (Sk.cohen_kappa_score
                      (flatten (astype_uint8 likelihood)) (flatten mask)))
    ∧ ((p == 0)%Q ∧ (r == 0)%Q →
        stats !! "F1" = None
        ∧ stats !! "accuracy" = None
        ∧ stats !! "cohen_kappa" = None).
Proof.
  intros Hret c. unfold mask_evaluation in Hret. fold c in Hret.
  clearbody c.
  destruct ((cN c =? 0) || (cP c =? 0)); [discriminate|].
  destruct (py_div (Zq (cfn c)) (Zq (cP c))) as [FN|]; [|discriminate].
  destruct (py_div (Zq (ctp c)) (Zq (cP c))) as [TP|]; [|discriminate].
  destruct (py_div (Zq (cfp c)) (Zq (cN c))) as [FP|]; [|discriminate].
  simpl in Hret.
  destruct (if neq0 TP || neq0 FN then py_div TP (TP + FN) else Return 0%Q)
    as [r|]; [|discriminate].
  simpl in Hret.
  destruct (if neq0 TP || neq0 FP then py_div TP (TP + FP) else Return 0%Q)
    as [p|]; [|discriminate].
  simpl in Hret. exists p, r.
  destruct (neq0 p || neq0 r) eqn:Epr.
  - destruct (py_div (2 * p * r) (p + r)) as [f1|] eqn:Ef; [|discriminate].
    simpl in Hret.
    destruct (py_div (Zq (ctp c + ctn c)) (Zq (cP c + cN c))) as [acc|] eqn:Ea;
      [|discriminate].
    simpl in Hret. injection Hret as <-.
    apply py_div_Return in Ef as [_ ->]. apply py_div_Return in Ea as [_ ->].
    split; [done|]. split; [done|]. split.
    + intros _. eexists _, _. repeat split; try done; apply Qred_correct.
    + intros [Hp Hr]. apply neq0_false in Hp, Hr.
      rewrite Hp, Hr in Epr. discriminate.
  - injection Hret as <-.
    split; [done|]. split; [done|]. split; [|done].
    intros H. exfalso. apply H. apply orb_false_iff in Epr as [Hp Hr].
    by split; apply neq0_false.
Qed.

(** A run: the candidate selects every cell, the reference the upper
    half. *)
Lemma report_keys_witness :
  let stats := report_of (mask_evaluation [[255; 255]; [255; 255]]
                                          [[255; 255]; [0; 0]]) in
  let c := confusion [[255; 255]; [255; 255]] [[255; 255]; [0; 0]] in
  ∃ p r : Q,
    stats !! "Precision" = Some (Fin p)
    ∧ stats !! "Recall" = Some (Fin r)
    ∧ (¬ ((p == 0)%Q ∧ (r == 0)%Q) →
        ∃ f1 acc : Q,
          stats !! "F1" = Some (Fin f1)
          ∧ (f1 == 2 * p * r / (p + r))%Q
          ∧ stats !! "accuracy" = Some (Fin acc)
          ∧ (acc == Zq (ctp c + ctn c) / Zq (cP c + cN c))%Q
          ∧ stats !! "cohen_kappa"
            = Some (Sk.cohen_kappa_score
                      (flatten (astype_uint8 [[255; 255]; [0; 0]]))
                      (flatten [[255; 255]; [255; 255]])))
    ∧ ((p == 0)%Q ∧ (r == 0)%Q →
        stats !! "F1" = None
        ∧ stats !! "accuracy" = None
        ∧ stats !! "cohen_kappa" = None).
Proof.
  apply (report_keys [[255; 255]; [255; 255]] [[255; 255]; [0; 0]]).
  vm_compute. reflexivity.
Defined.

(** C1.  On the 0/1-encoded reference [[1, 0], [0, 0]] (one selected cell
    of four) [mask_evaluation] counts P = 1 but N = 4, not 4 - 1 = 3: the
    complement of a 0/1 cell is 254 or 255, never zero. *)
Theorem C1_N_is_not_the_negatives :
  let c := confusion [[1; 0]; [0; 0]] [[1; 0]; [0; 0]] in
  cP c = 1 ∧ cN c = 4 ∧ pixels [[1; 0]; [0; 0]] - cP c = 3
  ∧ ctp c + cfn c = 1 ∧ cfp c + ctn c = 4.
Proof. vm_compute. repeat split. Qed.

(** C2.  The 0/1-encoded reference [[1, 1], [1, 1]] has no unselected
    cell, yet [mask_evaluation] does not raise: it computes N = 4 and
    returns a report. *)
Theorem C2_all_selected_reference_is_accepted :
  let reference := [[1; 1]; [1; 1]] in
  pixels reference - count_nonzero reference = 0
  ∧ is_raise (mask_evaluation [[1; 0]; [1; 1]] reference) = false
  ∧ cN (confusion [[1; 0]; [1; 1]] reference) = 4.
Proof. vm_compute. repeat split. Qed.

(** C3.  Candidate: every cell selected; reference: one cell of four (both
    classes present, TP + FP > 0).  [mask_evaluation] reports Precision
    1/2, Recall 1, F1 2/3 and accuracy 1/4; [mask_sklearn_evaluation]
    reports 1/4 for all four. *)
Theorem C3_the_two_scorers_disagree :
  let mask := [[255; 255]; [255; 255]] in
  let likelihood := [[255; 0]; [0; 0]] in
  let manual := report_of (mask_evaluation mask likelihood) in
  let library := mask_sklearn_evaluation mask likelihood in
  is_raise (mask_evaluation mask likelihood) = false
  ∧ 0 < ctp (confusion mask likelihood) + cfp (confusion mask likelihood)
  ∧ manual !! "Precision" = Some (Fin (1 # 2))
  ∧ library !! "Precision" = Some (Fin (1 # 4))
  ∧ manual !! "Recall" = Some (Fin 1)
  ∧ library !! "Recall" = Some (Fin (1 # 4))
  ∧ manual !! "F1" = Some (Fin (2 # 3))
  ∧ library !! "F1" = Some (Fin (1 # 4))
  ∧ manual !! "accuracy" = Some (Fin (1 # 4))
  ∧ library !! "accuracy" = Some (Fin (1 # 4)).
Proof. vm_compute. repeat split. Qed.

(** C4.  On the 0/1-encoded candidate [[1, 0], [0, 0]] and reference
    [[1, 1], [0, 0]] [mask_evaluation] returns a report with Precision 1
    and Recall 1/2, not both zero.  One cell is selected in both masks and
    two in neither, P = 2 and N = 4 - 2 = 2, so (TP + TN) / (P + N) is
    3/4; the call computes N = 4 and tn = 4 and reports accuracy 5/6. *)
Theorem C4_accuracy_counts_every_cell_as_negative :
  let mask := [[1; 0]; [0; 0]] in
  let likelihood := [[1; 1]; [0; 0]] in
  let stats := report_of (mask_evaluation mask likelihood) in
  let c := confusion mask likelihood in
  let P := count_nonzero likelihood in
  let N := pixels likelihood - P in
  let TP := both_selected mask likelihood in
  let TN := Sk.count_where (λ p : Z * Z, (p.1 =? 0) && (p.2 =? 0))
              (zip (flatten mask) (flatten likelihood)) in
  is_raise (mask_evaluation mask likelihood) = false
  ∧ stats !! "Precision" = Some (Fin 1)
  ∧ stats !! "Recall" = Some (Fin (1 # 2))
  ∧ stats !! "F1" = Some (Fin (2 # 3))
  ∧ (TP, TN, P, N) = (1, 2, 2, 2)
  ∧ Qred (Zq (TP + TN) / Zq (P + N)) = 3 # 4
  ∧ (ctp c, ctn c, cP c, cN c) = (1, 4, 2, 4)
  ∧ stats !! "accuracy" = Some (Fin (5 # 6)).
Proof. vm_compute. repeat split. Qed.

End Scorer.

(** ** Coincidence of two masks *)

Section Coincidence.

Lemma binary_uint8 a : binary a → is_uint8 a.
Proof.
  unfold binary, is_uint8. intros H.
  eapply Forall_impl; [exact H|]. intros r Hr. simpl in Hr.
  eapply Forall_impl; [exact Hr|]. simpl. lia.
Qed.

Lemma cnt_zip_ext (f g : Z → Z → Z) (V1 V2 : Z → Prop) l1 l2 :
  Forall V1 l1 → Forall V2 l2 →
  (∀ x y, V1 x → V2 y → nz (f x y) = nz (g x y)) →
  cnt (zip_with f l1 l2) = cnt (zip_with g l1 l2).
Proof.
  intros H1. revert l2. induction H1 as [|x l1 Hx _ IH]; intros [|y l2] H2 Hf;
    simpl; try done.
  apply Forall_cons in H2 as [Hy H2].
  rewrite !cnt_cons, (IH l2 H2 Hf), (Hf x y Hx Hy). done.
Qed.

Lemma cnt_zip_le_r (f : Z → Z → Z) (V1 V2 : Z → Prop) l1 l2 :
  Forall V1 l1 → Forall V2 l2 →
  (∀ x y, V1 x → V2 y → nz (f x y) ≤ nz y) →
  cnt (zip_with f l1 l2) ≤ cnt l2.
Proof.
  intros H1. revert l2. induction H1 as [|x l1 Hx _ IH]; intros [|y l2] H2 Hf;
    simpl; rewrite ?cnt_cons, ?cnt_nil; try lia.
  - pose proof (cnt_bounds l2). unfold nz. destruct (y =? 0); lia.
  - apply Forall_cons in H2 as [Hy H2]. specialize (IH l2 H2 Hf).
    specialize (Hf x y Hx Hy). lia.
Qed.

Lemma cnt_zip_diag (f : Z → Z → Z) (V : Z → Prop) l :
  Forall V l → (∀ x, V x → nz (f x x) = nz x) → cnt (zip_with f l l) = cnt l.
Proof.
  intros H Hf. induction H as [|x l Hx _ IH]; [done|].
  simpl. rewrite !cnt_cons, IH, (Hf x Hx). done.
Qed.

Lemma Qred_self n : 0 < n → Qred (Zq n / Zq n) = 1%Q.
Proof.
  intros Hn. change 1%Q with (Qred 1). apply Qred_complete.
  apply Qmult_inv_r. apply Zq_nonzero. lia.
Qed.

(** The bitwise AND of two binary masks is non-zero exactly on the cells
    selected in both. *)
Lemma equals_both_selected a b h w :
  shape a h w → shape b h w → binary a → binary b →
  count_nonzero (bitwise_and (astype_uint8 a) (astype_uint8 b))
  = both_selected a b.
Proof.
  intros Ha Hb Ba Bb.
  rewrite !astype_uint8_id by by apply binary_uint8.
  unfold bitwise_and, both_selected.
  rewrite count_nonzero_cnt, flatten_zip_with by by eapply shape_rows.
  apply flatten_Forall in Ba, Bb.
  apply (cnt_zip_ext _ _ _ _ _ _ Ba Bb).
  intros x y [->|[->| ->]] [->|[->| ->]]; reflexivity.
Qed.

Lemma both_selected_le a b :
  binary a → binary b →
  both_selected a b ≤ Z.min (count_nonzero a) (count_nonzero b).
Proof.
  intros Ba Bb. apply flatten_Forall in Ba, Bb. unfold both_selected.
  rewrite !count_nonzero_cnt. apply Z.min_glb.
  - apply (cnt_zip_le _ _ _ _ _ Ba Bb).
    intros x y [->|[->| ->]] [->|[->| ->]]; vm_compute; discriminate.
  - apply (cnt_zip_le_r _ _ _ _ _ Ba Bb).
    intros x y [->|[->| ->]] [->|[->| ->]]; vm_compute; discriminate.
Qed.

Lemma both_selected_diag a : binary a → both_selected a a = count_nonzero a.
Proof.
  intros Ba. apply flatten_Forall in Ba. unfold both_selected.
  rewrite count_nonzero_cnt. apply (cnt_zip_diag _ _ _ Ba).
  intros x [->|[->| ->]]; reflexivity.
Qed.

Lemma both_selected_nonneg a b : 0 ≤ both_selected a b.
Proof. unfold both_selected. apply cnt_bounds. Qed.

(** C6, amended.  For two binary masks of one shape with n cells
    selected in both and d = min(|A|, |B|): when d > 0 the result is the
    ratio n / d, between 0 and 1; it is exactly 1 when A = B is not
    empty; and the division by zero (numpy's nan) happens exactly when
    at least one of the two masks is empty. *)
Theorem C6_coincidence_ratio a b h w :
  shape a h w → shape b h w → binary a → binary b →
  let n := both_selected a b in
  let d := Z.min (count_nonzero a) (count_nonzero b) in
  (0 < d →
     ∃ q, masks_coincidence a b = Fin q
          ∧ (q == Zq n / Zq d)%Q ∧ (0 <= q)%Q ∧ (q <= 1)%Q)
  ∧ (a = b → 0 < count_nonzero a → masks_coincidence a b = Fin 1)
  ∧ (masks_coincidence a b = NaN
     ↔ count_nonzero a = 0 ∨ count_nonzero b = 0).
Proof.
  intros Ha Hb Ba Bb n d.
  pose proof (both_selected_le a b Ba Bb) as Hle. fold n d in Hle.
  pose proof (both_selected_nonneg a b) as Hn0. fold n in Hn0.
  pose proof (count_nonzero_nonneg a) as Ha0.
  pose proof (count_nonzero_nonneg b) as Hb0.
  assert (masks_coincidence a b = np_div (Zq n) (Zq d)) as Hmc.
  { unfold masks_coincidence.
    rewrite (equals_both_selected a b h w) by done.
    by rewrite !astype_uint8_id by by apply binary_uint8. }
  rewrite Hmc. unfold np_div.
  destruct (Qeq_bool (Zq d) 0) eqn:Ed.
  - apply Qeq_bool_iff in Ed.
    assert (d = 0) as Hd by (unfold Zq, Qeq in Ed; simpl in Ed; lia).
    assert (n = 0) as Hn by lia.
    rewrite Hn. simpl. split; [lia|]. split; [|split; [lia|done]].
    intros -> Hpos. subst d. lia.
  - assert (0 < d) as Hd.
    { destruct (decide (d = 0)) as [E|]; [|lia].
      rewrite E in Ed. discriminate. }
    split; [|split; [|split; [discriminate|lia]]].
    + intros _. eexists. split; [done|].
      rewrite Qred_correct. split; [done|].
      pose proof (Zq_pos d Hd). pose proof (Zq_nonneg n Hn0).
      split.
      * apply Qle_shift_div_l; [done|]. lra.
      * apply Qle_shift_div_r; [done|]. rewrite Qmult_1_l.
        unfold Zq. rewrite <- Zle_Qle. lia.
    + intros <- Hpos. unfold n, d.
      rewrite both_selected_diag, Z.min_id by done.
      by rewrite Qred_self.
Qed.

Lemma C6_coincidence_ratio_witness :
  let a := [[255; 255]; [0; 0]] in
  let b := [[0; 1]; [1; 1]] in
  let n := both_selected a b in
  let d := Z.min (count_nonzero a) (count_nonzero b) in
  (0 < d →
     ∃ q, masks_coincidence a b = Fin q
          ∧ (q == Zq n / Zq d)%Q ∧ (0 <= q)%Q ∧ (q <= 1)%Q)
  ∧ (a = b → 0 < count_nonzero a → masks_coincidence a b = Fin 1)
  ∧ (masks_coincidence a b = NaN
     ↔ count_nonzero a = 0 ∨ count_nonzero b = 0).
Proof.
  apply (C6_coincidence_ratio [[255; 255]; [0; 0]] [[0; 1]; [1; 1]] 2 2);
    by_compute.
Defined.

(** C6 as stated fails: the first mask is empty, the second is not, and
    the call divides by zero. *)
Lemma C6_one_empty_mask_divides_by_zero :
  masks_coincidence [[0; 0]; [0; 0]] [[0; 255]; [255; 255]] = NaN
  ∧ count_nonzero [[0; 255]; [255; 255]] = 3.
Proof. vm_compute. split; reflexivity. Qed.

End Coincidence.

(** ** Cells of an array *)

Section Cells.

Lemma cell_Some a y x v :
  cell a y x = Some v ↔
  0 ≤ y ∧ 0 ≤ x ∧
  ∃ row, a !! Z.to_nat y = Some row ∧ row !! Z.to_nat x = Some v.
Proof.
  unfold cell. case_bool_decide as H.
  - destruct (a !! Z.to_nat y) as [row|]; simpl.
    + split; [intros Hv; repeat split; try lia; by exists row|].
      by intros (_ & _ & row' & [= <-] & Hv).
    + split; [done|]. by intros (_ & _ & row' & ? & _).
  - split; [done|]. intros (? & ? & _). lia.
Qed.

Lemma cell_lookup a (i j : nat) row :
  a !! i = Some row → cell a (Z.of_nat i) (Z.of_nat j) = row !! j.
Proof.
  intros Hi. unfold cell. rewrite bool_decide_true by lia.
  by rewrite !Nat2Z.id, Hi.
Qed.

Lemma cell_mapi F a y x : cell (mapi F a) y x = F (x, y) <$> cell a y x.
Proof.
  unfold cell, mapi. case_bool_decide as H; [|done].
  rewrite list_lookup_imap. destruct (a !! Z.to_nat y) as [row|]; [|done].
  simpl. rewrite list_lookup_imap. by rewrite !Z2Nat.id by lia.
Qed.

Lemma get_mapi F a y x :
  get (mapi F a) y x
  = match cell a y x with Some v => F (x, y) v | None => 0 end.
Proof. unfold get. rewrite cell_mapi. by destruct (cell a y x). Qed.

Lemma mapi_ext F G a :
  (∀ y x v, cell a y x = Some v → F (x, y) v = G (x, y) v) →
  mapi F a = mapi G a.
Proof.
  intros H. unfold mapi. apply imap_ext. intros i row Hi.
  apply imap_ext. intros j v Hj. simpl. apply H.
  by rewrite (cell_lookup _ _ _ _ Hi).
Qed.

Lemma imap_imap {A B C} (f : nat → B → C) (g : nat → A → B) (l : list A) :
  imap f (imap g l) = imap (λ i x, f i (g i x)) l.
Proof.
  apply list_eq. intros i. rewrite !list_lookup_imap.
  by destruct (l !! i).
Qed.

Lemma mapi_mapi F G a : mapi F (mapi G a) = mapi (λ p v, F p (G p v)) a.
Proof.
  unfold mapi. rewrite imap_imap. apply imap_ext. intros i row _. simpl.
  by rewrite imap_imap.
Qed.

Lemma map_as_mapi f a : map (map f) a = mapi (λ _, f) a.
Proof.
  unfold mapi. apply list_eq. intros i.
  rewrite list_lookup_imap, list_lookup_fmap.
  destruct (a !! i) as [row|]; [simpl|done]. f_equal.
  apply list_eq. intros j. by rewrite list_lookup_imap, list_lookup_fmap.
Qed.

Lemma zip_mapi f F G a :
  zip_with (zip_with f) (mapi F a) (mapi G a)
  = mapi (λ p v, f (F p v) (G p v)) a.
Proof.
  unfold mapi. apply list_eq. intros i.
  rewrite lookup_zip_with, !list_lookup_imap.
  destruct (a !! i) as [row|]; [simpl|done]. f_equal.
  apply list_eq. intros j. rewrite lookup_zip_with, !list_lookup_imap.
  by destruct (row !! j).
Qed.

Lemma mapi_id a : mapi (λ _ v, v) a = a.
Proof. rewrite <- (map_as_mapi id). rewrite <- (list_fmap_id a) at 2.
       apply list_fmap_ext. intros _ row _. apply list_fmap_id. Qed.

Lemma elem_of_coords a x y : (x, y) ∈ Cv.coords a ↔ is_Some (cell a y x).
Proof.
  unfold Cv.coords. rewrite list_elem_of_In, in_concat. split.
  - intros (l & Hl & Hp). apply list_elem_of_In in Hl, Hp.
    apply elem_of_lookup_imap in Hl as (i & row & -> & Hi).
    apply list_elem_of_fmap in Hp as (x' & [= -> ->] & Hx).
    apply elem_of_seqZ in Hx.
    rewrite <- (Z2Nat.id x') by lia. rewrite (cell_lookup _ _ _ _ Hi).
    apply lookup_lt_is_Some. lia.
  - intros [v Hv]. apply cell_Some in Hv as (Hy & Hx & row & Hrow & Hv).
    exists ((λ x', (x', Z.of_nat (Z.to_nat y))) <$>
              seqZ 0 (Z.of_nat (length row))).
    split; apply list_elem_of_In.
    + apply elem_of_lookup_imap. by exists (Z.to_nat y), row.
    + rewrite Z2Nat.id by lia. apply list_elem_of_fmap. exists x.
      split; [done|]. apply elem_of_seqZ.
      apply lookup_lt_Some in Hv. lia.
Qed.

Lemma coords_mapi F a : Cv.coords (mapi F a) = Cv.coords a.
Proof.
  unfold Cv.coords, mapi. f_equal. rewrite imap_imap.
  apply imap_ext. intros i row _. simpl. by rewrite length_imap.
Qed.

End Cells.

(** ** Flood fill *)

Section FloodFill.

Lemma elem_of_neighbours4 p q :
  q ∈ neighbours4 p ↔
  q = (p.1, p.2 - 1) ∨ q = (p.1, p.2 + 1) ∨ q = (p.1 - 1, p.2) ∨ q = (p.1 + 1, p.2).
Proof.
  unfold neighbours4. rewrite !elem_of_cons, elem_of_nil. tauto.
Qed.

Lemma neighbours4_sym p q : q ∈ neighbours4 p → p ∈ neighbours4 q.
Proof.
  rewrite !elem_of_neighbours4. destruct p as [x y], q as [x' y']. simpl.
  intros [H|[H|[H|H]]]; injection H as -> ->;
    [right; left|left|right; right; right|right; right; left]; f_equal; lia.
Qed.

Lemma elem_of_grow a v R p :
  p ∈ grow a v R ↔
  p ∈ R ∨ (p ∈ coords a ∧ at_ a p = v ∧ ∃ q, q ∈ neighbours4 p ∧ q ∈ R).
Proof.
  unfold grow. rewrite elem_of_union, elem_of_list_to_set, list_elem_of_filter.
  rewrite Exists_exists. split.
  - intros [Hp|[(Hv & q & Hq & HqR) Hc]]; [by left|right; eauto].
  - intros [Hp|(Hc & Hv & q & Hq & HqR)]; [by left|right; eauto].
Qed.

Lemma grow_extensive a v R : R ⊆ grow a v R.
Proof. intros p Hp. apply elem_of_grow. by left. Qed.

Lemma grow_mono a v R R' : R ⊆ R' → grow a v R ⊆ grow a v R'.
Proof.
  intros HR p. rewrite !elem_of_grow. intros [Hp|(Hc & Hv & q & Hq & HqR)].
  - left. by apply HR.
  - right. repeat split; try done. exists q. split; [done|]. by apply HR.
Qed.

Lemma stage_S a v seed k : stage a v seed (S k) = grow a v (stage a v seed k).
Proof. reflexivity. Qed.

Lemma stage_le a v seed (k j : nat) :
  (k ≤ j)%nat → stage a v seed k ⊆ stage a v seed j.
Proof.
  induction 1 as [|j _ IH]; [done|].
  rewrite stage_S. etrans; [exact IH|]. apply grow_extensive.
Qed.

Lemma stage_inv a seed k p :
  seed ∈ coords a → p ∈ stage a (at_ a seed) seed k →
  p ∈ coords a ∧ at_ a p = at_ a seed.
Proof.
  intros Hs. revert p. induction k as [|k IH]; intros p.
  - change (stage a (at_ a seed) seed 0) with ({[seed]} : gset point).
    rewrite elem_of_singleton. by intros ->.
  - rewrite stage_S, elem_of_grow. intros [Hp|(Hc & Hv & _)]; auto.
Qed.

Lemma stage_conn4 a seed k p :
  seed ∈ coords a → p ∈ stage a (at_ a seed) seed k → conn4 a seed p.
Proof.
  intros Hs. revert p. induction k as [|k IH]; intros p.
  - change (stage a (at_ a seed) seed 0) with ({[seed]} : gset point).
    rewrite elem_of_singleton. intros ->. by constructor.
  - rewrite stage_S, elem_of_grow. intros [Hp|(Hc & Hv & q & Hq & HqR)]; auto.
    apply (conn4_step _ _ q); auto. by apply neighbours4_sym.
Qed.

(** *** The growth stops within as many rounds as there are cells *)

Lemma size_list_to_set_le (l : list point) :
  (size (list_to_set l : gset point) ≤ length l)%nat.
Proof.
  induction l as [|x l IH].
  - by rewrite list_to_set_nil, size_empty.
  - rewrite list_to_set_cons, size_union_alt, size_singleton. simpl length.
    assert (list_to_set l ∖ {[x]} ⊆ (list_to_set l : gset point)) as Hsub
      by (intros p; rewrite elem_of_difference; tauto).
    apply subseteq_size in Hsub. lia.
Qed.

Lemma stage_fixed a v seed (j k : nat) :
  grow a v (stage a v seed j) = stage a v seed j → (j ≤ k)%nat →
  stage a v seed k = stage a v seed j.
Proof.
  intros Hfix. induction 1 as [|k _ IH]; [done|].
  by rewrite stage_S, IH.
Qed.

Lemma stage_fix_or_big a v seed (k : nat) :
  (∃ j : nat, (j ≤ k)%nat ∧ grow a v (stage a v seed j) = stage a v seed j)
  ∨ (k + 1 ≤ size (stage a v seed k))%nat.
Proof.
  induction k as [|k [(j & Hj & Hfix)|Hbig]].
  - right. change (stage a v seed 0) with ({[seed]} : gset point).
    by rewrite size_singleton.
  - left. exists j. split; [lia|done].
  - destruct (decide (grow a v (stage a v seed k) = stage a v seed k)) as [Hfix|Hne].
    + left. exists k. split; [lia|done].
    + right. rewrite stage_S.
      assert (stage a v seed k ⊂ grow a v (stage a v seed k)) as Hsub.
      { split; [apply grow_extensive|].
        intros Hback. apply Hne. apply set_eq. intros p. split.
        - apply Hback.
        - apply grow_extensive. }
      apply subset_size in Hsub. lia.
Qed.

Lemma region_closed a seed :
  seed ∈ coords a →
  grow a (at_ a seed) (region a seed) = region a seed.
Proof.
  intros Hs. unfold region. rewrite bool_decide_true by done.
  fold (stage a (at_ a seed) seed (length (coords a))).
  set (n := length (coords a)). set (v := at_ a seed).
  destruct (stage_fix_or_big a v seed n) as [(j & Hj & Hfix)|Hbig].
  - by rewrite (stage_fixed a v seed j n Hfix Hj).
  - exfalso.
    assert (stage a v seed n ⊆ list_to_set (coords a)) as Hsub.
    { intros p Hp. apply elem_of_list_to_set.
      by apply (stage_inv a seed n p Hs). }
    apply subseteq_size in Hsub.
    pose proof (size_list_to_set_le (coords a)). fold n in H. lia.
Qed.

(** The painted region is the 4-connected component of the seed. *)
Lemma region_conn4 a seed p :
  p ∈ region a seed ↔ conn4 a seed p.
Proof.
  split.
  - unfold region. case_bool_decide as Hs; [|by rewrite elem_of_empty].
    by apply stage_conn4.
  - induction 1 as [Hs|p q _ IH Hq Hc Hv].
    + unfold region. rewrite bool_decide_true by done.
      apply (stage_le a (at_ a seed) seed 0); [lia|].
      change (stage a (at_ a seed) seed 0) with ({[seed]} : gset point).
      by apply elem_of_singleton.
    + assert (seed ∈ coords a) as Hs.
      { unfold region in IH. case_bool_decide; [done|].
        by apply elem_of_empty in IH. }
      rewrite <- (region_closed a seed Hs). apply elem_of_grow. right.
      repeat split; try done. exists p. split; [|done].
      by apply neighbours4_sym.
Qed.

Lemma region_inv a seed p :
  p ∈ region a seed → seed ∈ coords a ∧ p ∈ coords a ∧ at_ a p = at_ a seed.
Proof.
  unfold region. case_bool_decide as Hs; [|by rewrite elem_of_empty].
  intros Hp. split; [done|].
  by apply (stage_inv a seed (length (coords a)) p Hs).
Qed.

(** Two pictures of one shape grow the same region from a seed of the same
    value, when the second has that value on the region of the first and
    nowhere the first has it not. *)
Lemma region_agree a b seed :
  coords b = coords a → at_ b seed = at_ a seed →
  (∀ p, p ∈ region a seed → at_ b p = at_ a seed) →
  (∀ p, p ∈ coords a → at_ b p = at_ a seed → at_ a p = at_ a seed) →
  region b seed = region a seed.
Proof.
  intros Hc Hv H1 H2. unfold region in *. rewrite Hc, Hv.
  case_bool_decide as Hs; [|done].
  set (n := length (coords a)) in *. set (v := at_ a seed) in *.
  fold (stage a v seed n) in H1. fold (stage a v seed n) (stage b v seed n).
  assert (∀ k : nat, (k ≤ n)%nat → stage b v seed k = stage a v seed k) as Hk;
    [|by apply Hk].
  induction k as [|k IH]; intros Hkn; [done|].
  rewrite !stage_S, IH by lia. apply set_eq. intros p.
  rewrite !elem_of_grow, Hc.
  split; (intros [Hp|(Hpc & Hpv & q & Hq & HqR)]; [by left|right]).
  - repeat split; eauto.
  - repeat split; eauto. apply H1.
    apply (stage_le a v seed (S k) n); [lia|].
    rewrite stage_S. apply elem_of_grow. right. repeat split; eauto.
Qed.

End FloodFill.

(** ** Filling holes *)

Section FillHoles.

Lemma th_two_valued v : th v = 0 ∨ th v = 255.
Proof. unfold th. destruct (1 <? _); auto. Qed.

Lemma th_id v : v = 0 ∨ v = 255 → th v = v.
Proof. by intros [->| ->]. Qed.

Lemma im_th_eq m :
  threshold_binary_inv (bitwise_not m) 1 255 = map (map th) m.
Proof.
  unfold threshold_binary_inv, bitwise_not.
  rewrite map_map. apply map_ext. intros row. by rewrite map_map.
Qed.

Lemma cell_im_th m y x : cell (map (map th) m) y x = th <$> cell m y x.
Proof. by rewrite map_as_mapi, cell_mapi. Qed.

Lemma im_th_two_valued m : two_valued (map (map th) m).
Proof.
  intros y x v. rewrite cell_im_th.
  destruct (cell m y x) as [u|]; [|done]. intros [= <-]. apply th_two_valued.
Qed.

Lemma enc0255_two_valued m : enc0255 m → two_valued m.
Proof.
  intros E y x v Hv. apply cell_Some in Hv as (_ & _ & row & Hr & Hv).
  unfold enc0255 in E. rewrite Forall_lookup in E.
  specialize (E _ _ Hr). rewrite Forall_lookup in E. by apply (E _ _ Hv).
Qed.

Lemma two_valued_th m : two_valued m → map (map th) m = m.
Proof.
  intros H. rewrite map_as_mapi. rewrite <- (mapi_id m) at 2.
  apply mapi_ext. intros y x v Hv. apply th_id. by apply (H y x).
Qed.

Lemma mask_fill_holes_keep m :
  mask_fill_holes m = keep_reached (map (map th) m).
Proof.
  unfold mask_fill_holes, floodFill, paint, keep_reached.
  rewrite im_th_eq. set (a := map (map th) m). set (R := region a (0, 0)).
  unfold bitwise_not, bitwise_or.
  rewrite map_as_mapi, mapi_mapi.
  rewrite <- (mapi_id a) at 1. rewrite zip_mapi.
  apply mapi_ext. intros y x v Hv.
  apply (im_th_two_valued m) in Hv.
  case_bool_decide; destruct Hv as [->| ->]; reflexivity.
Qed.

Lemma keep_reached_two_valued a : two_valued a → two_valued (keep_reached a).
Proof.
  intros H y x v. unfold keep_reached. rewrite cell_mapi.
  destruct (cell a y x) as [u|] eqn:Hu; [|done]. simpl. intros [= <-].
  case_bool_decide; [by apply (H y x)|by right].
Qed.

Lemma at_cell a x y v : cell a y x = Some v → at_ a (x, y) = v.
Proof. unfold at_, get. simpl. by intros ->. Qed.

Lemma at_keep_reached a p :
  p ∈ coords a →
  at_ (keep_reached a) p
  = if bool_decide (p ∈ region a (0, 0)) then at_ a p else 255.
Proof.
  destruct p as [x y]. intros Hp. apply elem_of_coords in Hp as [v Hv].
  unfold keep_reached, at_. simpl. rewrite get_mapi, Hv.
  unfold get. by rewrite Hv.
Qed.

Lemma at_outside a p : p ∉ coords a → at_ a p = 0.
Proof.
  destruct p as [x y]. rewrite elem_of_coords. unfold at_, get. simpl.
  destruct (cell a y x); [|done]. intros H. exfalso. apply H. by eexists.
Qed.

Lemma seed_in_region a seed : seed ∈ coords a → seed ∈ region a seed.
Proof. intros Hs. apply region_conn4. by constructor. Qed.

(** What the flood reached once, it reaches again in the result. *)
Lemma region_keep_reached a :
  at_ a (0, 0) ≠ 255 →
  region (keep_reached a) (0, 0) = region a (0, 0).
Proof.
  intros Hv0.
  assert (coords (keep_reached a) = coords a) as Hc by apply coords_mapi.
  destruct (decide ((0, 0) ∈ coords a)) as [Hs|Hs].
  - apply region_agree; [done|..].
    + rewrite at_keep_reached by done.
      by rewrite bool_decide_true by by apply seed_in_region.
    + intros p Hp. pose proof (region_inv _ _ _ Hp) as (_ & Hpc & Hpv).
      rewrite at_keep_reached by done. by rewrite bool_decide_true.
    + intros p Hpc. rewrite at_keep_reached by done.
      case_bool_decide as Hp; [|congruence].
      intros _. by apply region_inv in Hp as (_ & _ & ?).
  - unfold region. rewrite Hc. by rewrite !bool_decide_false.
Qed.

Lemma keep_reached_idem a : keep_reached (keep_reached a) = keep_reached a.
Proof.
  unfold keep_reached at 1. unfold keep_reached at 2 3.
  rewrite mapi_mapi.
  apply mapi_ext. intros y x v Hv.
  destruct (bool_decide_reflect ((x, y) ∈ region a (0, 0))) as [Hp|Hp];
    [|by case_bool_decide].
  destruct (decide (v = 255)) as [->|Hv255]; [by case_bool_decide|].
  pose proof (region_inv _ _ _ Hp) as (_ & _ & Hpv).
  rewrite (at_cell _ _ _ _ Hv) in Hpv.
  rewrite bool_decide_true; [done|].
  change ((x, y) ∈ region (keep_reached a) (0, 0)).
  by rewrite (region_keep_reached a) by congruence.
Qed.

(** Idempotence. *)
Lemma mask_fill_holes_idem m :
  mask_fill_holes (mask_fill_holes m) = mask_fill_holes m.
Proof.
  rewrite !mask_fill_holes_keep.
  rewrite (two_valued_th (keep_reached _))
    by apply keep_reached_two_valued, im_th_two_valued.
  apply keep_reached_idem.
Qed.

(** On a 0/255 mask: a cell of the result is 0 exactly when it was 0 and
    is 4-connected to the corner through cells that are 0; every other
    cell is 255. *)
Lemma mask_fill_holes_cells m x y v :
  enc0255 m → cell m y x = Some v →
  (get (mask_fill_holes m) y x = 0 ↔ v = 0 ∧ conn4 m (0, 0) (x, y))
  ∧ (get (mask_fill_holes m) y x = 0 ∨ get (mask_fill_holes m) y x = 255).
Proof.
  intros E Hv. pose proof (enc0255_two_valued m E) as Htv.
  rewrite mask_fill_holes_keep, two_valued_th by done.
  change (get (keep_reached m) y x) with (at_ (keep_reached m) (x, y)).
  rewrite at_keep_reached by (apply elem_of_coords; by eexists).
  rewrite (at_cell _ _ _ _ Hv). rewrite <- region_conn4.
  case_bool_decide as Hp.
  - split; [tauto|]. by apply (Htv y x).
  - split; [|by right]. split; [done|tauto].
Qed.

End FillHoles.

(** ** What a call leaves untouched *)

Section Frame.
Import Heap.

Lemma alloc_inv a (h h' : heap) l :
  alloc a h = (h', l) → h !! l = None ∧ h' = <[l := a]> h.
Proof.
  unfold alloc. intros [= <- <-]. split; [|done].
  apply not_elem_of_dom. apply is_fresh.
Qed.

Lemma deref_insert (h : heap) l a : deref (<[l := a]> h) l = a.
Proof. unfold deref. by rewrite lookup_insert_eq. Qed.

Lemma deref_insert_ne (h : heap) l l' a :
  l ≠ l' → deref (<[l := a]> h) l' = deref h l'.
Proof. intros. unfold deref. by rewrite lookup_insert_ne. Qed.

(** The call returns a new array that holds [mask_fill_holes] of the
    input, and leaves every array that existed before as it was. *)
Lemma mask_fill_holes_frame (h h' : heap) (mask out : nat) (m : Np.image) :
  h !! mask = Some m →
  mask_fill_holes_obj mask h = (h', out) →
  h' !! out = Some (mask_fill_holes m)
  ∧ h !! out = None
  ∧ ∀ l, is_Some (h !! l) → h' !! l = h !! l.
Proof.
  intros Hm. unfold mask_fill_holes_obj.
  assert (deref h mask = m) as -> by (unfold deref; by rewrite Hm).
  destruct (alloc m h) as [h1 l1] eqn:E1.
  apply alloc_inv in E1 as [F1 ->]. rewrite deref_insert.
  destruct (alloc _ _) as [h2 l2] eqn:E2.
  apply alloc_inv in E2 as [F2 ->]. rewrite deref_insert.
  apply lookup_insert_None in F2 as [F2 N21].
  destruct (alloc _ _) as [h3 l3] eqn:E3.
  apply alloc_inv in E3 as [F3 ->]. rewrite deref_insert.
  apply lookup_insert_None in F3 as [F3 N32].
  apply lookup_insert_None in F3 as [F3 N31].
  destruct (alloc _ _) as [h4 l4] eqn:E4.
  apply alloc_inv in E4 as [F4 ->].
  apply lookup_insert_None in F4 as [F4 N43].
  apply lookup_insert_None in F4 as [F4 N42].
  apply lookup_insert_None in F4 as [F4 N41].
  rewrite (deref_insert_ne _ l4 l3) by done. rewrite deref_insert.
  destruct (alloc _ _) as [h5 l5] eqn:E5.
  apply alloc_inv in E5 as [F5 ->].
  apply lookup_insert_None in F5 as [F5 N54].
  apply lookup_insert_None in F5 as [F5 N53].
  apply lookup_insert_None in F5 as [F5 N52].
  apply lookup_insert_None in F5 as [F5 N51].
  rewrite (deref_insert_ne _ l5 l4) by done. rewrite !deref_insert.
  destruct (alloc _ _) as [h6 l6] eqn:E6.
  apply alloc_inv in E6 as [F6 ->]. rewrite !deref_insert.
  apply lookup_insert_None in F6 as [F6 N64].
  apply lookup_insert_None in F6 as [F6 N65].
  apply lookup_insert_None in F6 as [F6 _].
  apply lookup_insert_None in F6 as [F6 _].
  apply lookup_insert_None in F6 as [F6 N63].
  apply lookup_insert_None in F6 as [F6 N62].
  apply lookup_insert_None in F6 as [F6 N61].
  rewrite (deref_insert_ne _ l6 l3) by done.
  rewrite (deref_insert_ne _ l4 l3) by done.
  rewrite (deref_insert_ne _ l5 l3) by done.
  rewrite (deref_insert_ne _ l5 l3) by done.
  rewrite (deref_insert_ne _ l4 l3) by done.
  rewrite deref_insert.
  intros H. apply alloc_inv in H as [F7 ->].
  apply lookup_insert_None in F7 as [F7 N76].
  apply lookup_insert_None in F7 as [F7 N74].
  apply lookup_insert_None in F7 as [F7 N75].
  apply lookup_insert_None in F7 as [F7 _].
  apply lookup_insert_None in F7 as [F7 _].
  apply lookup_insert_None in F7 as [F7 N73].
  apply lookup_insert_None in F7 as [F7 N72].
  apply lookup_insert_None in F7 as [F7 N71].
  split; [|split; [done|]].
  - rewrite lookup_insert_eq. done.
  - intros l [a Hl].
    rewrite !lookup_insert_ne by (intros ->; congruence). done.
Qed.

End Frame.

Lemma conn4_seed_in m seed p : conn4 m seed p → seed ∈ Cv.coords m.
Proof. by induction 1. Qed.

(** C9, amended.  [mask_fill_holes] is idempotent.  On a 0/255 mask a
    selected cell stays selected; an unselected cell that is 4-connected
    to the corner cell (0, 0) through unselected cells stays unselected; an
    unselected cell that is not 4-connected to the border through
    unselected cells becomes selected; and a cell of the result is
    unselected only if it was unselected and connected to the corner.  The
    call returns a new array and leaves its input, and every other array,
    unmodified. *)
Theorem C9_fill_holes (m : Np.image) :
  mask_fill_holes (mask_fill_holes m) = mask_fill_holes m
  ∧ (Np.enc0255 m → ∀ x y v, Np.cell m y x = Some v →
       (v = 255 → Np.get (mask_fill_holes m) y x = 255)
       ∧ (v = 0 → conn4 m (0, 0) (x, y) → Np.get (mask_fill_holes m) y x = 0)
       ∧ (v = 0 → ¬ reaches_border m (x, y) →
          Np.get (mask_fill_holes m) y x = 255)
       ∧ (Np.get (mask_fill_holes m) y x = 0
          ↔ v = 0 ∧ conn4 m (0, 0) (x, y)))
  ∧ (∀ (h h' : gmap nat Np.image) (mask out : nat),
       h !! mask = Some m →
       mask_fill_holes_obj mask h = (h', out) →
       h' !! out = Some (mask_fill_holes m)
       ∧ h !! out = None
       ∧ ∀ l, is_Some (h !! l) → h' !! l = h !! l).
Proof.
  split; [apply mask_fill_holes_idem|]. split.
  - intros E x y v Hv.
    destruct (mask_fill_holes_cells m x y v E Hv) as [Hiff Hcases].
    split; [|split; [|split; [|done]]].
    + intros ->. destruct Hcases as [H0|H]; [|done].
      apply Hiff in H0 as [? _]. done.
    + intros -> Hc. by apply Hiff.
    + intros -> Hnb. destruct Hcases as [H0|H]; [|done].
      apply Hiff in H0 as [_ Hc]. exfalso. apply Hnb.
      exists (0, 0). split; [by left|done].
  - intros h h' mask out. apply mask_fill_holes_frame.
Qed.

(** C9 as stated fails: the right column is unselected background on the
    border of the mask, cut off from the corner (0, 0) by the selected
    column, and it becomes selected. *)
Lemma C9_border_background_is_filled :
  mask_fill_holes [[0; 255; 0]; [0; 255; 0]; [0; 255; 0]]
  = [[0; 255; 255]; [0; 255; 255]; [0; 255; 255]]
  ∧ mask_fill_holes [[255; 0; 0]; [0; 0; 0]; [0; 0; 0]]
    = [[255; 255; 255]; [255; 255; 255]; [255; 255; 255]].
Proof. vm_compute. split; reflexivity. Qed.

(** ** Contours: when there are none *)

Section NoContours.

Lemma cell_bin a y x :
  cell (bin a) y x = (λ v, if nonzero v then 1 else 0) <$> cell a y x.
Proof. unfold bin. by rewrite map_as_mapi, cell_mapi. Qed.

Lemma at_bin a p : at_ (bin a) p = if nonzero (at_ a p) then 1 else 0.
Proof.
  unfold at_, get. rewrite cell_bin. by destruct (cell a p.2 p.1).
Qed.

Lemma visit_zero st lnbd p :
  at_ (sc_img st) p = 0 → visit st lnbd p = (st, lnbd).
Proof. intros H. unfold visit. by rewrite H. Qed.

Lemma visit_found st lnbd p :
  ∃ new, sc_found (visit st lnbd p).1 = new ++ sc_found st.
Proof.
  unfold visit. destruct (at_ (sc_img st) p =? 0); [by exists []|].
  destruct ((at_ (sc_img st) p =? 1) && _).
  - simpl. by eexists [_].
  - destruct ((1 <=? at_ (sc_img st) p) && _); simpl; [by eexists [_]|by exists []].
Qed.

Lemma visit_has_external st lnbd p :
  has_external st → has_external (visit st lnbd p).1.
Proof.
  unfold has_external. destruct (visit_found st lnbd p) as [new ->].
  rewrite Exists_app. auto.
Qed.

Lemma visit_all_has_external y sl xs :
  has_external sl.1 → has_external (visit_all y sl xs).1.
Proof.
  revert sl. induction xs as [|x xs IH]; intros sl H; [done|].
  simpl. apply IH. simpl. by apply visit_has_external.
Qed.

(** The first non-zero cell the scan meets starts an outer border whose
    parent is the frame. *)
Lemma visit_first a x y :
  at_ a (x, y) ≠ 0 → at_ a (x - 1, y) = 0 →
  has_external (visit (pristine a) 1 (x, y)).1.
Proof.
  intros Hv Hleft. unfold visit, pristine. simpl.
  rewrite !at_bin. simpl. rewrite Hleft.
  unfold nonzero at 1 2 3. destruct (Z.eqb_spec (at_ a (x, y)) 0); [done|].
  simpl. unfold has_external. simpl. apply Exists_cons_hd. reflexivity.
Qed.

(** A row scanned from the untouched state: nothing happens on zeros. *)
Lemma row_pristine a y (n : nat) k :
  at_ a (k - 1, y) = 0 →
  let r := visit_all y (pristine a, 1) (seqZ k (Z.of_nat n)) in
  (r = (pristine a, 1) ∧ ∀ x, k ≤ x < k + Z.of_nat n → at_ a (x, y) = 0)
  ∨ has_external r.1.
Proof.
  revert k. induction n as [|n IH]; intros k Hleft.
  - left. split; [done|]. intros x Hx. lia.
  - rewrite seqZ_cons by lia. simpl.
    destruct (decide (at_ a (k, y) = 0)) as [Hk|Hk].
    + rewrite visit_zero by (simpl; rewrite at_bin, Hk; done). simpl.
      replace (Z.pred (Z.of_nat (S n))) with (Z.of_nat n) by lia.
      specialize (IH (Z.succ k)).
      replace (Z.succ k - 1) with k in IH by lia.
      destruct (IH Hk) as [[Hr Hz]|Hext]; [left|by right].
      split; [done|]. intros x Hx.
      destruct (decide (x = k)) as [->|]; [done|]. apply Hz. lia.
    + right. apply visit_all_has_external. simpl.
      by apply visit_first.
Qed.

Lemma at_negative a y : at_ a (-1, y) = 0.
Proof.
  unfold at_, get, cell. simpl. by rewrite bool_decide_false by lia.
Qed.

Lemma scan_row_pristine a y w :
  (scan_row (pristine a) y w = pristine a
   ∧ ∀ x, 0 ≤ x < Z.of_nat w → at_ a (x, y) = 0)
  ∨ has_external (scan_row (pristine a) y w).
Proof.
  unfold scan_row. fold (visit_all y (pristine a, 1) (seqZ 0 (Z.of_nat w))).
  destruct (row_pristine a y w 0 (at_negative a y)) as [[Hr Hz]|Hext].
  - left. split; [by rewrite Hr|]. intros x Hx. apply Hz. lia.
  - by right.
Qed.

Lemma scan_row_has_external st y w :
  has_external st → has_external (scan_row st y w).
Proof. intros H. unfold scan_row. by apply (visit_all_has_external y (st, 1)). Qed.

Lemma scan_rows_has_external st (rs : list (Z * nat)) :
  has_external st →
  has_external (foldl (λ st yr, scan_row st yr.1 yr.2) st rs).
Proof.
  revert st. induction rs as [|r rs IH]; intros st H; [done|].
  simpl. apply IH. by apply scan_row_has_external.
Qed.

Lemma scan_rows_pristine a (rs : list (Z * nat)) :
  let st := foldl (λ st yr, scan_row st yr.1 yr.2) (pristine a) rs in
  (st = pristine a
   ∧ ∀ y w x, (y, w) ∈ rs → 0 ≤ x < Z.of_nat w → at_ a (x, y) = 0)
  ∨ has_external st.
Proof.
  induction rs as [|[y w] rs IH]; simpl.
  - left. split; [done|]. intros y w x H. by apply elem_of_nil in H.
  - destruct (scan_row_pristine a y w) as [[Hr Hz]|Hext].
    + rewrite Hr. destruct IH as [[Hst Hzs]|Hext]; [left|by right].
      split; [done|]. intros y' w' x H Hx.
      apply elem_of_cons in H as [[= -> ->]|H]; [by apply Hz|by eapply Hzs].
    + right. by apply scan_rows_has_external.
Qed.

Lemma all_zero_cell a : all_zero a ↔ ∀ y x v, cell a y x = Some v → v = 0.
Proof.
  unfold all_zero. split.
  - intros H y x v Hv. apply cell_Some in Hv as (_ & _ & row & Hr & Hv).
    rewrite Forall_lookup in H. specialize (H _ _ Hr).
    rewrite Forall_lookup in H. by apply (H _ _ Hv).
  - intros H. apply Forall_lookup. intros i row Hr.
    apply Forall_lookup. intros j v Hv. apply (H (Z.of_nat i) (Z.of_nat j)).
    by rewrite (cell_lookup _ _ _ _ Hr).
Qed.

Lemma all_zero_count a : all_zero a ↔ count_nonzero a = 0.
Proof.
  unfold all_zero. by rewrite flatten_Forall, count_nonzero_cnt, cnt_zero_iff.
Qed.

Lemma all_zero_at a p : all_zero a → at_ a p = 0.
Proof.
  rewrite all_zero_cell. intros H. unfold at_, get.
  destruct (cell a p.2 p.1) as [v|] eqn:Hv; [|done]. by apply (H _ _ _ Hv).
Qed.

Lemma elem_of_rows a y w :
  (y, w) ∈ rows a ↔ ∃ (i : nat) row, a !! i = Some row ∧ y = Z.of_nat i ∧ w = length row.
Proof.
  unfold rows. rewrite elem_of_lookup_imap. split.
  - intros (i & row & [= -> ->] & Hi). by exists i, row.
  - intros (i & row & Hi & -> & ->). by exists i, row.
Qed.

(** The scan finds no border exactly on an all-zero picture, and on any
    other picture it finds an outer border whose parent is the frame. *)
Lemma scan_found a :
  (all_zero a ∧ sc_found (scan a) = []) ∨ (¬ all_zero a ∧ has_external (scan a)).
Proof.
  unfold scan. fold (bin a). fold (pristine a).
  destruct (scan_rows_pristine a (rows a)) as [[Hst Hz]|Hext].
  - left. split; [|by rewrite Hst].
    apply all_zero_cell. intros y x v Hv.
    pose proof (at_cell _ _ _ _ Hv) as Hat.
    apply cell_Some in Hv as (Hy & Hx & row & Hr & Hv).
    rewrite <- Hat. apply (Hz y (length row)).
    + apply elem_of_rows. exists (Z.to_nat y), row. split; [done|]. lia.
    + apply lookup_lt_Some in Hv. lia.
  - destruct (decide (all_zero a)) as [Hz|Hnz]; [|by right].
    left. split; [done|]. exfalso.
    assert (∀ rs st, sc_img st = bin a →
              foldl (λ st yr, scan_row st yr.1 yr.2) st rs = st) as Hid.
    { induction rs as [|[y w] rs IH]; intros st Hst; [done|]. simpl.
      assert (scan_row st y w = st) as ->; [|by apply IH].
      unfold scan_row.
      assert (∀ xs l, foldl (λ sl x, visit sl.1 sl.2 (x, y)) (st, l) xs = (st, l))
        as ->; [|done].
      induction xs as [|x xs IHx]; intros l; [done|]. simpl.
      rewrite visit_zero; [apply IHx|].
      rewrite Hst, at_bin, all_zero_at by done. done. }
    rewrite Hid in Hext by done. unfold has_external in Hext. simpl in Hext.
    by apply Exists_nil in Hext.
Qed.

Lemma fmap_nil_iff {A B} (f : A → B) (l : list A) : f <$> l = [] ↔ l = [].
Proof. by destruct l. Qed.

Lemma findContours_list_nil a method :
  findContours a RETR_LIST method = [] ↔ all_zero a.
Proof.
  unfold findContours. rewrite fmap_nil_iff.
  destruct (scan_found a) as [[Hz Hf]|[Hnz Hext]]; [by rewrite Hf|].
  split; [|done]. intros Hf. unfold has_external in Hext. rewrite Hf in Hext.
  by apply Exists_nil in Hext.
Qed.

Lemma findContours_external_nil a method :
  findContours a RETR_EXTERNAL method = [] ↔ all_zero a.
Proof.
  unfold findContours. rewrite fmap_nil_iff.
  destruct (scan_found a) as [[Hz Hf]|[Hnz Hext]]; [by rewrite Hf|].
  split; [|done]. intros Hf. exfalso.
  unfold has_external in Hext. apply Exists_exists in Hext as (b & Hb & Hext).
  assert (b ∈ filter (λ b, is_external b = true) (sc_found (scan a))) as Hin
    by by apply list_elem_of_filter.
  rewrite Hf in Hin. by apply elem_of_nil in Hin.
Qed.

End NoContours.

(** ** The bounding circle *)

Section Circle.

Lemma threshold_all_zero mask :
  all_zero (threshold_binary_inv mask 1 255)
  ↔ Forall (Forall (λ v, 1 < v)) mask.
Proof.
  unfold all_zero, threshold_binary_inv. rewrite Forall_fmap.
  apply Forall_proper; [|done]. intros row. simpl. rewrite Forall_fmap.
  apply Forall_proper; [|done]. intros v. simpl.
  destruct (Z.ltb_spec 1 v); split; (done || lia).
Qed.

(** C5, amended.  [mask_bounding_circle] returns the truncated centre and
    radius of the minimum enclosing circle of the first contour of the
    inverted-threshold binarisation.  It fails (an index fault) exactly
    when that binarisation has no contour, that is when every cell of the
    mask is greater than 1; an empty mask (all zeros) is not such a mask. *)
Theorem C5_bounding_circle (minEnclosingCircle : contour → (Q * Q) * Q)
    (mask : image) :
  let contours :=
    findContours (threshold_binary_inv mask 1 255)
                 RETR_LIST CHAIN_APPROX_NONE in
  (mask_bounding_circle minEnclosingCircle mask = Raise IndexError
   ↔ contours = [])
  ∧ (contours = [] ↔ Forall (Forall (λ v, 1 < v)) mask)
  ∧ (∀ cnt rest, contours = cnt :: rest →
       mask_bounding_circle minEnclosingCircle mask
       = Return ((py_int (minEnclosingCircle cnt).1.1,
                  py_int (minEnclosingCircle cnt).1.2),
                 py_int (minEnclosingCircle cnt).2)).
Proof.
  intros contours. unfold mask_bounding_circle. fold contours.
  split; [|split].
  - destruct contours as [|cnt rest]; [done|]. simpl.
    destruct (minEnclosingCircle cnt) as [[x y] r]. done.
  - unfold contours. by rewrite findContours_list_nil, threshold_all_zero.
  - intros cnt rest ->. simpl.
    by destruct (minEnclosingCircle cnt) as [[x y] r].
Qed.

(** C5 as stated fails: on the empty 3-by-3 mask the binarisation is all
    255 and has a contour, so the call returns a circle whatever the
    circle routine is; it is the mask with every cell selected that has
    no contour. *)
Lemma C5_empty_mask_has_a_contour :
  count_nonzero [[0; 0; 0]; [0; 0; 0]; [0; 0; 0]] = 0
  ∧ (∀ minEnclosingCircle,
       is_raise (mask_bounding_circle minEnclosingCircle
                   [[0; 0; 0]; [0; 0; 0]; [0; 0; 0]]) = false)
  ∧ (∀ minEnclosingCircle,
       mask_bounding_circle minEnclosingCircle
         [[255; 255; 255]; [255; 255; 255]; [255; 255; 255]]
       = Raise IndexError).
Proof.
  split; [reflexivity|]. split; intros mec; unfold mask_bounding_circle.
  - set (cs := findContours _ _ _). vm_compute in cs. subst cs. simpl.
    by destruct (mec _) as [[x y] r].
  - set (cs := findContours _ _ _). vm_compute in cs. subst cs. reflexivity.
Qed.

End Circle.

(** ** Filled contours *)

Section Contours.

Lemma cell_fill a c color y x :
  cell (fill a c color) y x
  = (λ old, if covers c (x, y) then color else old) <$> cell a y x.
Proof. unfold fill. by rewrite cell_mapi. Qed.

Lemma cell_zeros_like a y x : cell (zeros_like a) y x = (λ _, 0) <$> cell a y x.
Proof. unfold zeros_like. by rewrite map_as_mapi, cell_mapi. Qed.

Lemma cell_astype_uint8 a y x : cell (astype_uint8 a) y x = uint8 <$> cell a y x.
Proof. unfold astype_uint8. by rewrite map_as_mapi, cell_mapi. Qed.

(** *** Every contour starts on a cell of the picture *)

Lemma follow_acc fuel f nbd i0 i1 i3 s ps acc :
  ∃ new, (follow fuel f nbd i0 i1 i3 s ps acc).2 = new ++ acc.
Proof.
  revert f i3 s ps acc. induction fuel as [|fuel IH]; intros f i3 s ps acc.
  - by exists [].
  - simpl. destruct (point_eqb _ i0 && point_eqb i3 i1).
    + simpl. by eexists [_].
    + edestruct IH as [new ->]. exists (new ++ [(i3, negb (search_ccw f i3 s 8 mod 8 =? ps))]).
      by rewrite <- app_assoc.
Qed.

Lemma fetch_head f nbd i0 is_hole :
  ∃ fl rest, (fetch f nbd i0 is_hole).2 = (i0, fl) :: rest.
Proof.
  unfold fetch. destruct (search_cw f i0 _ 7) as [s|]; [|by eexists _, _].
  replace (8 * length (flatten f) + 8)%nat
    with (S (8 * length (flatten f) + 7)) by lia.
  simpl. destruct (point_eqb _ i0 && point_eqb i0 _).
  - simpl. by eexists _, _.
  - match goal with |- context [follow ?n ?f' ?nbd' ?a ?b ?c ?d ?e ?acc] =>
      destruct (follow_acc n f' nbd' a b c d e acc) as [new Hnew];
      destruct (follow n f' nbd' a b c d e acc) as [f2 acc2] end.
    simpl in *. subst acc2. rewrite rev_app_distr. simpl. by eexists _, _.
Qed.

Lemma visit_starts a st lnbd p :
  p ∈ coords a →
  Forall (starts_in a) (sc_found st) →
  Forall (starts_in a) (sc_found (visit st lnbd p).1).
Proof.
  intros Hp Hst. unfold visit.
  destruct (at_ (sc_img st) p =? 0); [done|].
  assert (∀ is_hole l', Forall (starts_in a)
            ({| b_id := sc_nbd st + 1; b_hole := is_hole;
                b_parent := parent_of (sc_found st) is_hole l';
                b_trace := (fetch (sc_img st) (sc_nbd st + 1) p is_hole).2 |}
             :: sc_found st)) as Hnew.
  { intros is_hole l'. constructor; [|done].
    destruct (fetch_head (sc_img st) (sc_nbd st + 1) p is_hole) as (fl & rest & Hf).
    exists p, fl, rest. by split. }
  destruct ((at_ (sc_img st) p =? 1) && _); [apply Hnew|].
  destruct ((1 <=? at_ (sc_img st) p) && _); [apply Hnew|done].
Qed.

Lemma visit_all_starts a y sl xs :
  Forall (λ x, (x, y) ∈ coords a) xs →
  Forall (starts_in a) (sc_found sl.1) →
  Forall (starts_in a) (sc_found (visit_all y sl xs).1).
Proof.
  intros Hxs. revert sl. induction Hxs as [|x xs Hx _ IH]; intros sl H; [done|].
  simpl. apply IH. by apply visit_starts.
Qed.

Lemma rows_coords a y w x :
  (y, w) ∈ rows a → 0 ≤ x < Z.of_nat w → (x, y) ∈ coords a.
Proof.
  intros Hr Hx. apply elem_of_rows in Hr as (i & row & Hi & -> & ->).
  apply elem_of_coords. rewrite <- (Z2Nat.id x) by lia.
  rewrite (cell_lookup _ _ _ _ Hi). apply lookup_lt_is_Some. lia.
Qed.

Lemma scan_starts a : Forall (starts_in a) (sc_found (scan a)).
Proof.
  unfold scan.
  assert (∀ rs st, (∀ yr, yr ∈ rs → yr ∈ rows a) →
            Forall (starts_in a) (sc_found st) →
            Forall (starts_in a)
              (sc_found (foldl (λ st yr, scan_row st yr.1 yr.2) st rs))) as H.
  { induction rs as [|[y w] rs IH]; intros st Hrs Hst; [done|].
    simpl. apply IH; [intros yr Hyr; apply Hrs; by right|].
    unfold scan_row. apply (visit_all_starts a y (st, 1)); [|done].
    apply Forall_forall. intros x Hx. apply elem_of_seqZ in Hx.
    apply (rows_coords a y w); [apply Hrs; by left|lia]. }
  apply H; [done|constructor].
Qed.

(** A contour found with [CHAIN_APPROX_NONE] is not empty and its first
    point is a cell of the picture. *)
Lemma contours_start a mode c :
  mode = RETR_EXTERNAL ∨ mode = RETR_LIST →
  c ∈ findContours a mode CHAIN_APPROX_NONE →
  ∃ p rest, c = p :: rest ∧ p ∈ coords a.
Proof.
  intros Hmode Hc. unfold findContours in Hc.
  apply list_elem_of_fmap in Hc as (b & -> & Hb).
  assert (b ∈ sc_found (scan a)) as Hb'.
  { destruct Hmode as [-> | ->]; [|done].
    by apply list_elem_of_filter in Hb as [_ ?]. }
  pose proof (scan_starts a) as Hall. rewrite Forall_forall in Hall.
  destruct (Hall b Hb') as (p & fl & rest & Ht & Hp).
  exists p, (fst <$> rest). simpl. by rewrite Ht.
Qed.

Lemma on_segment_end p q : on_segment p (q, p) = true.
Proof.
  unfold on_segment. simpl.
  repeat (apply andb_true_intro; split);
    (apply Z.eqb_eq || apply Z.leb_le); lia.
Qed.

Lemma covers_first p rest : covers (p :: rest) p = true.
Proof.
  unfold covers, edges. simpl zip.
  cbn [existsb]. by rewrite on_segment_end.
Qed.

(** *** The greatest contour *)

Lemma max_by_area_in c0 cs : max_by_area c0 cs ∈ c0 :: cs.
Proof.
  unfold max_by_area. revert c0. induction cs as [|c cs IH]; intros c0; simpl.
  - by left.
  - destruct (Qlt_le_dec _ _).
    + right. apply IH.
    + specialize (IH c0). apply elem_of_cons in IH as [->|H]; [by left|].
      right. by right.
Qed.

Lemma max_by_area_cons c0 c1 cs :
  max_by_area c0 (c1 :: cs)
  = max_by_area (if Qlt_le_dec (contourArea c0) (contourArea c1)
                 then c1 else c0) cs.
Proof. reflexivity. Qed.

Lemma max_by_area_start c0 cs :
  (contourArea c0 <= contourArea (max_by_area c0 cs))%Q.
Proof.
  revert c0. induction cs as [|c1 cs IH]; intros c0; [apply Qle_refl|].
  rewrite max_by_area_cons. destruct (Qlt_le_dec _ _) as [Hlt|Hle]; [|apply IH].
  eapply Qle_trans; [apply Qlt_le_weak, Hlt|apply IH].
Qed.

Lemma max_by_area_ge c0 cs c :
  c ∈ c0 :: cs → (contourArea c <= contourArea (max_by_area c0 cs))%Q.
Proof.
  revert c0. induction cs as [|c1 cs IH]; intros c0 Hc.
  - apply elem_of_cons in Hc as [->|Hc]; [apply Qle_refl|].
    by apply elem_of_nil in Hc.
  - rewrite max_by_area_cons.
    apply elem_of_cons in Hc as [->|Hc]; [|apply elem_of_cons in Hc as [->|Hc]].
    + destruct (Qlt_le_dec _ _) as [Hlt|Hle]; [|apply max_by_area_start].
      eapply Qle_trans; [apply Qlt_le_weak, Hlt|apply max_by_area_start].
    + destruct (Qlt_le_dec _ _) as [Hlt|Hle]; [apply max_by_area_start|].
      eapply Qle_trans; [exact Hle|apply max_by_area_start].
    + apply IH. by right.
Qed.

(** *** The largest component *)

Lemma f_m_binary_all_zero mask :
  all_zero (f_m_binary mask) ↔ all_zero (astype_uint8 mask).
Proof.
  unfold all_zero, f_m_binary. rewrite Forall_fmap.
  apply Forall_proper; [|done]. intros row. simpl. rewrite Forall_fmap.
  apply Forall_proper; [|done]. intros v. simpl. unfold nonzero.
  destruct (Z.eqb_spec v 0); simpl; split; (done || lia).
Qed.

Lemma cell_f_m_binary mask y x :
  is_Some (cell (f_m_binary mask) y x) ↔ is_Some (cell mask y x).
Proof.
  unfold f_m_binary. rewrite map_as_mapi, cell_mapi, cell_astype_uint8.
  rewrite !fmap_is_Some. done.
Qed.

(** With a contour at hand, the result is the filled polygon of an
    external contour of greatest area, painted with 1 on zeros; that
    contour starts on a cell of the mask. *)
Lemma biggest_component mask :
  let contours :=
    findContours (f_m_binary mask) RETR_EXTERNAL CHAIN_APPROX_NONE in
  contours ≠ [] →
  ∃ p rest,
    p :: rest ∈ contours
    ∧ is_Some (cell mask p.2 p.1)
    ∧ (∀ c, c ∈ contours → (contourArea c <= contourArea (p :: rest))%Q)
    ∧ mask_biggest_connected_component mask
      = fill (zeros_like (f_m_binary mask)) (p :: rest) 1.
Proof.
  intros contours Hne. unfold mask_biggest_connected_component.
  fold contours. destruct contours as [|c0 cs] eqn:Hcs; [done|].
  pose proof (max_by_area_in c0 cs) as Hin.
  assert (max_by_area c0 cs ∈ findContours (f_m_binary mask) RETR_EXTERNAL
                                CHAIN_APPROX_NONE) as Hin'
    by (fold contours; by rewrite Hcs).
  apply contours_start in Hin' as (p & rest & Hb & Hp); [|by left].
  exists p, rest. rewrite <- Hb. repeat split; try done.
  - destruct p as [x y]. apply elem_of_coords in Hp. simpl.
    by apply cell_f_m_binary.
  - intros c Hc. by apply max_by_area_ge.
Qed.

(** C8, amended.  When the mask has no externally connected region (no
    non-zero cell) [mask_biggest_connected_component] returns its input
    unchanged.  Otherwise the result selects exactly the cells of the
    filled polygon of an external contour of greatest contour area, the
    cells of the holes it encloses included. *)
Theorem C8_largest_component (mask : image) :
  let contours :=
    findContours (f_m_binary mask) RETR_EXTERNAL CHAIN_APPROX_NONE in
  (contours = [] ↔ all_zero (astype_uint8 mask))
  ∧ (contours = [] → mask_biggest_connected_component mask = mask)
  ∧ (contours ≠ [] →
       ∃ biggest,
         biggest ∈ contours
         ∧ (∀ c, c ∈ contours → (contourArea c <= contourArea biggest)%Q)
         ∧ ∀ y x v, cell mask y x = Some v →
             get (mask_biggest_connected_component mask) y x
             = if covers biggest (x, y) then 1 else 0).
Proof.
  intros contours. split; [|split].
  - unfold contours. by rewrite findContours_external_nil, f_m_binary_all_zero.
  - intros H. unfold mask_biggest_connected_component. fold contours.
    by rewrite H.
  - intros Hne.
    destruct (biggest_component mask Hne) as (p & rest & Hin & _ & Hmax & Heq).
    exists (p :: rest). split; [done|]. split; [done|].
    intros y x v Hv. rewrite Heq. unfold get.
    rewrite cell_fill, cell_zeros_like.
    assert (is_Some (cell (f_m_binary mask) y x)) as [u ->]
      by (apply cell_f_m_binary; by eexists).
    done.
Qed.

(** C8 as stated fails: a ring of 8 selected cells around one unselected
    cell comes back as the full square of 9 selected cells. *)
Lemma C8_ring_comes_back_filled :
  let ring := [[0; 0; 0; 0; 0];
               [0; 255; 255; 255; 0];
               [0; 255; 0; 255; 0];
               [0; 255; 255; 255; 0];
               [0; 0; 0; 0; 0]] in
  count_nonzero ring = 8
  ∧ mask_biggest_connected_component ring
    = [[0; 0; 0; 0; 0];
       [0; 1; 1; 1; 0];
       [0; 1; 1; 1; 0];
       [0; 1; 1; 1; 0];
       [0; 0; 0; 0; 0]]
  ∧ count_nonzero (mask_biggest_connected_component ring) = 9.
Proof. vm_compute. repeat split. Qed.

(** C10.  When the mask has a connected region (a non-zero cell), every
    cell of the result of [mask_biggest_connected_component] is 0 or 1:
    the cells of the kept region are 1, at least one cell is 1, and the
    result is therefore not in the 0/255 encoding, whatever the encoding
    of the input. *)
Theorem C10_result_is_01 (mask : image) :
  ¬ all_zero (astype_uint8 mask) →
  let result := mask_biggest_connected_component mask in
  enc01 result
  ∧ (∃ kept,
       kept ∈ findContours (f_m_binary mask) RETR_EXTERNAL CHAIN_APPROX_NONE
       ∧ ∀ y x v, cell mask y x = Some v →
           (covers kept (x, y) = true → get result y x = 1)
           ∧ (covers kept (x, y) = false → get result y x = 0))
  ∧ (∃ y x, cell result y x = Some 1)
  ∧ ¬ enc0255 result.
Proof.
  intros Hnz result.
  assert (findContours (f_m_binary mask) RETR_EXTERNAL CHAIN_APPROX_NONE ≠ [])
    as Hne by by rewrite findContours_external_nil, f_m_binary_all_zero.
  destruct (biggest_component mask Hne) as (p & rest & Hin & Hp & _ & Heq).
  fold result in Heq.
  assert (∀ y x, cell result y x
            = (λ _, if covers (p :: rest) (x, y) then 1 else 0)
              <$> cell mask y x) as Hcell.
  { intros y x. rewrite Heq, cell_fill, cell_zeros_like.
    destruct (cell mask y x) as [v|] eqn:Hv.
    - assert (is_Some (cell (f_m_binary mask) y x)) as [u ->]
        by (apply cell_f_m_binary; by eexists).
      done.
    - destruct (cell (f_m_binary mask) y x) as [u|] eqn:Hu; [|done].
      assert (is_Some (cell mask y x)) as [w Hw]
        by (apply cell_f_m_binary; by eexists).
      congruence. }
  assert (cell result p.2 p.1 = Some 1) as Hone.
  { rewrite Hcell. destruct Hp as [v ->]. simpl.
    destruct p as [x y]. simpl. by rewrite covers_first. }
  split; [|split; [|split]].
  - apply Forall_lookup. intros i row Hr. apply Forall_lookup. intros j v Hv.
    pose proof (cell_lookup _ _ j _ Hr) as Hc. rewrite Hv, Hcell in Hc.
    destruct (cell mask (Z.of_nat i) (Z.of_nat j)); [|done].
    simpl in Hc. injection Hc as <-.
    destruct (covers _ _); auto.
  - exists (p :: rest). split; [done|]. intros y x v Hv.
    unfold get. rewrite Hcell, Hv. simpl.
    split; intros ->; done.
  - by exists p.2, p.1.
  - intros E. apply enc0255_two_valued in E.
    destruct (E _ _ _ Hone); discriminate.
Qed.

Lemma C10_result_is_01_witness :
  let mask := [[0; 0; 0; 0]; [0; 255; 255; 0]; [0; 255; 0; 0]; [0; 0; 0; 0]] in
  let result := mask_biggest_connected_component mask in
  enc01 result
  ∧ (∃ kept,
       kept ∈ findContours (f_m_binary mask) RETR_EXTERNAL CHAIN_APPROX_NONE
       ∧ ∀ y x v, cell mask y x = Some v →
           (covers kept (x, y) = true → get result y x = 1)
           ∧ (covers kept (x, y) = false → get result y x = 0))
  ∧ (∃ y x, cell result y x = Some 1)
  ∧ ¬ enc0255 result.
Proof.
  apply (C10_result_is_01
           [[0; 0; 0; 0]; [0; 255; 255; 0]; [0; 255; 0; 0]; [0; 0; 0; 0]]).
  unfold all_zero. apply (bool_decide_unpack _). vm_compute. exact I.
Defined.

End Contours.

(** ** Pruning by region *)

Section Prune.

Lemma pruned_true region c :
  pruned region c = true ↔
  (100 < contourArea c)%Q ∧ (Zq (centroid_y c) < region)%Q.
Proof.
  unfold pruned. destruct (Qlt_le_dec 100 _) as [Ha|Ha].
  - destruct (Qlt_le_dec _ region) as [Hc|Hc]; split; try done.
    intros [_ H]. exfalso. by apply (Qlt_irrefl region), (Qle_lt_trans _ _ _ Hc).
  - split; [done|]. intros [H _]. exfalso.
    by apply (Qlt_irrefl 100), (Qlt_le_trans _ _ _ H).
Qed.

(** A contour of area above 100 has a non-zero m00: the divisions of the
    loop do not fail. *)
Lemma area_m00 c : (100 < contourArea c)%Q → ¬ (m00 (moments c) == 0)%Q.
Proof.
  unfold contourArea, moments. intros Ha.
  destruct (Z.eqb_spec (a00 c) 0) as [E|E].
  - rewrite E in Ha. exfalso. revert Ha. vm_compute. discriminate.
  - simpl. rewrite Qred_correct. unfold Qeq. simpl. nia.
Qed.

Lemma delete_contour_pruned mask region c :
  delete_contour mask region c
  = Return (if pruned region c then fill mask c 0 else mask).
Proof.
  unfold delete_contour, pruned, centroid_y.
  destruct (Qlt_le_dec 100 (contourArea c)) as [Ha|Ha]; [|done].
  rewrite !py_div_nonzero by by apply area_m00. simpl.
  by destruct (Qlt_le_dec _ region).
Qed.

Lemma delete_contours_cells region cs mask :
  ∃ out, delete_contours mask region cs = Return out
    ∧ ∀ y x, cell out y x
        = (λ v, if existsb (λ c, pruned region c && covers c (x, y)) cs
                then 0 else v) <$> cell mask y x.
Proof.
  revert mask. induction cs as [|c cs IH]; intros mask.
  - exists mask. split; [done|]. intros y x. simpl. by destruct (cell mask y x).
  - simpl. rewrite delete_contour_pruned. simpl.
    destruct (IH (if pruned region c then fill mask c 0 else mask))
      as (out & -> & Hout).
    exists out. split; [done|]. intros y x. rewrite Hout.
    destruct (pruned region c); simpl.
    + rewrite cell_fill. destruct (cell mask y x); [simpl|done].
      destruct (covers c (x, y)); simpl; [|done].
      by destruct (existsb _ cs).
    + done.
Qed.

(** C7, amended.  [mask_delete_contour_in] always returns.  With the
    contours (outer and hole borders) of the mask, a cell becomes 0 when it
    lies in the filled polygon of a contour whose contour area exceeds 100
    and whose truncated centroid y is below [region]; a cell that lies in
    no such polygon keeps its value.  A contour of area at most 100 is
    never filled for itself. *)
Theorem C7_prune_by_region (mask : image) (region : Q) :
  let contours :=
    findContours (astype_uint8 mask) RETR_TREE CHAIN_APPROX_SIMPLE in
  ∃ out,
    mask_delete_contour_in mask region = Return out
    ∧ ∀ y x v, cell mask y x = Some v →
        ((∃ c, c ∈ contours ∧ (100 < contourArea c)%Q
               ∧ (Zq (centroid_y c) < region)%Q ∧ covers c (x, y) = true) →
           get out y x = 0)
        ∧ ((∀ c, c ∈ contours → (100 < contourArea c)%Q →
               (Zq (centroid_y c) < region)%Q → covers c (x, y) = false) →
             get out y x = uint8 v).
Proof.
  intros contours. unfold mask_delete_contour_in. fold contours.
  destruct (delete_contours_cells region contours (astype_uint8 mask))
    as (out & -> & Hout).
  exists out. split; [done|]. intros y x v Hv.
  unfold get. rewrite Hout, cell_astype_uint8, Hv. simpl. split.
  - intros (c & Hc & Ha & Hy & Hcov).
    assert (existsb (λ c, pruned region c && covers c (x, y)) contours = true)
      as ->; [|done].
    apply existsb_exists. exists c. split; [by apply list_elem_of_In|].
    rewrite Hcov, andb_true_r. by apply pruned_true.
  - intros Hnone.
    destruct (existsb _ contours) eqn:E; [|done]. exfalso.
    apply existsb_exists in E as (c & Hc & E).
    apply andb_true_iff in E as [Hp Hcov]. apply pruned_true in Hp as [Ha Hy].
    rewrite (Hnone c) in Hcov; [done|by apply list_elem_of_In|done|done].
Qed.

(** C7 as stated fails: the lone cell at (8, 8) is a region of contour
    area 0, yet it is erased together with the ring around it, whose outer
    contour has area 144 and centroid y = 8 < 16. *)
Lemma C7_small_region_inside_is_erased :
  let contours :=
    findContours ring_with_island RETR_TREE CHAIN_APPROX_SIMPLE in
  bool_decide ([(8, 8)] ∈ contours) = true
  ∧ contourArea [(8, 8)] = 0%Q
  ∧ bool_decide ([(2, 2); (2, 14); (14, 14); (14, 2)] ∈ contours) = true
  ∧ contourArea [(2, 2); (2, 14); (14, 14); (14, 2)] = 144%Q
  ∧ get ring_with_island 8 8 = 255
  ∧ (out ← mask_delete_contour_in ring_with_island 16; Return (get out 8 8))
    = Return 0.
Proof. vm_compute. repeat split. Qed.

End Prune.

(** ** Border following ends by itself *)

Section Following.

Lemma deltas_mod s : deltas (s mod 8) = deltas s.
Proof. unfold deltas. by rewrite Z.mod_mod by lia. Qed.

Lemma step_to_mod p s : step_to p (s mod 8) = step_to p s.
Proof. unfold step_to. by rewrite deltas_mod. Qed.

Lemma step_to_congr p s s' : s mod 8 = s' mod 8 → step_to p s = step_to p s'.
Proof. intros H. by rewrite <- (step_to_mod p s), H, step_to_mod. Qed.

Lemma step_to_period p s : step_to p (s + 8) = step_to p s.
Proof.
  apply step_to_congr. rewrite Z.add_mod by lia.
  change (8 mod 8) with 0. by rewrite Z.add_0_r, Z.mod_mod by lia.
Qed.

Lemma step_back p s : step_to (step_to p s) (s + 4) = p.
Proof.
  destruct p as [x y].
  rewrite <- (step_to_mod (x, y) s), <- (step_to_mod _ (s + 4)).
  rewrite Z.add_mod by lia. change (4 mod 8) with 4.
  assert (0 ≤ s mod 8 < 8) as Hr by (apply Z.mod_pos_bound; lia).
  set (r := s mod 8) in *.
  assert (r = 0 ∨ r = 1 ∨ r = 2 ∨ r = 3 ∨ r = 4 ∨ r = 5 ∨ r = 6 ∨ r = 7)
    as Hcases by lia.
  destruct Hcases as [->|[->|[->|[->|[->|[->|[->| ->]]]]]]];
    unfold step_to; simpl; f_equal; lia.
Qed.

(** What the counter-clockwise search returns. *)
Lemma search_ccw_spec f p s n :
  let r := search_ccw f p s n in
  s ≤ r ≤ s + Z.of_nat n
  ∧ (∀ d, s < d < r → lit f (step_to p d) = false)
  ∧ (lit f (step_to p r) = true ∧ s < r
     ∨ r = s + Z.of_nat n ∧ ∀ d, s < d ≤ r → lit f (step_to p d) = false).
Proof.
  revert s. induction n as [|n IH]; intros s; simpl.
  - split; [lia|]. split; [intros d Hd; lia|]. right. split; [lia|].
    intros d Hd. lia.
  - fold (lit f (step_to p (s + 1))).
    destruct (lit f (step_to p (s + 1))) eqn:E.
    + split; [lia|]. split; [intros d Hd; lia|]. left. split; [done|lia].
    + destruct (IH (s + 1)) as (Hr & Hz & Hc).
      split; [lia|]. split.
      * intros d Hd. destruct (decide (d = s + 1)) as [->|]; [done|].
        apply Hz. lia.
      * destruct Hc as [[Hl Hlt]|[Heq Hall]]; [left; split; [done|lia]|].
        right. split; [lia|]. intros d Hd.
        destruct (decide (d = s + 1)) as [->|]; [done|]. apply Hall. lia.
Qed.

(** From a cell entered from a non-zero cell the search finds a non-zero
    neighbour within a full turn. *)
Lemma search_ccw_valid f p s :
  lit f (step_to p s) = true →
  let r := search_ccw f p s 8 in
  s < r ≤ s + 8
  ∧ lit f (step_to p r) = true
  ∧ ∀ d, s < d < r → lit f (step_to p d) = false.
Proof.
  intros Hs. destruct (search_ccw_spec f p s 8) as (Hr & Hz & Hc).
  simpl in *. destruct Hc as [[Hl Hlt]|[Heq Hall]].
  - split; [lia|]. by split.
  - exfalso. specialize (Hall (s + 8)). rewrite step_to_period, Hs in Hall.
    assert (true = false) by (apply Hall; lia). done.
Qed.

Lemma lit_period f p d : lit f (step_to p (d + 8)) = lit f (step_to p d).
Proof. by rewrite step_to_period. Qed.

Lemma next_state_valid f x : valid_state f x → valid_state f (next_state f x).
Proof.
  destruct x as [p s]. intros (Hp & Hs & Hrange). cbn [fst snd] in *.
  destruct (search_ccw_valid f p s Hs) as (Hr & Hl & _).
  unfold next_state, valid_state. cbn [fst snd]. split; [done|]. split.
  - rewrite step_to_mod. rewrite <- (step_to_mod _ (_ + 4)).
    rewrite Z.add_mod_idemp_l by lia. rewrite step_to_mod.
    by rewrite step_back.
  - apply Z.mod_pos_bound. lia.
Qed.

(** The step is reversible: two states with the same successor are the
    same state. *)
Lemma next_state_inj f x x' :
  valid_state f x → valid_state f x' →
  next_state f x = next_state f x' → x = x'.
Proof.
  destruct x as [p s], x' as [p' s'].
  intros (Hp & Hs & Hrange) (Hp' & Hs' & Hrange'). cbn [fst snd] in *.
  unfold next_state. cbn [fst snd]. intros Heq.
  apply pair_equal_spec in Heq as [Hq Hdir].
  destruct (search_ccw_valid f p s Hs) as (Hr & Hl & Hz).
  destruct (search_ccw_valid f p' s' Hs') as (Hr' & Hl' & Hz').
  set (r := search_ccw f p s 8) in *. set (r' := search_ccw f p' s' 8) in *.
  assert (r mod 8 = r' mod 8) as Hmod.
  { assert (0 ≤ r mod 8 < 8) by (apply Z.mod_pos_bound; lia).
    assert (0 ≤ r' mod 8 < 8) by (apply Z.mod_pos_bound; lia).
    assert (∀ a, 0 ≤ a < 8 → (a + 4) mod 8 = if a <? 4 then a + 4 else a - 4)
      as Hplus.
    { intros a Ha. destruct (Z.ltb_spec a 4).
      - apply Z.mod_small. lia.
      - rewrite <- (Z.mod_small (a - 4) 8) by lia.
        replace (a + 4) with (a - 4 + 1 * 8) by lia.
        by rewrite Z.mod_add by lia. }
    rewrite !Hplus in Hdir by done.
    destruct (r mod 8 <? 4) eqn:E1, (r' mod 8 <? 4) eqn:E2;
      apply Z.ltb_lt in E1 || apply Z.ltb_ge in E1;
      apply Z.ltb_lt in E2 || apply Z.ltb_ge in E2; lia. }
  assert (p = p') as <-.
  { rewrite <- (step_back p r), <- (step_back p' r'), Hq.
    apply step_to_congr. rewrite (Z.add_mod r), (Z.add_mod r') by lia.
    by rewrite Hmod. }
  f_equal.
  assert (∀ a b ra rb,
            0 ≤ a < 8 → 0 ≤ b < 8 → a < b →
            a < ra ≤ a + 8 → b < rb ≤ b + 8 →
            lit f (step_to p a) = true → lit f (step_to p b) = true →
            (∀ d, a < d < ra → lit f (step_to p d) = false) →
            (∀ d, b < d < rb → lit f (step_to p d) = false) →
            ra mod 8 = rb mod 8 → False) as Hcross.
  { intros a b ra rb Ha Hb Hab Hra Hrb La Lb Za Zb Hm.
    assert (ra ≤ b) as H1.
    { destruct (Z.le_gt_cases ra b); [done|].
      rewrite Za in Lb by lia. done. }
    assert (rb ≤ a + 8) as H2.
    { destruct (Z.le_gt_cases rb (a + 8)); [done|].
      specialize (Zb (a + 8)). rewrite lit_period, La in Zb.
      assert (true = false) by (apply Zb; lia). done. }
    assert (rb = ra + (rb - ra)) as Hsplit by lia.
    assert (0 < rb - ra < 8) as Hgap by lia.
    rewrite Hsplit in Hm.
    assert ((rb - ra) mod 8 = 0) as H0.
    { rewrite <- (Z.mod_small 0 8) by lia.
      replace (rb - ra) with (ra + (rb - ra) - ra) by lia.
      rewrite Zminus_mod, <- Hm, Z.sub_diag. done. }
    rewrite Z.mod_small in H0 by lia. lia. }
  destruct (Z.lt_trichotomy s s') as [Hlt|[Heq|Hgt]]; [exfalso|done|exfalso].
  - by apply (Hcross s s' r r').
  - by apply (Hcross s' s r' r).
Qed.

(** *** A reversible step on finitely many states comes back *)

Section Orbit.
Context {A : Type} `{EqDecision A}.
Variable T : A → A.
Variable V : A → Prop.
Hypothesis T_V : ∀ x, V x → V (T x).
Hypothesis T_inj : ∀ x y, V x → V y → T x = T y → x = y.

Lemma iter_V x (n : nat) : V x → V (Nat.iter n T x).
Proof. intros Hx. induction n as [|n IH]; simpl; auto. Qed.

Lemma iter_back x (i j : nat) :
  V x → (i ≤ j)%nat → Nat.iter j T x = Nat.iter i T x →
  Nat.iter (j - i) T x = x.
Proof.
  intros Hx. revert j. induction i as [|i IH]; intros j Hij Heq.
  - by rewrite Nat.sub_0_r.
  - destruct j as [|j]; [lia|]. simpl in Heq.
    apply T_inj in Heq; [|by apply iter_V..].
    simpl. apply IH; [lia|done].
Qed.

Lemma orbit_returns_or_nodup x (m : nat) :
  V x →
  (∃ n : nat, (1 ≤ n ≤ m)%nat ∧ Nat.iter n T x = x)
  ∨ NoDup ((λ k, Nat.iter k T x) <$> seq 0 (S m)).
Proof.
  intros Hx. induction m as [|m [(n & Hn & Hret)|Hnd]].
  - right. simpl. apply NoDup_singleton.
  - left. exists n. split; [lia|done].
  - destruct (decide (Nat.iter (S m) T x
                      ∈ (λ k, Nat.iter k T x) <$> seq 0 (S m))) as [Hin|Hnin].
    + left. apply list_elem_of_fmap in Hin as (i & Hi & Hiseq).
      apply elem_of_seq in Hiseq.
      exists (S m - i)%nat. split; [lia|].
      apply iter_back; [done|lia|done].
    + right. rewrite seq_S, fmap_app.
      apply NoDup_app. split; [done|]. split.
      * intros y Hy Hy'. apply list_elem_of_fmap in Hy' as (k & -> & Hk).
        apply list_elem_of_singleton in Hk as ->. done.
      * apply (NoDup_singleton (Nat.iter (0 + S m) T x)).
Qed.

Lemma orbit_returns x (U : list A) :
  V x → (∀ y, V y → y ∈ U) →
  ∃ n : nat, (1 ≤ n ≤ length U)%nat ∧ Nat.iter n T x = x.
Proof.
  intros Hx HU.
  destruct (orbit_returns_or_nodup x (length U) Hx) as [H|Hnd]; [done|].
  exfalso.
  assert ((λ k, Nat.iter k T x) <$> seq 0 (S (length U)) ⊆+ U) as Hsub.
  { apply NoDup_submseteq; [done|]. intros y Hy.
    apply list_elem_of_fmap in Hy as (k & -> & _). apply HU. by apply iter_V. }
  apply submseteq_length in Hsub. rewrite length_fmap, length_seq in Hsub. lia.
Qed.

End Orbit.

(** *** The labels written while following keep the non-zero cells *)

Lemma lit_coords f p : lit f p = true → p ∈ coords f.
Proof.
  destruct p as [x y]. unfold lit, nonzero, at_, get. simpl.
  rewrite elem_of_coords. destruct (cell f y x); [by eexists|done].
Qed.

Lemma cell_put f p v y x :
  0 ≤ p.1 → 0 ≤ p.2 →
  cell (put f p v) y x
  = if decide ((x, y) = p) then (λ _, v) <$> cell f y x else cell f y x.
Proof.
  destruct p as [px py]. simpl. intros Hpx Hpy. unfold cell, put. simpl.
  case_bool_decide as Hxy; [|by case_decide].
  rewrite list_lookup_alter.
  destruct (decide ((x, y) = (px, py))) as [[= -> ->]|Hne].
  - rewrite decide_True by done.
    destruct (f !! Z.to_nat py) as [row|]; [simpl|done].
    rewrite list_lookup_insert. case_decide as Hlen.
    + destruct Hlen as [_ Hlen].
      by destruct (lookup_lt_is_Some_2 row (Z.to_nat px) Hlen) as [u ->].
    + assert (row !! Z.to_nat px = None) as ->; [|done].
      apply lookup_ge_None. lia.
  - case_decide as Hy; [|done].
    rewrite Hy. destruct (f !! Z.to_nat y) as [row|]; [simpl|done].
    rewrite list_lookup_insert. case_decide as Hx; [|done].
    destruct Hx as [Hx _]. destruct Hne. f_equal; lia.
Qed.

Lemma lit_put f p v q :
  lit f p = true → v ≠ 0 → lit (put f p v) q = lit f q.
Proof.
  intros Hp Hv. pose proof (lit_coords f p Hp) as Hc.
  destruct p as [px py]. apply elem_of_coords in Hc as [u Hu].
  apply cell_Some in Hu as (Hy & Hx & _).
  destruct q as [x y]. unfold lit, at_, get in *. simpl in *.
  rewrite cell_put by done. case_decide as Hq; [|done].
  injection Hq as -> ->.
  destruct (cell f py px) as [w|]; [|done]. simpl in *.
  rewrite Hp. unfold nonzero. by destruct (Z.eqb_spec v 0).
Qed.

Lemma search_ccw_ext f f' p s n :
  (∀ q, lit f q = lit f' q) → search_ccw f p s n = search_ccw f' p s n.
Proof.
  intros H. revert s. induction n as [|n IH]; intros s; [done|].
  simpl. fold (lit f (step_to p (s + 1))) (lit f' (step_to p (s + 1))).
  rewrite H, IH. done.
Qed.

(** Once the loop is known to end within the fuel, more fuel changes
    nothing. *)
Lemma follow_stable f0 nbd i0 i1 :
  nbd ≠ 0 →
  ∀ (n : nat) f x ps acc,
    (∀ q, lit f q = lit f0 q) → valid_state f0 x →
    (∃ k : nat, (k < n)%nat
        ∧ exits f0 i0 i1 (Nat.iter k (next_state f0) x) = true) →
    ∀ m : nat,
      follow (n + m) f nbd i0 i1 x.1 x.2 ps acc
      = follow n f nbd i0 i1 x.1 x.2 ps acc.
Proof.
  intros Hnbd. induction n as [|n IH]; intros f x ps acc Hlit Hx (k & Hk & Hex) m;
    [lia|].
  destruct x as [i3 s]. cbn [fst snd].
  change (S n + m)%nat with (S (n + m)).
  cbn [follow].
  rewrite (search_ccw_ext f f0) by done.
  set (s4 := search_ccw f0 i3 s 8) in *.
  destruct (point_eqb (step_to i3 s4) i0 && point_eqb i3 i1) eqn:E; [done|].
  destruct k as [|k].
  { change (exits f0 i0 i1 (i3, s) = true) in Hex. unfold exits in Hex.
    cbn [fst snd] in Hex. fold s4 in Hex. congruence. }
  rewrite Nat.iter_succ_r in Hex.
  apply (IH _ (next_state f0 (i3, s))); [|by apply next_state_valid|].
  - destruct Hx as (Hl3 & _ & _). simpl in Hl3. rewrite <- Hlit in Hl3.
    intros q. rewrite <- Hlit.
    destruct ((1 <=? s4 mod 8) && (s4 mod 8 - 1 <? s));
      [apply lit_put; [done|lia]|].
    destruct (at_ f i3 =? 1); [by apply lit_put|done].
  - exists k. split; [lia|done].
Qed.

Lemma length_coords f : length (coords f) = length (flatten f).
Proof.
  unfold coords, flatten. rewrite !length_concat. f_equal.
  apply list_eq. intros i. rewrite !list_lookup_fmap, list_lookup_imap.
  destruct (f !! i) as [row|]; [simpl|done].
  by rewrite length_fmap, length_seqZ, Nat2Z.id.
Qed.

(** The fuel that [fetch] hands to the loop is enough: from a start on a
    non-zero cell with a non-zero neighbour, the loop stops by itself, and
    any further fuel gives the same border. *)
Lemma follow_fuel f nbd i0 s0 ps acc (extra : nat) :
  nbd ≠ 0 → valid_state f (i0, s0) →
  follow (8 * length (flatten f) + 8 + extra) f nbd i0 (step_to i0 s0)
         i0 s0 ps acc
  = follow (8 * length (flatten f) + 8) f nbd i0 (step_to i0 s0)
           i0 s0 ps acc.
Proof.
  intros Hnbd Hv.
  apply (follow_stable f nbd i0 (step_to i0 s0) Hnbd _ f (i0, s0)); [done|done|].
  destruct (orbit_returns (next_state f) (valid_state f)
              (next_state_valid f) (next_state_inj f) (i0, s0)
              (list_prod (coords f) (seqZ 0 8)) Hv) as (n & Hn & Hret).
  { intros [p s] (Hp & _ & Hs). simpl in *. apply list_elem_of_In.
    apply in_prod; apply list_elem_of_In; [by apply lit_coords|].
    apply elem_of_seqZ. lia. }
  rewrite length_prod, length_coords, length_seqZ in Hn.
  destruct n as [|k]; [lia|]. exists k. split; [lia|].
  simpl in Hret.
  pose proof (iter_V (next_state f) (valid_state f) (next_state_valid f)
                (i0, s0) k Hv) as Hvk.
  destruct (Nat.iter k (next_state f) (i0, s0)) as [p s].
  destruct Hvk as (_ & Hs & _). cbn [fst snd] in Hs.
  destruct (search_ccw_valid f p s Hs) as (Hr & _ & _).
  unfold next_state in Hret. cbn [fst snd] in Hret.
  apply pair_equal_spec in Hret as [Hq Hdir].
  unfold exits. cbn [fst snd]. rewrite Hq.
  assert (p = step_to i0 s0) as ->.
  { rewrite <- (step_back p (search_ccw f p s 8)), Hq.
    apply step_to_congr. rewrite <- Hdir.
    rewrite Z.mod_mod by lia. by rewrite Z.add_mod_idemp_l by lia. }
  unfold point_eqb. by rewrite !Z.eqb_refl.
Qed.

Lemma search_cw_valid f p s n s' :
  search_cw f p s n = Some s' → lit f (step_to p s') = true ∧ 0 ≤ s' < 8.
Proof.
  revert s. induction n as [|n IH]; intros s; [done|]. simpl.
  destruct (nonzero (at_ f (step_to p ((s - 1) mod 8)))) eqn:E.
  - intros [= <-]. split; [done|]. apply Z.mod_pos_bound. lia.
  - apply IH.
Qed.

(** The loop that [fetch] starts on a non-zero cell [i0] with a non-zero
    neighbour ends within the fuel it is given: with any further fuel the
    same picture and the same border come out. *)
Theorem fetch_fuel_suffices f nbd i0 s_end s (extra : nat) :
  nbd ≠ 0 → lit f i0 = true → search_cw f i0 s_end 7 = Some s →
  follow (8 * length (flatten f) + 8 + extra) f nbd i0 (step_to i0 s) i0 s
         (Z.lxor s 4) []
  = follow (8 * length (flatten f) + 8) f nbd i0 (step_to i0 s) i0 s
           (Z.lxor s 4) [].
Proof.
  intros Hnbd Hlit Hs. apply search_cw_valid in Hs as [Hn Hr].
  by apply follow_fuel.
Qed.

Lemma fetch_fuel_suffices_witness :
  follow (8 * length (flatten [[1; 1]; [0; 1]]) + 8 + 5) [[1; 1]; [0; 1]] 2
         (0, 0) (step_to (0, 0) 0) (0, 0) 0 (Z.lxor 0 4) []
  = follow (8 * length (flatten [[1; 1]; [0; 1]]) + 8) [[1; 1]; [0; 1]] 2
           (0, 0) (step_to (0, 0) 0) (0, 0) 0 (Z.lxor 0 4) [].
Proof.
  apply (fetch_fuel_suffices [[1; 1]; [0; 1]] 2 (0, 0) 4 0 5);
    [lia | reflexivity | reflexivity].
Defined.

End Following.

(* ================================================================== *)
(** * Further properties of the scorer *)

Section Report.

(** Past the test of line 34 the report is a function of the counts. *)
Lemma mask_evaluation_report mask likelihood :
  let c := confusion mask likelihood in
  cN c ≠ 0 → cP c ≠ 0 →
  mask_evaluation mask likelihood
  = Return (report c (Sk.cohen_kappa_score
                        (flatten (astype_uint8 likelihood)) (flatten mask))).
Proof.
  intros c HN HP. unfold mask_evaluation, report. fold c.
  assert (0 ≤ cP c ∧ 0 ≤ cN c ∧ 0 ≤ cfn c ∧ 0 ≤ ctp c ∧ 0 ≤ cfp c)
    as (HP' & HN' & Hfn & Htp & Hfp)
    by (unfold c, confusion; simpl; repeat split; apply count_nonzero_nonneg).
  clearbody c.
  destruct (Z.eqb_spec (cN c) 0) as [?|_]; [done|].
  destruct (Z.eqb_spec (cP c) 0) as [?|_]; [done|]. simpl.
  rewrite !py_div_nonzero by (apply Zq_nonzero; lia). simpl.
  set (FN := Qred (Zq (cfn c) / Zq (cP c))).
  set (TP := Qred (Zq (ctp c) / Zq (cP c))).
  set (FP := Qred (Zq (cfp c) / Zq (cN c))).
  assert (0 <= FN)%Q by (apply Qred_div_nonneg; [by apply Zq_nonneg|apply Zq_pos; lia]).
  assert (0 <= TP)%Q by (apply Qred_div_nonneg; [by apply Zq_nonneg|apply Zq_pos; lia]).
  assert (0 <= FP)%Q by (apply Qred_div_nonneg; [by apply Zq_nonneg|apply Zq_pos; lia]).
  assert ((if neq0 TP || neq0 FN then py_div TP (TP + FN) else Return 0%Q)
          = Return (share TP FN) ∧ (0 <= share TP FN)%Q) as [-> Hr].
  { unfold share. destruct (neq0 TP || neq0 FN) eqn:E; [|done].
    pose proof (sum_nonzero _ _ H0 H E) as Hs.
    rewrite py_div_nonzero by by apply Qpos_nonzero.
    split; [done|]. by apply Qred_div_nonneg. }
  simpl.
  assert ((if neq0 TP || neq0 FP then py_div TP (TP + FP) else Return 0%Q)
          = Return (share TP FP) ∧ (0 <= share TP FP)%Q) as [-> Hp].
  { unfold share. destruct (neq0 TP || neq0 FP) eqn:E; [|done].
    pose proof (sum_nonzero _ _ H0 H1 E) as Hs.
    rewrite py_div_nonzero by by apply Qpos_nonzero.
    split; [done|]. by apply Qred_div_nonneg. }
  simpl.
  destruct (neq0 (share TP FP) || neq0 (share TP FN)) eqn:E; [|done].
  rewrite py_div_nonzero by by apply Qpos_nonzero, sum_nonzero.
  simpl. done.
Qed.

Lemma report_rates c kappa :
  report c kappa !! "FN" = Some (Fin (Qred (Zq (cfn c) / Zq (cP c))))
  ∧ report c kappa !! "TP" = Some (Fin (Qred (Zq (ctp c) / Zq (cP c))))
  ∧ report c kappa !! "FP" = Some (Fin (Qred (Zq (cfp c) / Zq (cN c))))
  ∧ report c kappa !! "Recall"
    = Some (Fin (share (Qred (Zq (ctp c) / Zq (cP c)))
                       (Qred (Zq (cfn c) / Zq (cP c)))))
  ∧ report c kappa !! "Precision"
    = Some (Fin (share (Qred (Zq (ctp c) / Zq (cP c)))
                       (Qred (Zq (cfp c) / Zq (cN c))))).
Proof.
  unfold report.
  destruct (neq0 _ || neq0 _); repeat split; reflexivity.
Qed.

Lemma returns_counts mask likelihood stats :
  mask_evaluation mask likelihood = Return stats →
  ∃ c, c = confusion mask likelihood
  ∧ 0 < cN c ∧ 0 < cP c ∧ 0 ≤ ctp c ∧ 0 ≤ cfn c ∧ 0 ≤ cfp c
  ∧ stats = report c (Sk.cohen_kappa_score
                        (flatten (astype_uint8 likelihood)) (flatten mask)).
Proof.
  intros Hret. exists (confusion mask likelihood). split; [done|].
  set (c := confusion mask likelihood).
  assert (0 ≤ cP c ∧ 0 ≤ cN c ∧ 0 ≤ cfn c ∧ 0 ≤ ctp c ∧ 0 ≤ cfp c)
    as (HP' & HN' & Hfn & Htp & Hfp)
    by (unfold c, confusion; simpl; repeat split; apply count_nonzero_nonneg).
  assert (¬ (cN c = 0 ∨ cP c = 0)) as Hne.
  { intros Hor. apply (mask_evaluation_raises mask likelihood) in Hor.
    by rewrite Hret in Hor. }
  rewrite mask_evaluation_report in Hret by (fold c; lia).
  injection Hret as <-. repeat split; try lia. 
Qed.

Lemma tp_fn_split mask likelihood h w :
  shape mask h w → shape likelihood h w → same_encoding mask likelihood →
  let c := confusion mask likelihood in
  ctp c + cfn c = cP c.
Proof.
  intros Hm Hl Henc. unfold confusion. simpl.
  assert (is_uint8 likelihood) as Hu
    by (destruct Henc as [[_ E]|[_ E]];
        [by apply enc01_uint8|by apply enc0255_uint8]).
  rewrite (astype_uint8_id likelihood) by done.
  pose proof (shape_rows _ _ _ _ Hm Hl) as Hml.
  rewrite !count_nonzero_cnt, flatten_and_not by done.
  unfold bitwise_and. rewrite flatten_zip_with by done.
  destruct Henc as [[Em El]|[Em El]]; apply flatten_Forall in Em, El.
  - apply (cnt_split _ _ _ _ _ _ (flatten_length _ _ Hml) Em El).
    intros x y Hx Hy. by apply and_split_01.
  - apply (cnt_split _ _ _ _ _ _ (flatten_length _ _ Hml) Em El).
    intros x y Hx Hy. by apply and_split_0255.
Qed.

Lemma Zq_plus a b : (Zq (a + b) == Zq a + Zq b)%Q.
Proof. unfold Zq. by rewrite inject_Z_plus. Qed.

Lemma Zq_mult a b : (Zq (a * b) == Zq a * Zq b)%Q.
Proof. unfold Zq. by rewrite inject_Z_mult. Qed.

Lemma share_pos a b : (0 < a)%Q → (0 <= b)%Q → (share a b == a / (a + b))%Q.
Proof.
  intros Ha Hb. unfold share.
  assert (neq0 a = true) as -> by (apply neq0_true; by apply Qpos_nonzero).
  simpl. apply Qred_correct.
Qed.

Lemma share_zero b : (share (Qred 0) b = 0)%Q.
Proof.
  unfold share. destruct (neq0 (Qred 0) || neq0 b); [|done].
  change 0%Q with (Qred 0) at 3. apply Qred_complete.
  change (Qred 0) with 0%Q. unfold Qdiv. by rewrite Qmult_0_l.
Qed.

(** When the two masks are stored in one encoding, the rates "TP" and "FN"
    of the report add up to 1, and "Recall", computed as TP / (TP + FN),
    is the rate "TP" itself: the share tp / P of the selected cells of the
    reference that the candidate selects. *)
Theorem recall_is_the_tp_rate mask likelihood h w stats :
  shape mask h w → shape likelihood h w → same_encoding mask likelihood →
  mask_evaluation mask likelihood = Return stats →
  let c := confusion mask likelihood in
  ∃ tp fn recall : Q,
    stats !! "TP" = Some (Fin tp)
    ∧ stats !! "FN" = Some (Fin fn)
    ∧ stats !! "Recall" = Some (Fin recall)
    ∧ (tp == Zq (ctp c) / Zq (cP c))%Q
    ∧ (tp + fn == 1)%Q
    ∧ (recall == tp)%Q
    ∧ (0 <= recall)%Q ∧ (recall <= 1)%Q.
Proof.
  intros Hm Hl Henc Hret. cbv zeta.
  pose proof (tp_fn_split mask likelihood h w Hm Hl Henc) as Hsplit.
  cbv zeta in Hsplit.
  destruct (returns_counts _ _ _ Hret)
    as (c & Hc & HN & HP & Htp & Hfn & Hfp & Hst).
  rewrite <- Hc in Hsplit |- *. rewrite Hst. clear Hst Hret Hc.
  destruct (report_rates c (Sk.cohen_kappa_score
    (flatten (astype_uint8 likelihood)) (flatten mask)))
    as (E1 & E2 & _ & E4 & _).
  eexists _, _, _. split; [exact E2|]. split; [exact E1|]. split; [exact E4|].
  set (TP := Qred (Zq (ctp c) / Zq (cP c))).
  set (FN := Qred (Zq (cfn c) / Zq (cP c))).
  pose proof (Zq_pos _ HP) as HPq.
  assert (TP == Zq (ctp c) / Zq (cP c))%Q as ETP by apply Qred_correct.
  assert (FN == Zq (cfn c) / Zq (cP c))%Q as EFN by apply Qred_correct.
  assert (TP + FN == 1)%Q as Hsum.
  { assert (Zq (ctp c) + Zq (cfn c) == Zq (cP c))%Q as Hq
      by by rewrite <- Zq_plus, Hsplit.
    rewrite ETP, EFN.
    assert (Zq (ctp c) / Zq (cP c) + Zq (cfn c) / Zq (cP c)
            == (Zq (ctp c) + Zq (cfn c)) / Zq (cP c))%Q as ->
      by (field; by apply Qpos_nonzero).
    rewrite Hq. field. by apply Qpos_nonzero. }
  assert (0 <= TP)%Q as HTP0
    by (apply Qred_div_nonneg; [by apply Zq_nonneg|done]).
  assert (0 <= FN)%Q as HFN0
    by (apply Qred_div_nonneg; [by apply Zq_nonneg|done]).
  assert (share TP FN == TP)%Q as Hshare.
  { unfold share.
    destruct (neq0 TP || neq0 FN) eqn:E.
    - rewrite Qred_correct, Hsum. field.
    - apply orb_false_iff in E as [E1' E2'].
      apply neq0_false in E1', E2'. rewrite E1', E2' in Hsum. lra. }
  split; [done|]. split; [done|]. split; [done|].
  rewrite Hshare. split; [done|]. lra.
Qed.

Lemma recall_is_the_tp_rate_witness :
  let mask := [[255; 255]; [0; 0]] in
  let likelihood := [[255; 0]; [255; 0]] in
  let stats := report_of (mask_evaluation mask likelihood) in
  let c := confusion mask likelihood in
  ∃ tp fn recall : Q,
    stats !! "TP" = Some (Fin tp)
    ∧ stats !! "FN" = Some (Fin fn)
    ∧ stats !! "Recall" = Some (Fin recall)
    ∧ (tp == Zq (ctp c) / Zq (cP c))%Q
    ∧ (tp + fn == 1)%Q
    ∧ (recall == tp)%Q
    ∧ (0 <= recall)%Q ∧ (recall <= 1)%Q.
Proof.
  apply (recall_is_the_tp_rate [[255; 255]; [0; 0]] [[255; 0]; [255; 0]] 2 2);
    [by_compute | by_compute | right; split; by_compute
    | vm_compute; reflexivity].
Defined.





Lemma share_nonzero a b : (0 < a)%Q → (0 <= b)%Q → neq0 (share a b) = true.
Proof.
  intros Ha Hb. apply neq0_true. rewrite share_pos by done.
  apply Qpos_nonzero. apply Qlt_shift_div_l; lra.
Qed.

(** The report is the short one, with "Precision" and "Recall" at 0 and
    without "F1", "accuracy" and "cohen_kappa", exactly when the candidate
    selects no selected cell of the reference (tp = 0). *)
Theorem short_report_iff_no_true_positive mask likelihood stats :
  mask_evaluation mask likelihood = Return stats →
  let c := confusion mask likelihood in
  (ctp c = 0 →
     stats !! "Precision" = Some (Fin 0) ∧ stats !! "Recall" = Some (Fin 0)
     ∧ stats !! "F1" = None ∧ stats !! "accuracy" = None
     ∧ stats !! "cohen_kappa" = None)
  ∧ (0 < ctp c →
     is_Some (stats !! "F1") ∧ is_Some (stats !! "accuracy")
     ∧ is_Some (stats !! "cohen_kappa")).
Proof.
  intros Hret. cbv zeta.
  destruct (returns_counts _ _ _ Hret)
    as (c & Hc & HN & HP & Htp & Hfn & Hfp & Hst).
  rewrite <- Hc, Hst. clear Hst Hret Hc.
  pose proof (Zq_pos _ HP) as HPq. pose proof (Zq_pos _ HN) as HNq.
  unfold report. split.
  - intros ->. change (Zq 0 / Zq (cP c))%Q with (0 / Zq (cP c))%Q.
    assert (Qred (0 / Zq (cP c)) = Qred 0) as ->
      by (apply Qred_complete; unfold Qdiv; by rewrite Qmult_0_l).
    rewrite !share_zero. simpl. repeat split; reflexivity.
  - intros Hpos.
    pose proof (Zq_pos _ Hpos) as Htq.
    assert (0 < Qred (Zq (ctp c) / Zq (cP c)))%Q as HTP.
    { rewrite Qred_correct. apply Qlt_shift_div_l; [done|]. lra. }
    rewrite (share_nonzero _ (Qred (Zq (cfp c) / Zq (cN c)))); [|done|].
    2:{ apply Qred_div_nonneg; [by apply Zq_nonneg|done]. }
    simpl. repeat split; by eexists.
Qed.

Lemma short_report_iff_no_true_positive_witness :
  let mask := [[0; 0]; [0; 255]] in
  let likelihood := [[255; 255]; [0; 0]] in
  let stats := report_of (mask_evaluation mask likelihood) in
  let c := confusion mask likelihood in
  (ctp c = 0 →
     stats !! "Precision" = Some (Fin 0) ∧ stats !! "Recall" = Some (Fin 0)
     ∧ stats !! "F1" = None ∧ stats !! "accuracy" = None
     ∧ stats !! "cohen_kappa" = None)
  ∧ (0 < ctp c →
     is_Some (stats !! "F1") ∧ is_Some (stats !! "accuracy")
     ∧ is_Some (stats !! "cohen_kappa")).
Proof.
  apply (short_report_iff_no_true_positive
           [[0; 0]; [0; 255]] [[255; 255]; [0; 0]]).
  vm_compute. reflexivity.
Defined.

Lemma count_where_nonneg {A} (P : A → bool) l : 0 ≤ Sk.count_where P l.
Proof. unfold Sk.count_where. lia. Qed.

Lemma count_where_cons {A} (P : A → bool) x l :
  Sk.count_where P (x :: l) = (if P x then 1 else 0) + Sk.count_where P l.
Proof.
  unfold Sk.count_where. rewrite filter_cons.
  destruct (P x); case_decide; try done; simpl length; lia.
Qed.


Lemma count_where_none {A} (P : A → bool) l :
  (∀ x, x ∈ l → P x = false) → Sk.count_where P l = 0.
Proof.
  induction l as [|x l IH]; intros H; [done|].
  rewrite count_where_cons, IH, (H x) by (intros; try apply H; set_solver).
  done.
Qed.

Lemma count_where_pos {A} (P : A → bool) l x :
  x ∈ l → P x = true → 0 < Sk.count_where P l.
Proof.
  intros Hx HP. induction Hx as [x l|x y l Hx IH].
  - rewrite count_where_cons, HP. pose proof (count_where_nonneg P l). lia.
  - specialize (IH HP). rewrite count_where_cons. destruct (P y); lia.
Qed.

Lemma sumZ_cons x l : Sk.sumZ (x :: l) = x + Sk.sumZ l.
Proof. reflexivity. Qed.

Lemma sumZ_nonneg {A} (f : A → Z) l :
  (∀ x, x ∈ l → 0 ≤ f x) → 0 ≤ Sk.sumZ (map f l).
Proof.
  induction l as [|x l IH]; intros H; [done|].
  simpl map. rewrite sumZ_cons.
  assert (0 ≤ f x) by (apply H; set_solver).
  assert (0 ≤ Sk.sumZ (map f l)) by (apply IH; intros; apply H; set_solver).
  lia.
Qed.

Lemma sumZ_ge {A} (f : A → Z) l x :
  (∀ x, x ∈ l → 0 ≤ f x) → x ∈ l → f x ≤ Sk.sumZ (map f l).
Proof.
  intros H Hx. induction Hx as [x l|x y l Hx IH]; simpl map; rewrite sumZ_cons.
  - assert (0 ≤ Sk.sumZ (map f l))
      by (apply sumZ_nonneg; intros; apply H; set_solver). lia.
  - assert (0 ≤ f y) by (apply H; set_solver).
    assert (f x ≤ Sk.sumZ (map f l)) by (apply IH; intros; apply H; set_solver).
    lia.
Qed.

Lemma sumZ_zero {A} (f : A → Z) l :
  (∀ x, x ∈ l → f x = 0) → Sk.sumZ (map f l) = 0.
Proof.
  induction l as [|x l IH]; intros H; [done|].
  simpl map. rewrite sumZ_cons, IH, (H x) by (intros; try apply H; set_solver).
  done.
Qed.

Lemma elem_of_zip_diag {A} (l : list A) p : p ∈ zip l l → p.1 = p.2 ∧ p.1 ∈ l.
Proof.
  induction l as [|x l IH]; simpl; [by intros ?%elem_of_nil|].
  intros [->|H]%elem_of_cons; [split; [done|by left]|].
  destruct (IH H). split; [done|by right].
Qed.

Lemma elem_of_unique_labels x l : x ∈ Sk.unique_labels l l ↔ x ∈ l.
Proof.
  unfold Sk.unique_labels. rewrite elem_of_remove_dups, elem_of_app. tauto.
Qed.

(** Cohen's kappa of a labelling with itself is 1 when two labels occur. *)
Lemma cohen_kappa_self l i j :
  i ∈ l → j ∈ l → i ≠ j → Sk.cohen_kappa_score l l = Fin 1.
Proof.
  intros Hi Hj Hij. unfold Sk.cohen_kappa_score. cbv zeta.
  set (labels := Sk.unique_labels l l).
  pose (c := λ i j : Z,
         Sk.count_where (λ p : Z * Z, (p.1 =? i) && (p.2 =? j)) (zip l l)).
  assert (∀ a b, 0 ≤ c a b) as Hc0 by (intros; apply count_where_nonneg).
  assert (∀ a b, a ≠ b → c a b = 0) as Hoff.
  { intros a b Hab. apply count_where_none. intros p [Hp _]%elem_of_zip_diag.
    destruct (Z.eqb_spec p.1 a), (Z.eqb_spec p.2 b); try done. congruence. }
  assert (∀ a, a ∈ l → 0 < c a a) as Hdiag.
  { intros a Ha. assert ((a, a) ∈ zip l l) as Hin.
    { clear -Ha. induction Ha; simpl; [left|by right]. }
    apply (count_where_pos _ _ _ Hin). simpl. by rewrite Z.eqb_refl. }
  pose (g := λ i0 j0 : Z, if i0 =? j0 then 0
       else Sk.sumZ (map (λ i1, c i1 i0) labels)
            * Sk.sumZ (map (λ j1, c j0 j1) labels)).
  set (E := Sk.sumZ (map (λ i0, Sk.sumZ (map (λ j0,
         if i0 =? j0 then 0 else _ * _) labels)) labels)).
  set (D := Sk.sumZ (map (λ i0, Sk.sumZ (map (λ j0,
         if i0 =? j0 then 0 else Sk.count_where _ _) labels)) labels)).
  assert (D = 0) as ->.
  { apply sumZ_zero. intros a _. apply sumZ_zero. intros b _.
    destruct (Z.eqb_spec a b); [done|]. by apply (Hoff a b). }
  assert (0 < E) as HE.
  { change E with (Sk.sumZ (map (λ i0, Sk.sumZ (map (g i0) labels)) labels)).
    assert (∀ a, 0 ≤ Sk.sumZ (map (λ i1, c i1 a) labels)) as H0
      by (intros; apply sumZ_nonneg; auto).
    assert (∀ a, 0 ≤ Sk.sumZ (map (λ j1, c a j1) labels)) as H1
      by (intros; apply sumZ_nonneg; auto).
    assert (i ∈ labels) as Hil by by apply elem_of_unique_labels.
    assert (j ∈ labels) as Hjl by by apply elem_of_unique_labels.
    pose proof (sumZ_ge (λ i1, c i1 i) labels i (λ _ _, Hc0 _ _) Hil) as Hsi.
    pose proof (sumZ_ge (λ j1, c j j1) labels j (λ _ _, Hc0 _ _) Hjl) as Hsj.
    simpl in Hsi, Hsj.
    pose proof (Hdiag i Hi). pose proof (Hdiag j Hj).
    assert (∀ a b, 0 ≤ g a b) as Hg.
    { intros a b. unfold g. destruct (a =? b); [done|].
      apply Z.mul_nonneg_nonneg; auto. }
    assert (g i j ≤ Sk.sumZ (map (g i) labels)) as Hin
      by (apply sumZ_ge; auto).
    assert (Sk.sumZ (map (g i) labels)
            ≤ Sk.sumZ (map (λ i0, Sk.sumZ (map (g i0) labels)) labels)) as Hout.
    { apply (sumZ_ge (λ i0, Sk.sumZ (map (g i0) labels))); [|done].
      intros; apply sumZ_nonneg; auto. }
    assert (0 < g i j); [|lia].
    unfold g. destruct (Z.eqb_spec i j); [done|]. nia. }
  clearbody E.
  assert (0 < Z.of_nat (length (zip l l))) as Hn.
  { destruct l; [by apply elem_of_nil in Hi|simpl; lia]. }
  unfold np_div at 1.
  assert (Qeq_bool (Zq (Z.of_nat (length (zip l l)))) 0 = false) as ->.
  { apply not_true_iff_false. rewrite Qeq_bool_iff. apply Zq_nonzero. lia. }
  set (e := Qred (Zq E / Zq (Z.of_nat (length (zip l l))))).
  assert (0 < e)%Q as He.
  { unfold e. rewrite Qred_correct. apply Qlt_shift_div_l; [by apply Zq_pos|].
    rewrite Qmult_0_l. by apply Zq_pos. }
  unfold np_div.
  assert (Qeq_bool e 0 = false) as ->.
  { apply not_true_iff_false. rewrite Qeq_bool_iff. by apply Qpos_nonzero. }
  assert (Qred (Zq 0 / e) = Qred 0) as ->
    by (apply Qred_complete; unfold Qdiv; by rewrite Qmult_0_l).
  reflexivity.
Qed.

Lemma cnt_lt_zero l : cnt l < Z.of_nat (length l) → 0 ∈ l.
Proof.
  induction l as [|v l IH]; [rewrite cnt_nil; simpl; lia|].
  rewrite cnt_cons. unfold nz. simpl length.
  destruct (Z.eqb_spec v 0) as [->|Hv]; intros H; [by left|].
  right. apply IH. lia.
Qed.

Lemma cnt_pos_elem l : 0 < cnt l → ∃ v, v ∈ l ∧ v ≠ 0.
Proof.
  induction l as [|v l IH]; [rewrite cnt_nil; lia|].
  rewrite cnt_cons. unfold nz.
  destruct (Z.eqb_spec v 0) as [->|Hv]; intros H.
  - destruct IH as (u & Hu & Hu0); [lia|]. exists u. split; [by right|done].
  - exists v. split; [by left|done].
Qed.

Lemma cnt_elem_pos l v : v ∈ l → v ≠ 0 → 0 < cnt l.
Proof.
  intros Hv Hv0. induction Hv as [v l|v u l Hv IH]; rewrite cnt_cons.
  - pose proof (cnt_bounds l). unfold nz. destruct (Z.eqb_spec v 0); lia.
  - specialize (IH Hv0). unfold nz. destruct (u =? 0); lia.
Qed.

Lemma rows_same_length (a : image) :
  Forall2 (λ r s : list Z, length r = length s) a a.
Proof. induction a; constructor; auto. Qed.

Lemma cnt_zip_none (f : Z → Z → Z) (V : Z → Prop) l :
  Forall V l → (∀ x, V x → f x x = 0) → cnt (zip_with f l l) = 0.
Proof.
  intros H Hf. induction H as [|x l Hx _ IH]; [done|].
  simpl. rewrite cnt_cons, IH, (Hf x Hx). done.
Qed.

(** The counts when the candidate is the reference itself. *)
Lemma confusion_self m :
  enc01 m ∨ enc0255 m →
  let c := confusion m m in
  cP c = count_nonzero m ∧ ctp c = count_nonzero m ∧ cfn c = 0 ∧ cfp c = 0
  ∧ ctn c = cN c ∧ (count_nonzero m < pixels m → 0 < cN c).
Proof.
  intros Henc. unfold confusion. simpl.
  assert (binary m) as Hb.
  { destruct Henc as [E|E]; (eapply Forall_impl; [exact E|]); intros r Hr;
      simpl in Hr; (eapply Forall_impl; [exact Hr|]); simpl; tauto. }
  rewrite (astype_uint8_id m) by by apply binary_uint8.
  pose proof (rows_same_length m) as Hmm.
  apply flatten_Forall in Hb.
  assert (count_nonzero (bitwise_and m (bitwise_not m)) = 0) as Hfp.
  { unfold bitwise_and, bitwise_not.
    rewrite count_nonzero_cnt, flatten_zip_with, flatten_map.
    + rewrite zip_with_fmap_r.
      apply (cnt_zip_none (λ x y, Z.land x (uint8 (Z.lnot y))) _ _ Hb).
      intros x [->|[->| ->]]; reflexivity.
    + clear. induction m; simpl; constructor; auto. by rewrite length_map. }
  rewrite Hfp.
  split; [done|]. split; [|split; [|split; [done|split; [lia|]]]].
  - unfold bitwise_and. rewrite !count_nonzero_cnt, flatten_zip_with by done.
    apply (cnt_zip_diag _ _ _ Hb). intros x [->|[->| ->]]; reflexivity.
  - rewrite count_nonzero_cnt, flatten_and_not by done.
    apply (cnt_zip_none _ _ _ Hb). intros x [->|[->| ->]]; reflexivity.
  - unfold pixels, bitwise_not. rewrite !count_nonzero_cnt, flatten_map.
    intros Hlt. apply cnt_lt_zero in Hlt.
    apply (cnt_elem_pos _ (uint8 (Z.lnot 0))); [|done].
    apply list_elem_of_fmap. by exists 0.
Qed.

(** A reference in the 0/1 or the 0/255 encoding that has both classes,
    scored against itself, gets "TP", "Recall", "Precision", "F1",
    "accuracy" and "cohen_kappa" 1, and "FN" and "FP" 0. *)
Theorem perfect_candidate_scores_one m :
  enc01 m ∨ enc0255 m → 0 < count_nonzero m < pixels m →
  ∃ stats,
    mask_evaluation m m = Return stats
    ∧ stats !! "TP" = Some (Fin 1) ∧ stats !! "FN" = Some (Fin 0)
    ∧ stats !! "FP" = Some (Fin 0)
    ∧ stats !! "Recall" = Some (Fin 1) ∧ stats !! "Precision" = Some (Fin 1)
    ∧ stats !! "F1" = Some (Fin 1) ∧ stats !! "accuracy" = Some (Fin 1)
    ∧ stats !! "cohen_kappa" = Some (Fin 1).
Proof.
  intros Henc [HP Hlt].
  destruct (confusion_self m Henc) as (EP & Etp & Efn & Efp & Etn & HN).
  specialize (HN Hlt).
  assert (is_uint8 m) as Hu
    by (destruct Henc; [by apply enc01_uint8|by apply enc0255_uint8]).
  assert (Sk.cohen_kappa_score (flatten (astype_uint8 m)) (flatten m) = Fin 1)
    as Hk.
  { rewrite astype_uint8_id by done.
    rewrite count_nonzero_cnt in HP. unfold pixels in Hlt.
    rewrite count_nonzero_cnt in Hlt.
    destruct (cnt_pos_elem _ HP) as (v & Hv & Hv0).
    apply (cohen_kappa_self _ v 0); [done|by apply cnt_lt_zero|done]. }
  eexists. split.
  { apply mask_evaluation_report; lia. }
  rewrite Hk. unfold report.
  rewrite Etp, Efn, Efp, Etn, EP.
  change (Zq 0 / Zq (count_nonzero m))%Q with (0 / Zq (count_nonzero m))%Q.
  change (Zq 0 / Zq (cN (confusion m m)))%Q
    with (0 / Zq (cN (confusion m m)))%Q.
  assert (∀ q, Qred (0 / q) = 0%Q) as Hz.
  { intros q. change 0%Q with (Qred 0) at 2. apply Qred_complete.
    unfold Qdiv. by rewrite Qmult_0_l. }
  rewrite !Hz, !Qred_self by lia.
  repeat split; reflexivity.
Qed.

Lemma perfect_candidate_scores_one_witness :
  ∃ stats,
    mask_evaluation [[255; 0]; [0; 255]] [[255; 0]; [0; 255]] = Return stats
    ∧ stats !! "TP" = Some (Fin 1) ∧ stats !! "FN" = Some (Fin 0)
    ∧ stats !! "FP" = Some (Fin 0)
    ∧ stats !! "Recall" = Some (Fin 1) ∧ stats !! "Precision" = Some (Fin 1)
    ∧ stats !! "F1" = Some (Fin 1) ∧ stats !! "accuracy" = Some (Fin 1)
    ∧ stats !! "cohen_kappa" = Some (Fin 1).
Proof.
  apply (perfect_candidate_scores_one [[255; 0]; [0; 255]]);
    [right; by_compute | vm_compute; split; reflexivity].
Defined.

End Report.

(** ** The scorer of the library *)

Section MicroAverage.











End MicroAverage.

(* ================================================================== *)
(** * Further properties of the geometry engine *)

(** ** Coincidence and containment *)

Section Onto.

Lemma mapi_shape F a h w : shape a h w → shape (mapi F a) h w.
Proof.
  intros [Hh Hw]. unfold mapi. split; [by rewrite length_imap|].
  apply Forall_lookup. intros i row. rewrite list_lookup_imap.
  destruct (a !! i) as [r|] eqn:E; [|done]. simpl. intros [= <-].
  rewrite length_imap. rewrite Forall_lookup in Hw. by apply (Hw i).
Qed.

Lemma map_shape f a h w : shape a h w → shape (map (map f) a) h w.
Proof. rewrite map_as_mapi. apply mapi_shape. Qed.

Lemma zip_with_comm {A B} (f : A → A → B) l k :
  (∀ x y, f x y = f y x) → zip_with f l k = zip_with f k l.
Proof.
  intros Hf. revert k. induction l as [|x l IH]; intros [|y k]; simpl; try done.
  by rewrite Hf, IH.
Qed.

Lemma bitwise_and_comm a b : bitwise_and a b = bitwise_and b a.
Proof.
  unfold bitwise_and. revert b.
  induction a as [|r a IH]; intros [|s b]; simpl; try done.
  rewrite IH. f_equal. apply zip_with_comm. intros. apply Z.land_comm.
Qed.

(** [masks_coincidence] does not depend on the order of the two
    masks. *)
Theorem masks_coincidence_sym a b h w :
  shape a h w → shape b h w →
  masks_coincidence a b = masks_coincidence b a.
Proof.
  intros _ _. unfold masks_coincidence. cbv zeta.
  by rewrite bitwise_and_comm, Z.min_comm.
Qed.

Lemma masks_coincidence_sym_witness :
  masks_coincidence [[255; 255]; [0; 0]] [[0; 1]; [1; 1]]
  = masks_coincidence [[0; 1]; [1; 1]] [[255; 255]; [0; 0]].
Proof.
  apply (masks_coincidence_sym [[255; 255]; [0; 0]] [[0; 1]; [1; 1]] 2 2);
    by_compute.
Defined.

Lemma concat_zip_with {A B C} (f : A → B → C) (a : list (list A))
    (b : list (list B)) :
  Forall2 (λ r s, length r = length s) a b →
  concat (zip_with (zip_with f) a b) = zip_with f (concat a) (concat b).
Proof.
  induction 1 as [|r s a b Hrs _ IH]; [done|].
  simpl. rewrite IH. clear IH.
  revert s Hrs. induction r as [|x r IHr]; intros [|y s] Hrs;
    try discriminate; simpl; [done|].
  f_equal. apply IHr. simpl in Hrs. lia.
Qed.

Lemma Forall2_fmap_lengths {A B} (f : Z → A) (g : Z → B) (a b : image) :
  Forall2 (λ r s, length r = length s) a b →
  Forall2 (λ r s, length r = length s) (map (map f) a) (map (map g) b).
Proof.
  induction 1; simpl; constructor; [by rewrite !length_map|done].
Qed.

Lemma concat_map_map {A B} (f : A → B) (a : list (list A)) :
  concat (map (map f) a) = map f (concat a).
Proof.
  induction a as [|r a IH]; [done|]. simpl. by rewrite IH, map_app.
Qed.

(** The cells that are True in both boolean arrays are the cells selected
    in both masks. *)
Lemma onto_equals a b h w :
  shape a h w → shape b h w →
  Npb.count_nonzero (Npb.bitwise_and (Npb.astype_bool a) (Npb.astype_bool b))
  = both_selected a b.
Proof.
  intros Ha Hb. pose proof (shape_rows _ _ _ _ Ha Hb) as Hab.
  unfold Npb.count_nonzero, Npb.bitwise_and, Npb.astype_bool, both_selected.
  rewrite concat_zip_with by by apply Forall2_fmap_lengths.
  rewrite !concat_map_map.
  unfold flatten. generalize (concat a) (concat b). clear.
  intros l. induction l as [|x l IH]; intros [|y k]; try done.
  cbn [map zip_with].
  rewrite cnt_cons, <- IH, filter_cons.
  destruct (nonzero x), (nonzero y); simpl andb; case_decide; try done;
    cbn [length nz Z.eqb]; lia.
Qed.

(** For two masks of one shape with any cell values,
    [masks_coincidence] is nan exactly when one of the masks, as uint8,
    has no non-zero cell; it is never infinite, and a finite result lies
    between 0 and 1. *)
Theorem masks_coincidence_range a b h w :
  shape a h w → shape b h w →
  (masks_coincidence a b = NaN
   ↔ count_nonzero (astype_uint8 a) = 0 ∨ count_nonzero (astype_uint8 b) = 0)
  ∧ (∀ q, masks_coincidence a b = Fin q → (0 <= q)%Q ∧ (q <= 1)%Q)
  ∧ is_inf (masks_coincidence a b) = false.
Proof.
  intros Ha Hb. unfold masks_coincidence. cbv zeta.
  set (a' := astype_uint8 a). set (b' := astype_uint8 b).
  assert (shape a' h w) as Ha' by by apply map_shape.
  assert (shape b' h w) as Hb' by by apply map_shape.
  pose proof (count_nonzero_nonneg a') as Ha0.
  pose proof (count_nonzero_nonneg b') as Hb0.
  set (n := count_nonzero (bitwise_and a' b')).
  set (d := Z.min (count_nonzero a') (count_nonzero b')).
  assert (0 ≤ n ≤ d) as [Hn0 Hnd].
  { unfold n, d. split; [apply count_nonzero_nonneg|].
    assert (∀ l : list Z, Forall (λ _, True) l) as HT
      by (intros l; by apply Forall_forall).
    unfold bitwise_and.
    rewrite !count_nonzero_cnt, flatten_zip_with by by eapply shape_rows.
    apply Z.min_glb.
    - apply (cnt_zip_le _ _ _ _ _ (HT _) (HT _)).
      intros x y _ _. unfold nz.
      destruct (Z.eqb_spec x 0) as [->|]; [by rewrite Z.land_0_l|].
      destruct (Z.land x y =? 0); lia.
    - apply (cnt_zip_le_r _ _ _ _ _ (HT _) (HT _)).
      intros x y _ _. unfold nz.
      destruct (Z.eqb_spec y 0) as [->|]; [by rewrite Z.land_0_r|].
      destruct (Z.land x y =? 0); lia. }
  unfold np_div. destruct (Qeq_bool (Zq d) 0) eqn:Ed.
  - apply Qeq_bool_iff in Ed.
    assert (d = 0) as Hd by (unfold Zq, Qeq in Ed; simpl in Ed; lia).
    assert (n = 0) as -> by lia. simpl.
    split; [|split; [by intros q|done]]. split; [|done]. intros _.
    unfold d in Hd. lia.
  - assert (0 < d) as Hd.
    { destruct (decide (d = 0)) as [E|]; [|unfold d in *; lia].
      rewrite E in Ed. discriminate. }
    pose proof (Zq_pos d Hd) as Hdq. pose proof (Zq_nonneg n Hn0) as Hnq.
    split; [|split; [|done]].
    + split; [done|]. unfold d in Hd. lia.
    + intros q [= <-]. rewrite Qred_correct. split.
      * apply Qle_shift_div_l; [done|]. lra.
      * apply Qle_shift_div_r; [done|]. rewrite Qmult_1_l.
        unfold Zq. rewrite <- Zle_Qle. lia.
Qed.

Lemma masks_coincidence_range_witness :
  let a := [[3; 2]; [0; 0]] in
  let b := [[1; 1]; [0; 7]] in
  (masks_coincidence a b = NaN
   ↔ count_nonzero (astype_uint8 a) = 0 ∨ count_nonzero (astype_uint8 b) = 0)
  ∧ (∀ q, masks_coincidence a b = Fin q → (0 <= q)%Q ∧ (q <= 1)%Q)
  ∧ is_inf (masks_coincidence a b) = false.
Proof.
  apply (masks_coincidence_range [[3; 2]; [0; 0]] [[1; 1]; [0; 7]] 2 2);
    by_compute.
Defined.

Lemma both_selected_bounds a b :
  0 ≤ both_selected a b
  ∧ both_selected a b ≤ count_nonzero a ∧ both_selected a b ≤ count_nonzero b.
Proof.
  unfold both_selected. rewrite !count_nonzero_cnt.
  assert (∀ l : list Z, Forall (λ _, True) l) as HT
    by (intros l; by apply Forall_forall).
  split; [apply cnt_bounds|]. split.
  - apply (cnt_zip_le _ _ _ _ _ (HT _) (HT _)).
    intros x y _ _. unfold nz, nonzero.
    destruct (x =? 0), (y =? 0); simpl; lia.
  - apply (cnt_zip_le_r _ _ _ _ _ (HT _) (HT _)).
    intros x y _ _. unfold nz, nonzero.
    destruct (x =? 0), (y =? 0); simpl; lia.
Qed.

Lemma both_selected_comm a b : both_selected a b = both_selected b a.
Proof.
  unfold both_selected. f_equal.
  generalize (flatten a) (flatten b). intros l.
  induction l as [|x l IH]; intros [|y k]; simpl; try done.
  by rewrite IH, andb_comm.
Qed.

End Onto.

(** ** Rounding to the nearest float *)

Section Rounding.
Import F64.

Lemma pow2_pos z : 0 < 2 ^ z ∨ (z < 0 ∧ 2 ^ z = 0).
Proof.
  destruct (Z.lt_ge_cases z 0) as [H|H].
  - right. split; [done|]. by apply Z.pow_neg_r.
  - left. by apply Z.pow_pos_nonneg.
Qed.

Lemma pow2_gt0 z : 0 ≤ z → 0 < 2 ^ z.
Proof. intros H. by apply Z.pow_pos_nonneg. Qed.

Lemma pow2_split a b : 0 ≤ a → 0 ≤ b → 2 ^ (a + b) = 2 ^ a * 2 ^ b.
Proof. intros. by apply Z.pow_add_r. Qed.

Lemma pow2_half s : 0 < s → 2 ^ s = 2 * 2 ^ (s - 1).
Proof.
  intros H. replace s with (1 + (s - 1)) at 1 by lia.
  rewrite Z.pow_add_r by lia. done.
Qed.

Lemma nearest_even_cases M s :
  0 < s →
  let q := M / 2 ^ s in
  let r := M mod 2 ^ s in
  M = 2 ^ s * q + r ∧ 0 ≤ r < 2 ^ s
  ∧ (nearest_even M s = q ∧ r ≤ 2 ^ (s - 1)
     ∨ nearest_even M s = q + 1 ∧ 2 ^ (s - 1) ≤ r).
Proof.
  intros Hs q r. pose proof (pow2_gt0 s ltac:(lia)) as Hp.
  split; [apply Z.div_mod; lia|]. split; [apply Z.mod_pos_bound; lia|].
  unfold nearest_even. fold q r.
  destruct (Z.ltb_spec r (2 ^ (s - 1))); [left; split; [done|lia]|].
  destruct (Z.ltb_spec (2 ^ (s - 1)) r); [right; split; [done|lia]|].
  destruct (Z.even q); [left|right]; split; (done || lia).
Qed.

Lemma nearest_even_lt M s N :
  0 < s → M < N * 2 ^ s - 2 ^ (s - 1) → nearest_even M s < N.
Proof.
  intros Hs HM. destruct (nearest_even_cases M s Hs) as (E & Hr & Hc).
  pose proof (pow2_half s Hs) as Hh. pose proof (pow2_gt0 (s - 1) ltac:(lia)).
  destruct Hc as [[-> Hle]|[-> Hge]]; nia.
Qed.

Lemma nearest_even_le M s N :
  0 < s → M ≤ N * 2 ^ s → nearest_even M s ≤ N.
Proof.
  intros Hs HM. destruct (nearest_even_cases M s Hs) as (E & Hr & Hc).
  pose proof (pow2_half s Hs) as Hh. pose proof (pow2_gt0 (s - 1) ltac:(lia)).
  destruct Hc as [[-> Hle]|[-> Hge]]; nia.
Qed.

Lemma nearest_even_ge M s N :
  0 < s → N * 2 ^ s ≤ M → N ≤ nearest_even M s.
Proof.
  intros Hs HM. destruct (nearest_even_cases M s Hs) as (E & Hr & Hc).
  pose proof (pow2_half s Hs) as Hh. pose proof (pow2_gt0 (s - 1) ltac:(lia)).
  destruct Hc as [[-> Hle]|[-> Hge]]; nia.
Qed.

Lemma log2_bounds M : 0 < M → 2 ^ Z.log2 M ≤ M < 2 ^ (Z.log2 M + 1).
Proof. intros H. pose proof (Z.log2_spec M H). by rewrite <- Z.add_1_r in *. Qed.

Lemma int_gt_fin n m e :
  e ≤ 0 → int_gt n (XFin m e) = true ↔ m < n * 2 ^ (- e).
Proof.
  intros He. unfold int_gt.
  destruct (Z.leb_spec 0 e).
  - assert (e = 0) as -> by lia. simpl. rewrite Z.ltb_lt. lia.
  - by rewrite Z.ltb_lt.
Qed.

(** The parts of [round_pos] when the number is below [2 ^ 53]. *)
Lemma round_pos_small M e :
  e ≤ 0 → 0 < M → M < 2 ^ (53 - e) →
  ∃ p, 0 ≤ p ∧ p = - Z.max (Z.log2 M + e - 52) (-1074)
    ∧ round_pos M e
      = XFin (if - e - p <=? 0 then M * 2 ^ (p + e)
              else nearest_even M (- e - p)) (- p).
Proof.
  intros He HM Hlt.
  assert (Z.log2 M < 53 - e) as HL by (apply Z.log2_lt_pow2; lia).
  exists (- Z.max (Z.log2 M + e - 52) (-1074)).
  split; [lia|]. split; [done|].
  unfold round_pos. cbv zeta.
  set (e' := Z.max (Z.log2 M + e - 52) (-1074)).
  assert (e' ≤ 0) as He' by (unfold e'; lia).
  destruct (Z.ltb_spec 971 e'); [lia|].
  destruct (Z.eqb_spec e' 971); [lia|]. simpl.
  replace (- e - - e') with (e' - e) by lia.
  replace (- (e' - e)) with (- e' + e) by lia.
  by rewrite Z.opp_involutive.
Qed.

(** A number that is at most the integer [c] rounds to at most [c]. *)
Lemma round_pos_le M e c :
  e ≤ 0 → 0 < M → 0 ≤ c < 2 ^ 53 → M ≤ c * 2 ^ (- e) →
  int_gt (c + 1) (round_pos M e) = true.
Proof.
  intros He HM Hc Hle.
  pose proof (pow2_gt0 (- e) ltac:(lia)) as Ha.
  assert (M < 2 ^ (53 - e)) as Hlt.
  { replace (53 - e) with (53 + - e) by lia. rewrite Z.pow_add_r by lia. nia. }
  destruct (round_pos_small M e He HM Hlt) as (p & Hp & _ & ->).
  apply int_gt_fin; [lia|]. rewrite Z.opp_involutive.
  pose proof (pow2_gt0 p Hp) as Hpp.
  assert (∀ m', m' ≤ c * 2 ^ p → m' < (c + 1) * 2 ^ p) as Hfin by (intros; nia).
  apply Hfin. clear Hfin.
  destruct (Z.leb_spec (- e - p) 0) as [Hs|Hs].
  - assert (2 ^ p = 2 ^ (- e) * 2 ^ (p + e)) as ->
      by (rewrite <- Z.pow_add_r by lia; f_equal; lia).
    pose proof (pow2_gt0 (p + e) ltac:(lia)). nia.
  - apply nearest_even_le; [done|].
    assert (2 ^ (- e) = 2 ^ p * 2 ^ (- e - p)) as E
      by (rewrite <- Z.pow_add_r by lia; f_equal; lia).
    rewrite E in Hle. lia.
Qed.

(** A number that is at least the integer [c] rounds to at least [c]. *)
Lemma round_pos_ge M e c :
  e ≤ 0 → 0 < M → 0 ≤ c < 2 ^ 53 → c * 2 ^ (- e) ≤ M →
  int_gt c (round_pos M e) = false.
Proof.
  intros He HM Hc Hge.
  pose proof (pow2_gt0 (- e) ltac:(lia)) as Ha.
  pose proof (log2_bounds M HM) as [HL1 HL2].
  pose proof (Z.log2_nonneg M) as HL0.
  destruct (Z.lt_ge_cases M (2 ^ (53 - e))) as [Hlt|Hbig].
  - destruct (round_pos_small M e He HM Hlt) as (p & Hp & _ & ->).
    apply not_true_iff_false. rewrite int_gt_fin by lia.
    rewrite Z.opp_involutive. pose proof (pow2_gt0 p Hp) as Hpp.
    apply Z.le_ngt.
    destruct (Z.leb_spec (- e - p) 0) as [Hs|Hs].
    + assert (2 ^ p = 2 ^ (- e) * 2 ^ (p + e)) as ->
        by (rewrite <- Z.pow_add_r by lia; f_equal; lia).
      pose proof (pow2_gt0 (p + e) ltac:(lia)). nia.
    + apply nearest_even_ge; [done|].
      assert (2 ^ (- e) = 2 ^ p * 2 ^ (- e - p)) as E
        by (rewrite <- Z.pow_add_r by lia; f_equal; lia).
      rewrite E in Hge. lia.
  - assert (53 - e ≤ Z.log2 M) as HL.
    { apply Z.log2_le_pow2; lia. }
    unfold round_pos. cbv zeta.
    set (e' := Z.max (Z.log2 M + e - 52) (-1074)).
    assert (e' = Z.log2 M + e - 52) as Ee' by (unfold e'; lia).
    assert (0 < e') as He' by lia.
    destruct ((971 <? e') || (e' =? 971) && (2 ^ 53 <=? _)); [done|].
    destruct (Z.leb_spec (e' - e) 0); [lia|].
    set (m' := nearest_even M (e' - e)).
    assert (2 ^ 52 ≤ m') as Hm'.
    { apply nearest_even_ge; [lia|].
      rewrite <- Z.pow_add_r by lia.
      replace (52 + (e' - e)) with (Z.log2 M) by lia. done. }
    unfold int_gt. destruct (Z.leb_spec 0 e'); [|lia].
    apply Z.ltb_ge.
    assert (2 ^ 1 ≤ 2 ^ e') by (apply Z.pow_le_mono_r; lia).
    change (2 ^ 53) with (2 ^ 52 * 2 ^ 1) in Hc. nia.
Qed.

(** The product of an integer [n] > 0 and a float below 1 rounds below
    [n]. *)
Lemma round_pos_lt n m e :
  0 < n → 0 < m < 2 ^ 53 → -1074 ≤ e < 0 → m < 2 ^ (- e) → n < 2 ^ 53 →
  int_gt n (round_pos (n * m) e) = true.
Proof.
  intros Hn Hm He Hlt1 Hn53.
  pose proof (pow2_gt0 (- e) ltac:(lia)) as Ha.
  assert (0 < n * m) as HM by nia.
  assert (n * m < 2 ^ (53 - e)) as Hlt.
  { replace (53 - e) with (53 + - e) by lia. rewrite Z.pow_add_r by lia. nia. }
  pose proof (log2_bounds (n * m) HM) as [HL1 HL2].
  destruct (round_pos_small (n * m) e ltac:(lia) HM Hlt) as (p & Hp & Ep & ->).
  apply int_gt_fin; [lia|]. rewrite Z.opp_involutive.
  pose proof (pow2_gt0 p Hp) as Hpp.
  destruct (Z.leb_spec (- e - p) 0) as [Hs|Hs].
  - assert (2 ^ p = 2 ^ (- e) * 2 ^ (p + e)) as ->
      by (rewrite <- Z.pow_add_r by lia; f_equal; lia).
    pose proof (pow2_gt0 (p + e) ltac:(lia)). nia.
  - apply nearest_even_lt; [done|].
    assert (p = 52 - (Z.log2 (n * m) + e)) as Ep' by lia.
    assert (2 ^ (- e) = 2 ^ p * 2 ^ (- e - p)) as E
      by (rewrite <- Z.pow_add_r by lia; f_equal; lia).
    rewrite <- Z.mul_assoc, <- E.
    assert (2 ^ (- e - p - 1) < n) as Hhalf.
    { assert (2 ^ (- e - p - 1) * 2 ^ 53 = 2 ^ Z.log2 (n * m)) as E2
        by (rewrite <- Z.pow_add_r by lia; f_equal; lia).
      nia. }
    nia.
Qed.

(** The integer that stands for the float [d] on the scale
    [2 ^ Z.min (expo d) 0]. *)
Lemma value_scale d :
  (value d * Zq (2 ^ (- Z.min (expo d) 0))
   == Zq (mant d * 2 ^ Z.max (expo d) 0))%Q.
Proof.
  unfold value, Zq. destruct d as [m pe]. simpl.
  destruct (Z.le_gt_cases 0 pe) as [H|H].
  - rewrite Z.min_r, Z.max_l by lia. change (2 ^ (- 0)) with 1.
    rewrite inject_Z_mult, (Zpower_Qpower 2 pe) by done.
    change (inject_Z 1) with 1%Q. change (inject_Z 2) with 2%Q.
    by rewrite Qmult_1_r.
  - rewrite Z.min_l, Z.max_r by lia. rewrite Z.mul_1_r.
    rewrite (Zpower_Qpower 2 (- pe)) by lia.
    change (inject_Z 2) with 2%Q.
    rewrite <- Qmult_assoc, <- Qpower_plus by done.
    replace (pe + - pe) with 0 by lia. simpl. by rewrite Qmult_1_r.
Qed.

Lemma scale_pos d : (0 < Zq (2 ^ (- Z.min (expo d) 0)))%Q.
Proof. apply Zq_pos, pow2_gt0. lia. Qed.

Lemma value_lt c n d :
  (Zq c * value d < Zq n)%Q
  ↔ c * (mant d * 2 ^ Z.max (expo d) 0) < n * 2 ^ (- Z.min (expo d) 0).
Proof.
  rewrite <- (Qmult_lt_r _ _ _ (scale_pos d)).
  rewrite <- Qmult_assoc, value_scale, <- !Zq_mult.
  unfold Zq. by rewrite <- Zlt_Qlt.
Qed.

Lemma value_le c n d :
  (Zq c * value d <= Zq n)%Q
  ↔ c * (mant d * 2 ^ Z.max (expo d) 0) ≤ n * 2 ^ (- Z.min (expo d) 0).
Proof.
  rewrite <- (Qmult_le_r _ _ _ (scale_pos d)).
  rewrite <- Qmult_assoc, value_scale, <- !Zq_mult.
  unfold Zq. by rewrite <- Zle_Qle.
Qed.

Lemma value_nonneg d : (0 <= value d)%Q ↔ 0 ≤ mant d.
Proof.
  assert ((0 <= value d)%Q ↔ (Zq 0 <= Zq 1 * value d)%Q) as ->.
  { change (Zq 0) with 0%Q. change (Zq 1) with 1%Q.
    by rewrite Qmult_1_l. }
  rewrite <- (Qmult_le_r _ _ _ (scale_pos d)).
  rewrite <- Qmult_assoc, value_scale, <- !Zq_mult.
  unfold Zq. rewrite <- Zle_Qle.
  pose proof (pow2_gt0 (Z.max (expo d) 0) ltac:(lia)). nia.
Qed.

Lemma value_lt_1 d :
  (value d < 1)%Q
  ↔ mant d * 2 ^ Z.max (expo d) 0 < 2 ^ (- Z.min (expo d) 0).
Proof.
  assert ((value d < 1)%Q ↔ (Zq 1 * value d < Zq 1)%Q) as ->.
  { change (Zq 1) with 1%Q. by rewrite Qmult_1_l. }
  rewrite value_lt. lia.
Qed.

End Rounding.

(** ** One mask onto the other *)

Section OntoFloat.
Import F64.

Lemma int_gt_mono n n' x : n ≤ n' → int_gt n x = true → int_gt n' x = true.
Proof.
  intros Hn. destruct x as [m e|s|]; [|done..]. unfold int_gt.
  destruct (Z.leb_spec 0 e); rewrite !Z.ltb_lt; [lia|].
  pose proof (pow2_gt0 (- e) ltac:(lia)). nia.
Qed.

(** An exact product that is at most the integer [c] rounds to at most
    [c]. *)
Lemma round_le M e c :
  e ≤ 0 → 0 ≤ M → 0 ≤ c < 2 ^ 53 → M ≤ c * 2 ^ (- e) →
  int_gt (c + 1) (round M e) = true.
Proof.
  intros He HM Hc Hle. unfold round.
  destruct (Z.eqb_spec M 0) as [->|HM0].
  - unfold int_gt. simpl. apply Z.ltb_lt. lia.
  - destruct (Z.ltb_spec 0 M); [|lia]. by apply round_pos_le.
Qed.

(** An exact product that is at least the integer [c] rounds to at least
    [c]. *)
Lemma round_ge M e c :
  e ≤ 0 → 0 ≤ M → 0 ≤ c < 2 ^ 53 → c * 2 ^ (- e) ≤ M →
  int_gt c (round M e) = false.
Proof.
  intros He HM Hc Hge. unfold round.
  destruct (Z.eqb_spec M 0) as [->|HM0].
  - pose proof (pow2_gt0 (- e) ltac:(lia)).
    assert (c = 0) as -> by nia. reflexivity.
  - destruct (Z.ltb_spec 0 M); [|lia]. by apply round_pos_ge.
Qed.

Lemma int_mul_small n d :
  0 ≤ n < 2 ^ 53 →
  int_mul n d = round (n * mant d * 2 ^ Z.max (expo d) 0) (Z.min (expo d) 0).
Proof.
  intros Hn. unfold int_mul, of_int.
  destruct (Z.ltb_spec (Z.abs n) (2 ^ 53)); [|lia]. reflexivity.
Qed.

(** On counts [n] and for a float [d] >= 0: if [c > n * d] holds for
    the floats, it holds for the exact product. *)
Lemma int_mul_gt_exact n d c :
  0 ≤ n < 2 ^ 53 → 0 ≤ mant d → 0 ≤ c < 2 ^ 53 →
  int_gt c (int_mul n d) = true → (Zq n * value d < Zq c)%Q.
Proof.
  intros Hn Hm Hc Hgt. apply value_lt.
  pose proof (pow2_gt0 (Z.max (expo d) 0) ltac:(lia)) as Hmax.
  destruct (Z.lt_ge_cases (n * (mant d * 2 ^ Z.max (expo d) 0))
              (c * 2 ^ (- Z.min (expo d) 0))) as [|Hge]; [done|].
  rewrite int_mul_small, round_ge in Hgt; [done|lia|nia|done|lia|done].
Qed.

(** If the exact product is at most [c - 1], then [c > n * d] holds for
    the floats. *)
Lemma int_mul_exact_gt n d c :
  0 ≤ n < 2 ^ 53 → 0 ≤ mant d → 0 < c ≤ 2 ^ 53 →
  (Zq n * value d + 1 <= Zq c)%Q → int_gt c (int_mul n d) = true.
Proof.
  intros Hn Hm Hc Hle.
  assert (Zq n * value d <= Zq (c - 1))%Q as Hle'.
  { replace c with (c - 1 + 1) in Hle by lia. rewrite Zq_plus in Hle.
    change (Zq 1) with 1%Q in Hle. lra. }
  apply value_le in Hle'.
  pose proof (pow2_gt0 (Z.max (expo d) 0) ltac:(lia)) as Hmax.
  replace c with (c - 1 + 1) by lia. rewrite int_mul_small by done.
  apply round_le; [lia|nia|lia|lia].
Qed.

(** For a float [d] >= 1 the product is not below the count. *)
Lemma int_mul_ge_one n d c :
  0 ≤ c ≤ n → n < 2 ^ 53 → 0 ≤ mant d → ¬ (value d < 1)%Q →
  int_gt c (int_mul n d) = false.
Proof.
  intros Hc Hn Hm H1. rewrite value_lt_1 in H1.
  pose proof (pow2_gt0 (Z.max (expo d) 0) ltac:(lia)) as Hmax.
  pose proof (pow2_gt0 (- Z.min (expo d) 0) ltac:(lia)) as Hmin.
  assert (int_gt n (int_mul n d) = false) as Hn'.
  { rewrite int_mul_small by lia. apply round_ge; [lia|nia|lia|nia]. }
  destruct (int_gt c (int_mul n d)) eqn:E; [|done].
  by rewrite (int_gt_mono c n _ (proj2 Hc) E) in Hn'.
Qed.

(** For a float [d] below 1 the product of a count [n] > 0 is below
    [n]. *)
Lemma int_mul_lt_one n d :
  0 < n < 2 ^ 53 → is_double d → 0 ≤ mant d → (value d < 1)%Q →
  int_gt n (int_mul n d) = true.
Proof.
  intros Hn [Hm53 He] Hm H1. rewrite value_lt_1 in H1.
  rewrite int_mul_small by lia. unfold round.
  destruct (Z.eqb_spec (mant d) 0) as [E0|E0].
  - rewrite E0. replace (n * 0 * _) with 0 by lia. simpl.
    apply Z.ltb_lt. lia.
  - assert (expo d < 0) as Hneg.
    { destruct (Z.lt_ge_cases (expo d) 0); [done|].
      rewrite Z.max_l, Z.min_r in H1 by lia. simpl in H1.
      pose proof (pow2_gt0 (expo d) ltac:(lia)). nia. }
    rewrite Z.max_r, Z.min_l in * by lia. rewrite Z.mul_1_r in *.
    destruct (Z.eqb_spec (n * mant d) 0); [nia|].
    destruct (Z.ltb_spec 0 (n * mant d)); [|nia].
    apply round_pos_lt; lia.
Qed.

Lemma counts_below a b h w :
  shape a h w → shape b h w → pixels a < 2 ^ 53 →
  0 ≤ count_nonzero a < 2 ^ 53 ∧ 0 ≤ count_nonzero b < 2 ^ 53.
Proof.
  intros Ha Hb Hp.
  pose proof (flatten_length _ _ (shape_rows _ _ _ _ Ha Hb)) as Hlen.
  unfold pixels in Hp. rewrite !count_nonzero_cnt.
  pose proof (cnt_bounds (flatten a)). pose proof (cnt_bounds (flatten b)).
  lia.
Qed.

Lemma mask_onto_mask_tests a b h w perc :
  shape a h w → shape b h w →
  mask_onto_mask a b perc
  = int_gt (both_selected a b) (int_mul (count_nonzero a) perc)
    || int_gt (both_selected a b) (int_mul (count_nonzero b) perc).
Proof.
  intros Ha Hb. unfold mask_onto_mask. cbv zeta.
  by rewrite (onto_equals a b h w).
Qed.

(** [mask_onto_mask] does not depend on the order of the two masks. *)
Theorem mask_onto_mask_sym a b h w perc :
  shape a h w → shape b h w →
  mask_onto_mask a b perc = mask_onto_mask b a perc.
Proof.
  intros Ha Hb.
  rewrite (mask_onto_mask_tests a b h w), (mask_onto_mask_tests b a h w)
    by done.
  rewrite (both_selected_comm b a). apply orb_comm.
Qed.

Lemma mask_onto_mask_sym_witness :
  mask_onto_mask [[255; 255]; [0; 0]] [[0; 1]; [1; 1]] perc_default
  = mask_onto_mask [[0; 1]; [1; 1]] [[255; 255]; [0; 0]] perc_default.
Proof.
  apply (mask_onto_mask_sym [[255; 255]; [0; 0]] [[0; 1]; [1; 1]] 2 2);
    by_compute.
Defined.

(** For masks of one shape with fewer than [2 ^ 53] cells and a float
    [perc] >= 0, with [d] the cells of the smaller mask and [n] the cells
    selected in both: if [mask_onto_mask] holds then [n] is more than
    [d * perc]; if [n] is at least [d * perc + 1] then [mask_onto_mask]
    holds; and it is False as soon as one mask is empty.  Between the two
    bounds the rounding of the float product decides. *)
Theorem mask_onto_mask_threshold a b h w perc :
  shape a h w → shape b h w → pixels a < 2 ^ 53 →
  is_double perc → (0 <= value perc)%Q →
  let d := Z.min (count_nonzero a) (count_nonzero b) in
  let n := both_selected a b in
  (mask_onto_mask a b perc = true → (Zq d * value perc < Zq n)%Q)
  ∧ ((Zq d * value perc + 1 <= Zq n)%Q → mask_onto_mask a b perc = true)
  ∧ (count_nonzero a = 0 ∨ count_nonzero b = 0 →
     mask_onto_mask a b perc = false).
Proof.
  intros Ha Hb Hp Hd Hperc d n.
  destruct (counts_below a b h w Ha Hb Hp) as [Hca Hcb].
  pose proof (both_selected_bounds a b) as (Hn0 & Hna & Hnb). fold n in Hn0, Hna, Hnb.
  apply value_nonneg in Hperc as Hm.
  rewrite (mask_onto_mask_tests a b h w) by done. fold n.
  assert (∀ c, 0 ≤ c → d ≤ c → (Zq d * value perc <= Zq c * value perc)%Q)
    as Hmono.
  { intros c Hc Hdc. apply Qmult_le_compat_r; [|done].
    unfold Zq. by rewrite <- Zle_Qle. }
  split; [|split].
  - intros [H|H]%orb_true_iff;
      apply int_mul_gt_exact in H; try lia.
    + pose proof (Hmono (count_nonzero a) ltac:(lia) ltac:(unfold d; lia)). lra.
    + pose proof (Hmono (count_nonzero b) ltac:(lia) ltac:(unfold d; lia)). lra.
  - intros Hle. apply orb_true_iff.
    assert (0 < n) as Hnpos.
    { assert (0 <= Zq d * value perc)%Q as H0.
      { apply Qmult_le_0_compat; [|done]. apply Zq_nonneg. unfold d. lia. }
      assert (0 < Zq n)%Q as Hq by lra.
      destruct (decide (n = 0)) as [E|]; [|lia].
      rewrite E in Hq. by apply Qlt_irrefl in Hq. }
    unfold d in Hle.
    destruct (Z.min_spec (count_nonzero a) (count_nonzero b))
      as [[_ E]|[_ E]]; rewrite E in Hle; [left|right];
      apply int_mul_exact_gt; (done || lia).
  - intros Hempty. assert (n = 0) as -> by lia.
    apply orb_false_iff. split; apply not_true_iff_false; intros H;
      apply int_mul_gt_exact in H; try lia.
    + assert (0 <= Zq (count_nonzero a) * value perc)%Q
        by (apply Qmult_le_0_compat; [apply Zq_nonneg; lia|done]).
      change (Zq 0) with 0%Q in H. lra.
    + assert (0 <= Zq (count_nonzero b) * value perc)%Q
        by (apply Qmult_le_0_compat; [apply Zq_nonneg; lia|done]).
      change (Zq 0) with 0%Q in H. lra.
Qed.

(** A run between the two bounds: the masks select 10 cells each, 7 of
    them in common, and [perc] is the float 0.7, a little below 7/10.
    The exact product is below 7, the float product is 7.0, and
    [mask_onto_mask] is False. *)
Lemma mask_onto_mask_threshold_witness :
  let a := [replicate 10 255 ++ replicate 3 0] in
  let b := [replicate 3 0 ++ replicate 10 1] in
  let d := Z.min (count_nonzero a) (count_nonzero b) in
  let n := both_selected a b in
  ((mask_onto_mask a b float_0_7 = true → (Zq d * value float_0_7 < Zq n)%Q)
   ∧ ((Zq d * value float_0_7 + 1 <= Zq n)%Q →
      mask_onto_mask a b float_0_7 = true)
   ∧ (count_nonzero a = 0 ∨ count_nonzero b = 0 →
      mask_onto_mask a b float_0_7 = false))
  ∧ d = 10 ∧ n = 7
  ∧ (Zq d * value float_0_7 < Zq n)%Q
  ∧ int_mul d float_0_7 = XFin 7881299347898368 (-50)
  ∧ 7881299347898368 = 7 * 2 ^ 50
  ∧ mask_onto_mask a b float_0_7 = false.
Proof.
  split.
  - apply (mask_onto_mask_threshold
             [replicate 10 255 ++ replicate 3 0]
             [replicate 3 0 ++ replicate 10 1] 1 13 float_0_7);
      [by_compute | by_compute | vm_compute; reflexivity
      | unfold is_double; simpl; lia | vm_compute; discriminate].
  - vm_compute. repeat split.
Defined.

Lemma inside_both_selected a b :
  inside a b → both_selected a b = count_nonzero a.
Proof.
  intros H. unfold both_selected. rewrite count_nonzero_cnt.
  assert (Forall2 (λ x y : Z, x ≠ 0 → y ≠ 0) (flatten a) (flatten b)) as Hf.
  { unfold flatten. induction H as [|r s a b Hrs _ IH]; simpl; [constructor|].
    by apply Forall2_app. }
  induction Hf as [|x y l k Hxy _ IH]; [done|].
  simpl. rewrite !cnt_cons, IH. f_equal. unfold nz, nonzero.
  destruct (Z.eqb_spec x 0) as [|Hx]; [done|].
  destruct (Z.eqb_spec y 0) as [Hy|]; [|done]. by apply Hxy in Hx.
Qed.

Lemma inside_shape a b h w : inside a b → shape a h w → shape b h w.
Proof.
  intros H [Hh Hw]. split.
  - by rewrite <- (Forall2_length _ _ _ H).
  - clear Hh. induction H as [|r s a b Hrs _ IH]; [constructor|].
    apply Forall_cons in Hw as [Hr Hw]. constructor; [|by apply IH].
    by rewrite <- (Forall2_length _ _ _ Hrs).
Qed.

(** When every cell selected in the first mask is selected in the
    second, the masks have fewer than [2 ^ 53] cells and the float [perc]
    is >= 0, [mask_onto_mask] holds exactly when the first mask is not
    empty and [perc] < 1.  (From [2 ^ 53] cells on the count is rounded
    when it is converted to a float.) *)
Theorem mask_onto_mask_inside a b h w perc :
  shape a h w → inside a b → pixels a < 2 ^ 53 →
  is_double perc → (0 <= value perc)%Q →
  mask_onto_mask a b perc = true
  ↔ 0 < count_nonzero a ∧ (value perc < 1)%Q.
Proof.
  intros Ha Hin Hp Hd Hperc.
  pose proof (inside_shape a b h w Hin Ha) as Hb.
  destruct (counts_below a b h w Ha Hb Hp) as [Hca Hcb].
  pose proof (both_selected_bounds a b) as (_ & _ & Hnb).
  apply value_nonneg in Hperc as Hm.
  rewrite (mask_onto_mask_tests a b h w) by done.
  rewrite (inside_both_selected a b Hin) in *.
  split.
  - intros H.
    destruct (Qlt_le_dec (value perc) 1) as [Hlt|Hge].
    + split; [|done].
      destruct (decide (count_nonzero a = 0)) as [E|]; [|lia].
      exfalso. rewrite E in H.
      apply orb_true_iff in H as [H|H];
        apply int_mul_gt_exact in H; try lia.
      * change (Zq 0) with 0%Q in H. lra.
      * assert (0 <= Zq (count_nonzero b) * value perc)%Q
          by (apply Qmult_le_0_compat; [apply Zq_nonneg; lia|done]).
        change (Zq 0) with 0%Q in H. lra.
    + exfalso.
      assert (¬ (value perc < 1)%Q) as Hn1 by (intros ?; lra).
      rewrite (int_mul_ge_one (count_nonzero a)),
        (int_mul_ge_one (count_nonzero b)) in H; (done || lia).
  - intros [Hpos Hlt]. apply orb_true_iff. left.
    apply int_mul_lt_one; (done || lia).
Qed.

Lemma mask_onto_mask_inside_witness :
  let a := [[0; 255]; [0; 0]] in
  let b := [[1; 1]; [0; 1]] in
  mask_onto_mask a b perc_default = true
  ↔ 0 < count_nonzero a ∧ (value perc_default < 1)%Q.
Proof.
  apply (mask_onto_mask_inside [[0; 255]; [0; 0]] [[1; 1]; [0; 1]] 2 2
           perc_default);
    [by_compute | unfold inside; by_compute | vm_compute; reflexivity
    | unfold is_double; simpl; lia | vm_compute; discriminate].
Defined.

(** From [2 ^ 53] cells on the count is rounded when it is converted to a
    float: [2 ^ 53 + 1] is above its own product with the float 1.0. *)
Lemma int_mul_large_count :
  int_gt (2 ^ 53 + 1) (int_mul (2 ^ 53 + 1) (Double 1 0)) = true.
Proof. vm_compute. reflexivity. Qed.

End OntoFloat.

(** ** Masks as pictures *)

Section Pictures.

Lemma zip_with_map_same {A B C D} (f : B → C → D) (g : A → B) (h : A → C) l :
  zip_with f (map g l) (map h l) = map (λ x, f (g x) (h x)) l.
Proof. induction l as [|x l IH]; [done|]. simpl. by rewrite IH. Qed.

Lemma zip_with_map_map_same {A B C D} (f : B → C → D) (g : A → B) (h : A → C)
    (a : list (list A)) :
  zip_with (zip_with f) (map (map g) a) (map (map h) a)
  = map (map (λ x, f (g x) (h x))) a.
Proof.
  induction a as [|r a IH]; [done|]. simpl.
  by rewrite IH, zip_with_map_same.
Qed.

Lemma map_map_map {A B C} (f : A → B) (g : B → C) (a : list (list A)) :
  map (map g) (map (map f) a) = map (map (λ x, g (f x))) a.
Proof.
  induction a as [|r a IH]; [done|]. simpl. by rewrite IH, map_map.
Qed.

Lemma mask_2RGB_shade mask : mask_2RGB mask = map (map shade) mask.
Proof.
  unfold mask_2RGB, Npb.assign, Npb.equal, zeros_like, astype_uint8.
  cbv zeta. rewrite !map_map_map.
  rewrite (zip_with_map_map_same Z.eqb), zip_with_map_map_same.
  done.
Qed.

Lemma map_map_eq_iff {A B} (f : A → B) (a b : list (list A)) :
  map (map f) a = map (map f) b ↔ Forall2 (Forall2 (λ x y, f x = f y)) a b.
Proof.
  revert b. induction a as [|r a IH]; intros [|s b]; simpl.
  - split; [constructor|done].
  - split; [done|by intros ?%Forall2_nil_cons_inv].
  - split; [done|by intros ?%Forall2_cons_nil_inv].
  - rewrite Forall2_cons, <- IH. split.
    + intros [= Hr Ha]. split; [|done]. clear -Hr.
      revert s Hr. induction r as [|x r IHr]; intros [|y s] Hr;
        try discriminate; [constructor|].
      injection Hr as Hx Hr. constructor; [done|by apply IHr].
    + intros [Hr ->]. f_equal. clear -Hr.
      induction Hr as [|x y r s Hxy _ IHr]; [done|]. simpl. by rewrite Hxy, IHr.
Qed.

(** [mask_2RGB] paints a cell white when it is 0 as a uint8 and black
    otherwise, so two masks give the same picture exactly when they have
    the same shape and select the same cells: the encoding of the mask is
    not seen in the picture. *)
Theorem mask_2RGB_same_picture_iff a b :
  mask_2RGB a = map (map shade) a
  ∧ (mask_2RGB a = mask_2RGB b
     ↔ Forall2 (Forall2 (λ x y, uint8 x = 0 ↔ uint8 y = 0)) a b).
Proof.
  split; [apply mask_2RGB_shade|].
  rewrite !mask_2RGB_shade, map_map_eq_iff.
  split; intros H; (eapply Forall2_impl; [exact H|]); intros r s Hrs;
    simpl in Hrs; (eapply Forall2_impl; [exact Hrs|]); intros x y; simpl;
    unfold shade; destruct (Z.eqb_spec (uint8 x) 0), (Z.eqb_spec (uint8 y) 0);
    try done; tauto.
Qed.

Lemma from_file_mask (gray : pixel → Z) (img : list (list pixel)) :
  let mask := astype_uint8 (map (map gray) img) in
  let img_bool := Npb.astype_bool mask in
  Npb.assign (Npb.assign mask (Npb.logical_not img_bool) 1) img_bool 0
  = map (map (λ p, if uint8 (gray p) =? 0 then 1 else 0)) img.
Proof.
  cbv zeta. unfold Npb.assign, Npb.logical_not, Npb.astype_bool, astype_uint8.
  rewrite !map_map_map.
  rewrite (zip_with_map_map_same (λ (old : Z) (s : bool), if s then 1 else old)).
  rewrite zip_with_map_map_same.
  induction img as [|r img IH]; [done|]. simpl. rewrite IH. f_equal.
  apply map_ext. intros p. unfold nonzero.
  by destruct (uint8 (gray p) =? 0).
Qed.

(** [mask_from_RGB_file] returns None for a path that does not exist,
    raises for a path that holds no readable picture, and otherwise
    returns a 0/1 mask of the shape of the picture, with 1 exactly on the
    pixels whose gray level is 0. *)
Theorem mask_from_RGB_file_cases (gray : pixel → Z)
    (files : gmap string (option (list (list pixel)))) (file_mask : string) :
  (files !! file_mask = None →
     mask_from_RGB_file gray files file_mask = Return None)
  ∧ (files !! file_mask = Some None →
     is_raise (mask_from_RGB_file gray files file_mask) = true)
  ∧ (∀ img, files !! file_mask = Some (Some img) →
     ∃ mask,
       mask_from_RGB_file gray files file_mask = Return (Some mask)
       ∧ enc01 mask
       ∧ mask = map (map (λ p, if uint8 (gray p) =? 0 then 1 else 0)) img).
Proof.
  unfold mask_from_RGB_file. split; [by intros ->|]. split; [by intros ->|].
  intros img ->. eexists. split; [reflexivity|].
  rewrite from_file_mask. split; [|done].
  apply Forall_forall. intros r [s [-> _]]%list_elem_of_fmap.
  apply Forall_forall. intros v [p [-> _]]%list_elem_of_fmap.
  destruct (uint8 (gray p) =? 0); tauto.
Qed.

Lemma bin_enc01 m : enc01 m → bin (astype_uint8 m) = m.
Proof.
  intros H. rewrite astype_uint8_id by by apply enc01_uint8.
  unfold bin. induction H as [|r m Hr _ IH]; [done|].
  simpl. rewrite IH. f_equal.
  induction Hr as [|v r Hv _ IHr]; [done|].
  simpl. rewrite IHr. by destruct Hv as [->| ->].
Qed.

(** Reading back the picture that [mask_2RGB] made of a mask gives the
    mask in the 0/1 encoding (1 on the cells that are non-zero as uint8),
    and gives back the mask itself when it was 0/1-encoded; the gray
    conversion only has to send black to 0 and white to 255. *)
Theorem mask_from_RGB_file_of_mask_2RGB (gray : pixel → Z)
    (files : gmap string (option (list (list pixel)))) (file_mask : string)
    (m : image) :
  gray black = 0 → gray white = 255 →
  files !! file_mask = Some (Some (mask_2RGB m)) →
  mask_from_RGB_file gray files file_mask
  = Return (Some (bin (astype_uint8 m)))
  ∧ (enc01 m → mask_from_RGB_file gray files file_mask = Return (Some m)).
Proof.
  intros Hb Hw Hf.
  assert (mask_from_RGB_file gray files file_mask
          = Return (Some (bin (astype_uint8 m)))) as E.
  { unfold mask_from_RGB_file. rewrite Hf, from_file_mask, mask_2RGB_shade.
    unfold bin, astype_uint8. rewrite !map_map_map.
    apply (f_equal (λ x, Return (Some x))). clear Hf.
    induction m as [|r m IH]; [done|]. simpl. rewrite IH. f_equal.
    apply map_ext. intros v. unfold shade, nonzero.
    destruct (uint8 v =? 0); [rewrite Hw|rewrite Hb]; reflexivity. }
  split; [done|]. intros H01. by rewrite E, bin_enc01.
Qed.

Lemma mask_from_RGB_file_of_mask_2RGB_witness :
  let files : gmap string (option (list (list pixel))) :=
    {["mask.png" := Some (mask_2RGB [[1; 0]; [0; 1]])]} in
  mask_from_RGB_file luminance files "mask.png"
  = Return (Some (bin (astype_uint8 [[1; 0]; [0; 1]])))
  ∧ (enc01 [[1; 0]; [0; 1]] →
     mask_from_RGB_file luminance files "mask.png"
     = Return (Some [[1; 0]; [0; 1]])).
Proof.
  apply (mask_from_RGB_file_of_mask_2RGB luminance
           {["mask.png" := Some (mask_2RGB [[1; 0]; [0; 1]])]} "mask.png"
           [[1; 0]; [0; 1]]); reflexivity.
Defined.

End Pictures.

(** ** Circular masks *)

Lemma land_255 v : Z.land v 255 = v mod 256.
Proof. change 255 with (Z.ones 8). by rewrite Z.land_ones by lia. Qed.

Lemma zip_with_imap_r {A B C} (f : A → B → C) (g : nat → A → B) l :
  zip_with f l (imap g l) = imap (λ i x, f x (g i x)) l.
Proof.
  revert g. induction l as [|x l IH]; intros g; [done|].
  rewrite !imap_cons. simpl. by rewrite IH.
Qed.

Lemma mapi2_mapi2 {A B C} (F : Z * Z → B → C) (G : Z * Z → A → B) a :
  mapi2 F (mapi2 G a) = mapi2 (λ p v, F p (G p v)) a.
Proof.
  unfold mapi2. rewrite imap_imap. apply imap_ext. intros y row _.
  simpl. by rewrite imap_imap.
Qed.

Lemma mapi2_ext {A B} (F G : Z * Z → A → B) a :
  (∀ p v, F p v = G p v) → mapi2 F a = mapi2 G a.
Proof.
  intros H. unfold mapi2. apply imap_ext. intros y row _.
  apply imap_ext. intros x v _. apply H.
Qed.

Lemma mapi2_map {A B C} (F : Z * Z → B → C) (g : A → B) a :
  mapi2 F (map (map g) a) = mapi2 (λ p v, F p (g v)) a.
Proof.
  unfold mapi2. change (map (map g) a) with (map g <$> a).
  rewrite imap_fmap. apply imap_ext. intros y row _. simpl.
  change (map g row) with (g <$> row). by rewrite imap_fmap.
Qed.

Lemma map_mapi2 {A B C} (g : B → C) (F : Z * Z → A → B) a :
  map (map g) (mapi2 F a) = mapi2 (λ p v, g (F p v)) a.
Proof.
  unfold mapi2. change (map (map g) ?l) with (map g <$> l).
  rewrite fmap_imap. apply imap_ext. intros y row _. simpl.
  change (map g ?l) with (g <$> l). by rewrite fmap_imap.
Qed.

Lemma zip_with_mapi2 {A B C} (f : A → B → C) (G : Z * Z → A → B) a :
  zip_with (zip_with f) a (mapi2 G a) = mapi2 (λ p v, f v (G p v)) a.
Proof.
  unfold mapi2. rewrite zip_with_imap_r. apply imap_ext. intros y row _.
  simpl. by rewrite zip_with_imap_r.
Qed.

Section Disk.
Variable disk : Z * Z → Z → Z * Z → bool.

Lemma cv_circle_Return {A} (img : list (list A)) center radius color :
  0 ≤ radius →
  cv_circle disk img center radius color
  = Return (mapi2 (λ p old, if disk center radius p then color else old) img).
Proof.
  intros Hr. unfold cv_circle. by destruct (Z.ltb_spec radius 0); [lia|].
Qed.

Lemma cv_circle_Raise {A} (img : list (list A)) center radius color :
  radius < 0 → is_raise (cv_circle disk img center radius color) = true.
Proof.
  intros Hr. unfold cv_circle. by destruct (Z.ltb_spec radius 0); [|lia].
Qed.

Lemma mask_build_circular_Return image cx cy r :
  0 ≤ r →
  mask_build_circular disk image (cx, cy, r)
  = Return (mapi2 (λ p v, if disk (cx, cy) r p then low8 v else black) image).
Proof.
  intros Hr. unfold mask_build_circular. cbn [fst snd].
  rewrite cv_circle_Return by done. simpl. f_equal.
  unfold and_pixels. rewrite mapi2_map, zip_with_mapi2.
  apply mapi2_ext. intros p [[v1 v2] v3]. unfold low8, black. simpl.
  destruct (disk _ _ _); simpl.
  - by rewrite !land_255.
  - by rewrite !Z.land_0_r.
Qed.

Lemma mask_build_circular_boolean_Return {A} (image : list (list A)) cx cy r :
  0 ≤ r →
  mask_build_circular_boolean disk image (cx, cy, r)
  = Return (mapi2 (λ p _, disk (cx, cy) r p) image).
Proof.
  intros Hr. unfold mask_build_circular_boolean. cbn [fst snd].
  rewrite cv_circle_Return by done. simpl. f_equal.
  unfold Npb.astype_bool. rewrite mapi2_map, map_mapi2.
  apply mapi2_ext. intros p _. by destruct (disk _ _ _).
Qed.

End Disk.

(** Both circular-mask functions raise on a negative radius.  Otherwise
    [mask_build_circular_boolean] is True exactly on the cells of the
    filled circle, and [mask_build_circular] keeps the low eight bits of
    each channel (the pixel itself, for a uint8 picture) where that
    boolean mask is True and returns black elsewhere. *)
Theorem circular_masks_agree (disk : Z * Z → Z → Z * Z → bool)
    (image : list (list pixel)) (cx cy r : Z) :
  (r < 0 →
     is_raise (mask_build_circular disk image (cx, cy, r)) = true
     ∧ is_raise (mask_build_circular_boolean disk image (cx, cy, r)) = true)
  ∧ (0 ≤ r →
     ∃ sel,
       mask_build_circular_boolean disk image (cx, cy, r) = Return sel
       ∧ sel = mapi2 (λ p _, disk (cx, cy) r p) image
       ∧ mask_build_circular disk image (cx, cy, r)
         = Return (zip_with (zip_with (λ (v : pixel) (s : bool),
                     if s then low8 v else black)) image sel)).
Proof.
  split.
  - intros Hr. unfold mask_build_circular, mask_build_circular_boolean.
    cbn [fst snd].
    pose proof (cv_circle_Raise disk (map (map (λ _ : pixel, (0, 0, 0))) image)
                  (cx, cy) r (255, 255, 255) Hr) as H1.
    pose proof (cv_circle_Raise disk (map (map (λ _ : pixel, 0)) image)
                  (cx, cy) r 255 Hr) as H2.
    destruct (cv_circle _ _ _ _ _); [done|].
    by destruct (cv_circle _ _ _ _ _).
  - intros Hr. eexists. split; [by apply mask_build_circular_boolean_Return|].
    split; [done|].
    rewrite mask_build_circular_Return by done. f_equal.
    by rewrite zip_with_mapi2.
Qed.

(** Applying the same circular mask to a masked picture changes
    nothing. *)
Theorem mask_build_circular_idem (disk : Z * Z → Z → Z * Z → bool)
    (image out : list (list pixel)) (circle : Z * Z * Z) :
  mask_build_circular disk image circle = Return out →
  mask_build_circular disk out circle = Return out.
Proof.
  destruct circle as [[cx cy] r]. intros Hout.
  destruct (Z.ltb_spec r 0) as [Hr|Hr].
  { unfold mask_build_circular, cv_circle in Hout. cbn [fst snd] in Hout.
    destruct (Z.ltb_spec r 0); [discriminate|lia]. }
  rewrite mask_build_circular_Return in Hout |- * by done.
  injection Hout as <-. f_equal. rewrite mapi2_mapi2.
  apply mapi2_ext. intros p [[v1 v2] v3].
  destruct (disk _ _ _); [|done]. unfold low8. simpl.
  by rewrite !Z.mod_mod by lia.
Qed.

Lemma mask_build_circular_idem_witness :
  mask_build_circular euclidean_disk
    [[(0, 0, 0); (0, 0, 255); (0, 0, 0)];
     [(0, 0, 255); (7, 8, 9); (0, 0, 255)];
     [(0, 0, 0); (0, 0, 255); (0, 0, 0)]] (1, 1, 1)
  = Return [[(0, 0, 0); (0, 0, 255); (0, 0, 0)];
            [(0, 0, 255); (7, 8, 9); (0, 0, 255)];
            [(0, 0, 0); (0, 0, 255); (0, 0, 0)]].
Proof.
  apply (mask_build_circular_idem euclidean_disk
    [[(5, 5, 5); (0, 0, 255); (5, 5, 5)];
     [(0, 0, 255); (7, 8, 9); (0, 0, 255)];
     [(5, 5, 5); (0, 0, 255); (5, 5, 5)]]).
  reflexivity.
Defined.

(** ** Hole filling on any input *)

Section Encodings.

Lemma Forall_cells (P : Z → Prop) a :
  Forall (Forall P) a ↔ ∀ y x v, cell a y x = Some v → P v.
Proof.
  split.
  - intros H y x v Hv. apply cell_Some in Hv as (_ & _ & row & Hr & Hv).
    rewrite Forall_lookup in H. specialize (H _ _ Hr).
    rewrite Forall_lookup in H. by apply (H _ _ Hv).
  - intros H. apply Forall_lookup. intros i row Hr.
    apply Forall_lookup. intros j v Hv. apply (H (Z.of_nat i) (Z.of_nat j)).
    by rewrite (cell_lookup _ _ _ _ Hr).
Qed.

(** Whatever the cells of the input hold, the result of
    [mask_fill_holes] is 0/255-encoded and has the shape of the input. *)
Theorem mask_fill_holes_is_0255 m :
  enc0255 (mask_fill_holes m)
  ∧ ∀ h w, shape m h w → shape (mask_fill_holes m) h w.
Proof.
  rewrite mask_fill_holes_keep. split.
  - apply Forall_cells. apply keep_reached_two_valued, im_th_two_valued.
  - intros h w H. unfold keep_reached. by apply mapi_shape, map_shape.
Qed.

Lemma shape_cell a h w y x :
  shape a h w →
  is_Some (cell a y x) ↔ 0 ≤ y < Z.of_nat h ∧ 0 ≤ x < Z.of_nat w.
Proof.
  intros [Hh Hw]. split.
  - intros [v Hv]. apply cell_Some in Hv as (Hy & Hx & row & Hr & Hv).
    pose proof (lookup_lt_Some _ _ _ Hr) as Hlt.
    rewrite Forall_lookup in Hw. pose proof (Hw _ _ Hr) as Hlen.
    pose proof (lookup_lt_Some _ _ _ Hv). lia.
  - intros [Hy Hx].
    destruct (lookup_lt_is_Some_2 a (Z.to_nat y)) as [row Hr]; [lia|].
    rewrite Forall_lookup in Hw. pose proof (Hw _ _ Hr) as Hlen.
    destruct (lookup_lt_is_Some_2 row (Z.to_nat x)) as [v Hv]; [lia|].
    exists v. apply cell_Some. repeat split; try lia. by exists row.
Qed.

(** In a rectangular array that holds one value, every cell is
    4-connected to the corner. *)
Lemma conn4_constant a h w c x y :
  shape a h w → (∀ y x v, cell a y x = Some v → v = c) →
  (x, y) ∈ coords a → conn4 a (0, 0) (x, y).
Proof.
  intros Hs Hc Hp.
  apply elem_of_coords, (shape_cell a h w) in Hp as [Hy Hx]; [|done].
  assert (∀ x y, 0 ≤ y < Z.of_nat h → 0 ≤ x < Z.of_nat w → (x, y) ∈ coords a)
    as Hin.
  { intros x' y' ? ?. apply elem_of_coords, (shape_cell a h w); done. }
  assert (∀ p, p ∈ coords a → at_ a p = c) as Hat.
  { intros [x' y'] [v Hv]%elem_of_coords. rewrite (at_cell _ _ _ _ Hv).
    by apply (Hc y' x'). }
  assert (∀ n : nat, Z.of_nat n < Z.of_nat w → conn4 a (0, 0) (Z.of_nat n, 0))
    as Hrow.
  { induction n as [|n IH]; intros Hn.
    - apply conn4_seed. apply Hin; lia.
    - apply (conn4_step _ _ (Z.of_nat n, 0)).
      + apply IH. lia.
      + apply elem_of_neighbours4. simpl. right; right; right.
        f_equal. lia.
      + apply Hin; lia.
      + rewrite !Hat; [done|apply Hin; lia|apply Hin; lia]. }
  assert (∀ m : nat, Z.of_nat m < Z.of_nat h → conn4 a (0, 0) (x, Z.of_nat m))
    as Hcol.
  { induction m as [|m IH]; intros Hm.
    - rewrite <- (Z2Nat.id x) by lia. apply Hrow. lia.
    - apply (conn4_step _ _ (x, Z.of_nat m)).
      + apply IH. lia.
      + apply elem_of_neighbours4. simpl. right; left. f_equal. lia.
      + apply Hin; lia.
      + rewrite !Hat; [done|apply Hin; lia|apply Hin; lia]. }
  rewrite <- (Z2Nat.id y) by lia. apply Hcol. lia.
Qed.

Lemma th_low v : 0 ≤ v < 254 → th v = 0.
Proof.
  intros Hv. unfold th, uint8.
  assert (Z.lnot v mod 256 = 255 - v) as ->.
  { unfold Z.lnot. rewrite <- Z.sub_1_r.
    assert (- v - 1 = 255 - v + (-1) * 256) as -> by lia.
    rewrite Z.mod_add by lia. apply Z.mod_small. lia. }
  destruct (Z.ltb_spec 1 (255 - v)); [done|lia].
Qed.

(** [mask_fill_holes] takes only the values 254 and 255 for selected:
    on a mask whose cells are all below 254, a 0/1-encoded mask for one,
    the result is all zeros. *)
Theorem mask_fill_holes_low_values m h w :
  shape m h w → Forall (Forall (λ v, 0 ≤ v < 254)) m →
  mask_fill_holes m = zeros_like m.
Proof.
  intros Hs Hlow. rewrite mask_fill_holes_keep.
  assert (map (map th) m = zeros_like m) as ->.
  { unfold zeros_like. rewrite !map_as_mapi. apply mapi_ext.
    intros y x v Hv. apply th_low.
    by apply (proj1 (Forall_cells _ m) Hlow y x). }
  set (z := zeros_like m).
  assert (shape z h w) as Hz by by apply map_shape.
  assert (∀ y x v, cell z y x = Some v → v = 0) as Hz0.
  { intros y x v. unfold z. rewrite cell_zeros_like.
    destruct (cell m y x); [|done]. by intros [= <-]. }
  unfold keep_reached. etrans; [|apply mapi_id].
  apply mapi_ext. intros y x v Hv.
  rewrite bool_decide_true; [done|].
  apply region_conn4, (conn4_constant z h w 0); [done|done|].
  apply elem_of_coords. by eexists.
Qed.

Lemma mask_fill_holes_low_values_witness :
  mask_fill_holes [[1; 1; 1]; [1; 0; 1]; [1; 1; 1]]
  = zeros_like [[1; 1; 1]; [1; 0; 1]; [1; 1; 1]].
Proof.
  apply (mask_fill_holes_low_values [[1; 1; 1]; [1; 0; 1]; [1; 1; 1]] 3 3);
    by_compute.
Defined.

(** The flood starts at the corner (0, 0): when that cell of a 0/255
    mask is selected, nothing is reached and every cell of the result is
    selected. *)
Theorem mask_fill_holes_selected_corner m :
  enc0255 m → cell m 0 0 = Some 255 →
  mask_fill_holes m = map (map (λ _, 255)) m.
Proof.
  intros E Hc. pose proof (enc0255_two_valued m E) as Htv.
  rewrite mask_fill_holes_keep, two_valued_th by done.
  unfold keep_reached. rewrite map_as_mapi.
  apply mapi_ext. intros y x v Hv.
  case_bool_decide as Hp; [|done].
  apply region_inv in Hp as (_ & _ & Hat).
  rewrite (at_cell _ _ _ _ Hv), (at_cell _ _ _ _ Hc) in Hat. done.
Qed.

Lemma mask_fill_holes_selected_corner_witness :
  mask_fill_holes [[255; 0; 0]; [0; 0; 0]; [0; 0; 0]]
  = map (map (λ _, 255)) [[255; 0; 0]; [0; 0; 0]; [0; 0; 0]].
Proof.
  apply (mask_fill_holes_selected_corner [[255; 0; 0]; [0; 0; 0]; [0; 0; 0]]);
    [by_compute | reflexivity].
Defined.

End Encodings.

(** ** Pruning *)

Section Clearing.

Lemma delete_contours_shape region cs mask out h w :
  delete_contours mask region cs = Return out → shape mask h w → shape out h w.
Proof.
  revert mask. induction cs as [|c cs IH]; intros mask; simpl.
  - by intros [= <-].
  - rewrite delete_contour_pruned. simpl. intros Hout Hs.
    apply (IH _ Hout). destruct (pruned region c); [|done].
    unfold fill. by apply mapi_shape.
Qed.

Lemma findContours_tree_nil a method :
  all_zero a → findContours a RETR_TREE method = [].
Proof.
  intros Hz. unfold findContours.
  destruct (scan_found a) as [[_ ->]|[Hnz _]]; [done|contradiction].
Qed.

(** [mask_delete_contour_in] never raises and keeps the shape; every cell
    of its result is 0 or the cell of the input as a uint8; and a mask
    without non-zero cell comes back unchanged. *)
Theorem mask_delete_contour_in_only_clears (mask : image) (region : Q) :
  ∃ out,
    mask_delete_contour_in mask region = Return out
    ∧ (∀ h w, shape mask h w → shape out h w)
    ∧ (∀ y x v, cell mask y x = Some v →
         get out y x = 0 ∨ get out y x = uint8 v)
    ∧ (all_zero (astype_uint8 mask) → out = astype_uint8 mask).
Proof.
  unfold mask_delete_contour_in.
  set (cs := findContours (astype_uint8 mask) RETR_TREE CHAIN_APPROX_SIMPLE).
  destruct (delete_contours_cells region cs (astype_uint8 mask))
    as (out & Hout & Hcells).
  exists out. split; [done|]. split; [|split].
  - intros h w Hs. apply (delete_contours_shape _ _ _ _ _ _ Hout).
    unfold astype_uint8. by apply map_shape.
  - intros y x v Hv. unfold get. rewrite Hcells, cell_astype_uint8, Hv. simpl.
    destruct (existsb _ cs); [by left|by right].
  - intros Hz. unfold cs in Hout.
    rewrite findContours_tree_nil in Hout by done.
    by injection Hout as <-.
Qed.

End Clearing.

(* ================================================================== *)
(** * Encodings *)

(** ** The scorers on one pair of masks *)

Section Agreement.

Lemma agree_split l1 l2 :
  length l1 = length l2 →
  Forall (λ v, v = 0 ∨ v = 255) l1 → Forall (λ v, v = 0 ∨ v = 255) l2 →
  Sk.count_where (λ p : Z * Z, p.1 =? p.2) (zip l2 l1)
  = cnt (zip_with Z.land l1 l2)
    + (Z.of_nat (length l2) - cnt l2
       - cnt (zip_with (λ x y, Z.land x (uint8 (Z.lnot y))) l1 l2)).
Proof.
  intros Hlen H1. revert l2 Hlen.
  induction H1 as [|x l1 Hx _ IH]; intros [|y l2] Hlen H2;
    try discriminate; [done|].
  apply Forall_cons in H2 as [Hy H2]. simpl in Hlen.
  specialize (IH l2 ltac:(lia) H2).
  cbn [zip zip_with]. rewrite count_where_cons, !cnt_cons, IH.
  cbn [length]. rewrite Nat2Z.inj_succ.
  destruct Hx as [->| ->], Hy as [->| ->]; vm_compute nz; simpl; lia.
Qed.

(** The part of the agreement of the two scorers that holds: on 0/255
    masks of one shape, whenever the candidate selects a selected cell of
    the reference, the report of [mask_evaluation] holds "accuracy" and
    "cohen_kappa", with the values that [mask_sklearn_evaluation]
    reports. *)
Theorem scorers_agree_on_accuracy mask likelihood h w stats :
  shape mask h w → shape likelihood h w →
  enc0255 mask → enc0255 likelihood →
  mask_evaluation mask likelihood = Return stats →
  0 < ctp (confusion mask likelihood) →
  let library := mask_sklearn_evaluation mask likelihood in
  is_Some (stats !! "accuracy")
  ∧ stats !! "accuracy" = library !! "accuracy"
  ∧ is_Some (stats !! "cohen_kappa")
  ∧ stats !! "cohen_kappa" = library !! "cohen_kappa".
Proof.
  intros Hm Hl Em El Hret Hpos.
  destruct (returns_counts _ _ _ Hret)
    as (c & Hc & HN & HP & Htp & Hfn & Hfp & Hst).
  rewrite <- Hc in Hpos.
  assert (is_uint8 likelihood) as Hu by by apply enc0255_uint8.
  rewrite astype_uint8_id in Hst by done.
  pose proof (shape_rows _ _ _ _ Hm Hl) as Hml.
  assert (Sk.accuracy_score (flatten likelihood) (flatten mask)
          = Fin (Qred (Zq (ctp c + ctn c) / Zq (cP c + cN c)))) as Hacc.
  { unfold Sk.accuracy_score. cbv zeta.
    assert (length (zip (flatten likelihood) (flatten mask))
            = length (flatten likelihood)) as ->
      by (rewrite length_zip_with, (flatten_length _ _ Hml); lia).
    apply flatten_Forall in Em as Em', El as El'.
    rewrite (agree_split _ _ (flatten_length _ _ Hml) Em' El').
    assert (ctp c + ctn c
            = cnt (zip_with Z.land (flatten mask) (flatten likelihood))
              + (Z.of_nat (length (flatten likelihood)) - cnt (flatten likelihood)
                 - cnt (zip_with (λ x y, Z.land x (uint8 (Z.lnot y)))
                          (flatten mask) (flatten likelihood)))
            ∧ cP c + cN c = Z.of_nat (length (flatten likelihood))) as [E1 E2].
    { rewrite Hc. unfold confusion. simpl.
      rewrite (astype_uint8_id likelihood) by done.
      rewrite !count_nonzero_cnt. unfold bitwise_and, bitwise_not.
      rewrite !flatten_zip_with, !flatten_map, zip_with_fmap_r; [| |done].
      2:{ clear -Hml. induction Hml; simpl; constructor; auto.
          by rewrite length_map. }
      pose proof (cnt_map_split _ _ _ El' lnot_0255). lia. }
    rewrite <- E1, <- E2. unfold np_div.
    assert (Qeq_bool (Zq (cP c + cN c)) 0 = false) as ->; [|done].
    apply not_true_iff_false. rewrite Qeq_bool_iff. apply Zq_nonzero. lia. }
  rewrite Hst. unfold report.
  pose proof (Zq_pos _ HP) as HPq. pose proof (Zq_pos _ HN) as HNq.
  pose proof (Zq_pos _ Hpos) as Htq.
  assert (0 < Qred (Zq (ctp c) / Zq (cP c)))%Q as HTP.
  { rewrite Qred_correct. apply Qlt_shift_div_l; [done|]. lra. }
  rewrite (share_nonzero _ (Qred (Zq (cfp c) / Zq (cN c)))); [|done|].
  2:{ apply Qred_div_nonneg; [by apply Zq_nonneg|done]. }
  cbn [orb]. unfold mask_sklearn_evaluation. cbv zeta.
  rewrite Hacc. repeat split; try by eexists.
Qed.

Lemma scorers_agree_on_accuracy_witness :
  let mask := [[255; 255]; [255; 255]] in
  let likelihood := [[255; 0]; [0; 0]] in
  let stats := report_of (mask_evaluation mask likelihood) in
  let library := mask_sklearn_evaluation mask likelihood in
  is_Some (stats !! "accuracy")
  ∧ stats !! "accuracy" = library !! "accuracy"
  ∧ is_Some (stats !! "cohen_kappa")
  ∧ stats !! "cohen_kappa" = library !! "cohen_kappa".
Proof.
  apply (scorers_agree_on_accuracy
           [[255; 255]; [255; 255]] [[255; 0]; [0; 0]] 2 2);
    [by_compute | by_compute | by_compute | by_compute
    | vm_compute; reflexivity | vm_compute; reflexivity].
Defined.

Lemma cnt_zip_same_r (f : Z → Z → Z) (V1 V2 : Z → Prop) l1 l2 :
  length l1 = length l2 → Forall V1 l1 → Forall V2 l2 →
  (∀ x y, V1 x → V2 y → nz (f x y) = nz y) →
  cnt (zip_with f l1 l2) = cnt l2.
Proof.
  intros Hlen H1. revert l2 Hlen.
  induction H1 as [|x l1 Hx _ IH]; intros [|y l2] Hlen H2 Hf;
    try discriminate; [done|].
  apply Forall_cons in H2 as [Hy H2]. simpl in Hlen. simpl.
  rewrite !cnt_cons, (IH l2) by (done || lia). by rewrite (Hf x y).
Qed.

(** A 0/1-encoded candidate against a 0/255-encoded reference: the
    complement of a 0/1 cell is never zero, so every selected cell of the
    reference counts as a false negative; "FN" is 1 and "Recall" is at
    most 1/2, also for a candidate that selects exactly the reference. *)
Theorem mixed_encodings_halve_recall mask likelihood h w stats :
  shape mask h w → shape likelihood h w →
  enc01 mask → enc0255 likelihood →
  mask_evaluation mask likelihood = Return stats →
  stats !! "FN" = Some (Fin 1)
  ∧ ∃ recall : Q,
      stats !! "Recall" = Some (Fin recall) ∧ (recall <= 1 # 2)%Q.
Proof.
  intros Hm Hl Em El Hret.
  destruct (returns_counts _ _ _ Hret)
    as (c & Hc & HN & HP & Htp & Hfn & Hfp & Hst).
  assert (is_uint8 likelihood) as Hu by by apply enc0255_uint8.
  pose proof (shape_rows _ _ _ _ Hm Hl) as Hml.
  apply flatten_Forall in Em as Em', El as El'.
  assert (cfn c = cP c ∧ ctp c ≤ cP c) as [Efn Htp'].
  { rewrite Hc. unfold confusion. simpl.
    rewrite (astype_uint8_id likelihood) by done.
    rewrite !count_nonzero_cnt, flatten_and_not by done.
    unfold bitwise_and. rewrite flatten_zip_with by done. split.
    - apply (cnt_zip_same_r _ _ _ _ _ (flatten_length _ _ Hml) Em' El').
      intros x y [->| ->] [->| ->]; reflexivity.
    - apply (cnt_zip_le_r _ _ _ _ _ Em' El').
      intros x y [->| ->] [->| ->]; vm_compute; discriminate. }
  rewrite Hst.
  destruct (report_rates c (Sk.cohen_kappa_score
    (flatten (astype_uint8 likelihood)) (flatten mask)))
    as (E1 & _ & _ & E4 & _).
  rewrite E1, E4, Efn, Qred_self by lia. split; [done|].
  eexists. split; [reflexivity|].
  pose proof (Zq_pos _ HP) as HPq.
  set (TP := Qred (Zq (ctp c) / Zq (cP c))).
  assert (0 <= TP)%Q as HTP0
    by (apply Qred_div_nonneg; [by apply Zq_nonneg|done]).
  assert (TP <= 1)%Q as HTP1.
  { unfold TP. rewrite Qred_correct. apply Qle_shift_div_r; [done|].
    rewrite Qmult_1_l. unfold Zq. by rewrite <- Zle_Qle. }
  unfold share.
  assert (neq0 1 = true) as -> by done. rewrite orb_true_r.
  rewrite Qred_correct. apply Qle_shift_div_r; [lra|]. lra.
Qed.

Lemma mixed_encodings_halve_recall_witness :
  let mask := [[1; 0]; [0; 0]] in
  let likelihood := [[255; 0]; [0; 0]] in
  let stats := report_of (mask_evaluation mask likelihood) in
  stats !! "FN" = Some (Fin 1)
  ∧ ∃ recall : Q,
      stats !! "Recall" = Some (Fin recall) ∧ (recall <= 1 # 2)%Q.
Proof.
  apply (mixed_encodings_halve_recall
           [[1; 0]; [0; 0]] [[255; 0]; [0; 0]] 2 2);
    [by_compute | by_compute | by_compute | by_compute
    | vm_compute; reflexivity].
Defined.

End Agreement.

(** ** The contour functions *)

Section Selection.

Lemma constant_shape (c : Z) a h w :
  shape a h w → map (map (λ _, c)) a = replicate h (replicate w c).
Proof.
  intros [Hh Hw]. subst h. induction a as [|r a IH]; [done|].
  apply Forall_cons in Hw as [Hr Hw]. simpl. rewrite IH by done. f_equal.
  subst w. clear. induction r as [|v r IH]; [done|]. simpl. by rewrite IH.
Qed.

Lemma threshold_enc01 m :
  enc01 m → threshold_binary_inv m 1 255 = map (map (λ _, 255)) m.
Proof.
  intros H. unfold threshold_binary_inv. rewrite !map_as_mapi.
  apply mapi_ext. intros y x v Hv.
  destruct (proj1 (Forall_cells _ m) H y x v Hv) as [->| ->]; reflexivity.
Qed.

(** [mask_bounding_circle] binarises with the threshold 1, so it takes a
    cell that holds 1 for unselected: any two 0/1-encoded masks of one
    shape get the same result, whatever they select. *)
Theorem mask_bounding_circle_ignores_01_masks
    (minEnclosingCircle : contour → (Q * Q) * Q) a b h w :
  shape a h w → shape b h w → enc01 a → enc01 b →
  mask_bounding_circle minEnclosingCircle a
  = mask_bounding_circle minEnclosingCircle b.
Proof.
  intros Ha Hb Ea Eb. unfold mask_bounding_circle. cbv zeta.
  rewrite !threshold_enc01 by done.
  by rewrite (constant_shape 255 a h w), (constant_shape 255 b h w).
Qed.

Lemma mask_bounding_circle_ignores_01_masks_witness :
  mask_bounding_circle first_point_circle [[1; 1; 1]; [1; 1; 1]; [1; 1; 1]]
  = mask_bounding_circle first_point_circle [[0; 0; 0]; [0; 1; 0]; [0; 0; 0]].
Proof.
  apply (mask_bounding_circle_ignores_01_masks first_point_circle
           [[1; 1; 1]; [1; 1; 1]; [1; 1; 1]]
           [[0; 0; 0]; [0; 1; 0]; [0; 0; 0]] 3 3); by_compute.
Defined.

Lemma same_selection_map (f : Z → Z) a b :
  (∀ x y, (uint8 x = 0 ↔ uint8 y = 0) → f x = f y) →
  same_selection a b → map (map f) a = map (map f) b.
Proof.
  intros Hf H. induction H as [|r s a b Hrs _ IH]; [done|].
  simpl. rewrite IH. f_equal.
  induction Hrs as [|x y r s Hxy _ IHr]; [done|].
  simpl. by rewrite IHr, (Hf x y).
Qed.

Lemma f_m_binary_same a b : same_selection a b → f_m_binary a = f_m_binary b.
Proof.
  intros H. unfold f_m_binary, astype_uint8. rewrite !map_map_map.
  apply same_selection_map; [|done]. intros x y Hxy. unfold nonzero.
  destruct (Z.eqb_spec (uint8 x) 0) as [Hx|Hx],
           (Z.eqb_spec (uint8 y) 0) as [Hy|Hy]; simpl; try done;
    try congruence; tauto.
Qed.

(** [mask_biggest_connected_component] sees only which cells are
    non-zero: two masks that select the same cells, not none, give the
    same result, whatever their encodings. *)
Theorem mask_biggest_connected_component_same_selection a b :
  same_selection a b → ¬ all_zero (astype_uint8 a) →
  mask_biggest_connected_component a = mask_biggest_connected_component b.
Proof.
  intros H Hnz. unfold mask_biggest_connected_component. cbv zeta.
  rewrite <- (f_m_binary_same a b H).
  destruct (findContours (f_m_binary a) RETR_EXTERNAL CHAIN_APPROX_NONE)
    as [|c0 cs] eqn:E; [|done].
  apply findContours_external_nil, f_m_binary_all_zero in E. contradiction.
Qed.

Lemma mask_biggest_connected_component_same_selection_witness :
  mask_biggest_connected_component [[0; 0; 0]; [0; 1; 1]; [0; 0; 0]]
  = mask_biggest_connected_component [[0; 0; 0]; [0; 255; 255]; [0; 0; 0]].
Proof.
  apply (mask_biggest_connected_component_same_selection
           [[0; 0; 0]; [0; 1; 1]; [0; 0; 0]]
           [[0; 0; 0]; [0; 255; 255]; [0; 0; 0]]);
    unfold same_selection, all_zero; by_compute.
Defined.

Lemma bin_same a b : same_selection a b → bin (astype_uint8 a) = bin (astype_uint8 b).
Proof.
  intros H. unfold bin, astype_uint8. rewrite !map_map_map.
  apply same_selection_map; [|done]. intros x y Hxy. unfold nonzero.
  destruct (Z.eqb_spec (uint8 x) 0) as [Hx|Hx],
           (Z.eqb_spec (uint8 y) 0) as [Hy|Hy]; simpl; try done; tauto.
Qed.

Lemma rows_bin a : rows (bin a) = rows a.
Proof.
  unfold rows, bin. change (map ?f a) with (f <$> a).
  rewrite imap_fmap. apply imap_ext. intros i r _. simpl.
  by rewrite length_map.
Qed.

Lemma bin_bin a : bin (bin a) = bin a.
Proof.
  unfold bin. rewrite map_map_map, !map_as_mapi. apply mapi_ext.
  intros y x v _. unfold nonzero. by destruct (v =? 0).
Qed.

(** The contours depend on the picture through its binarisation only. *)
Lemma findContours_bin a mode method :
  findContours a mode method = findContours (bin a) mode method.
Proof.
  unfold findContours, scan. fold (bin a) (bin (bin a)).
  by rewrite rows_bin, bin_bin.
Qed.

(** [mask_delete_contour_in] clears the same cells in two masks that
    select the same cells: a cell of one result is zero exactly when it is
    zero in the other. *)
Theorem mask_delete_contour_in_same_selection a b region :
  same_selection a b →
  ∃ out_a out_b,
    mask_delete_contour_in a region = Return out_a
    ∧ mask_delete_contour_in b region = Return out_b
    ∧ ∀ y x, get out_a y x = 0 ↔ get out_b y x = 0.
Proof.
  intros H. unfold mask_delete_contour_in. cbv zeta.
  rewrite (findContours_bin (astype_uint8 b)), <- (bin_same a b H),
    <- findContours_bin.
  set (cs := findContours (astype_uint8 a) RETR_TREE CHAIN_APPROX_SIMPLE).
  destruct (delete_contours_cells region cs (astype_uint8 a))
    as (oa & Ha & Hca).
  destruct (delete_contours_cells region cs (astype_uint8 b))
    as (ob & Hb & Hcb).
  exists oa, ob. split; [done|]. split; [done|].
  intros y x. unfold get. rewrite Hca, Hcb, !cell_astype_uint8.
  assert (match cell a y x, cell b y x with
          | Some u, Some v => uint8 u = 0 ↔ uint8 v = 0
          | None, None => True
          | _, _ => False
          end) as Hcell.
  { unfold cell. case_bool_decide; [|done].
    unfold same_selection in H.
    destruct (a !! Z.to_nat y) as [r|] eqn:Er.
    - destruct (Forall2_lookup_l _ _ _ _ _ H Er) as (s & -> & Hrs). simpl.
      destruct (r !! Z.to_nat x) as [u|] eqn:Eu.
      + by destruct (Forall2_lookup_l _ _ _ _ _ Hrs Eu) as (v & -> & Huv).
      + apply lookup_ge_None in Eu.
        rewrite (Forall2_length _ _ _ Hrs) in Eu.
        apply lookup_ge_None in Eu. by rewrite Eu.
    - apply lookup_ge_None in Er. rewrite (Forall2_length _ _ _ H) in Er.
      apply lookup_ge_None in Er. by rewrite Er. }
  destruct (cell a y x) as [u|], (cell b y x) as [v|]; try done. simpl.
  destruct (existsb _ cs); [done|]. done.
Qed.

(** A run that clears: the ring of [ring_with_island], of contour area
    144 and centroid row 8, lies in the region above row 16; the corner of
    the ring at (2, 2) and the cell at (8, 8) are cleared in the 0/255
    picture and in its 0/1 form alike. *)
Lemma mask_delete_contour_in_same_selection_witness :
  (∃ out_a out_b,
    mask_delete_contour_in ring_with_island 16 = Return out_a
    ∧ mask_delete_contour_in (bin ring_with_island) 16 = Return out_b
    ∧ ∀ y x, get out_a y x = 0 ↔ get out_b y x = 0)
  ∧ bool_decide ([(2, 2); (2, 14); (14, 14); (14, 2)]
                 ∈ findContours (astype_uint8 ring_with_island)
                     RETR_TREE CHAIN_APPROX_SIMPLE) = true
  ∧ bool_decide ([(2, 2); (2, 14); (14, 14); (14, 2)]
                 ∈ findContours (astype_uint8 (bin ring_with_island))
                     RETR_TREE CHAIN_APPROX_SIMPLE) = true
  ∧ contourArea [(2, 2); (2, 14); (14, 14); (14, 2)] = 144%Q
  ∧ get ring_with_island 2 2 = 255
  ∧ get (bin ring_with_island) 2 2 = 1
  ∧ (out ← mask_delete_contour_in ring_with_island 16;
     Return (get out 2 2, get out 8 8)) = Return (0, 0)
  ∧ (out ← mask_delete_contour_in (bin ring_with_island) 16;
     Return (get out 2 2, get out 8 8)) = Return (0, 0).
Proof.
  split.
  - apply (mask_delete_contour_in_same_selection
             ring_with_island (bin ring_with_island) 16).
    unfold same_selection. by_compute.
  - vm_compute. repeat split.
Defined.

End Selection.
